(** * mythix-twt: a shallow embedding of the token codec

    The development follows the two source files of the library:
    - lib/crypto-utils.js: base64 transcoding, the secret bundle, the
      AES-256-CTR wrapper ([encrypt], [decrypt]);
    - lib/index.js: [validateEncodedSecret], [validateOptions],
      [generateTWT], [verifyTWT].

    The JavaScript run time the library calls into (JSON, Buffer,
    parseInt, Number.prototype.toString, node:crypto) is given an executable
    model in the first half of the file, so that every function of the library
    can be evaluated on concrete inputs.

    Conventions of the model.
    - Numbers: a finite number is an integer [Fin z]; NaN and the two
      infinities are kept apart.  The model follows IEEE doubles as long as
      the integers stay within the exactly representable range.
    - Strings: a JavaScript string is the [string] of its UTF-8 bytes.
    - Outcomes: a call returns [Ok], throws ([Throw]), or leaves the part of
      JavaScript the model covers ([Unmodelled]: a fractional number
      literal, an inherited property, and the like).  A theorem about [Ok]
      and [Throw] therefore never speaks about a run the model does not
      follow. *)

From Stdlib Require Import ZArith NArith List String Ascii Bool Lia.
From Stdlib Require Import Strings.Byte.
Import ListNotations.

Set Warnings "-register-all".

Local Open Scope string_scope.
Local Open Scope list_scope.
Local Open Scope Z_scope.

(* ================================================================== *)
(** ** Errors and outcomes *)
(* ================================================================== *)

(** The [code] field that [createError] attaches to a [TWTError]. *)
Inductive ErrorCode : Type :=
| ESECRET | EVALIDAT | EEXPIRESAT | ESERIALIZE | EENCRYPTION | EPARSE | ETIME.

(** The message literals of lib/index.js, one constructor per literal, in the
    order of the source. *)
Inductive Message : Type :=
| MsgBadSecret          (* Bad encodedSecret provided: ... must be a URL-safe base64 encoded JSON object ... *)
| MsgSecretKeyLength    (* ... encodedSecret.secretKey must be a Buffer with a length of 32 bytes *)
| MsgIvLength           (* ... encodedSecret.iv must be a Buffer with a length of 16 bytes *)
| MsgValidAtNumber      (* validAt must be a number (of seconds since the UNIX epoch) *)
| MsgValidAtBeforeNow   (* validAt must be no sooner than now ... *)
| MsgValidAtTooFar      (* validAt can not be more than a year into the future *)
| MsgExpiresAtNumber    (* expiresAt must be a number ... *)
| MsgExpiresAtBeforeNow (* expiresAt must be no sooner than now ... *)
| MsgExpiresAtBeforeValidAt (* expiresAt must not be before validAt *)
| MsgExpiresAtTooFar    (* expiresAt can not be more than a year into the future from validAt *)
| MsgSerializing        (* Serializing error: ... *)
| MsgEncryption         (* Encryption error: ... *)
| MsgDecryption         (* Decryption error: ... *)
| MsgParsing            (* Parsing error: ... *)
| MsgInvalidToken       (* Invalid token *)
| MsgValidAtAfterExpiresAt (* Token validAt is greater than expiresAt *)
| MsgNotYetValid        (* Token is not yet valid *)
| MsgExpired.           (* Token has expired *)

(** What a call can throw: a [TWTError] built by [createError], or an error of
    the run time itself that nothing caught. *)
Inductive Exn : Type :=
| TWTError (code : ErrorCode) (message : Message)
| TypeError
| RangeError
| SyntaxError.

Inductive Outcome (A : Type) : Type :=
| Ok (a : A)
| Throw (e : Exn)
| Unmodelled.

Arguments Ok {A} a.
Arguments Throw {A} e.
Arguments Unmodelled {A}.

Definition bind {A B : Type} (m : Outcome A) (k : A -> Outcome B) : Outcome B :=
  match m with
  | Ok a => k a
  | Throw e => Throw e
  | Unmodelled => Unmodelled
  end.

(** [try { m } catch (error) { h error }]. *)
Definition try_catch {A : Type} (m : Outcome A) (h : Exn -> Outcome A) : Outcome A :=
  match m with
  | Throw e => h e
  | other => other
  end.

Declare Scope outcome_scope.
Delimit Scope outcome_scope with outcome.
Notation "x <- m ;; k" := (bind m (fun x => k))
  (at level 61, m at next level, right associativity) : outcome_scope.
Notation "m ;;; k" := (bind m (fun _ => k))
  (at level 61, right associativity) : outcome_scope.
Local Open Scope outcome_scope.

(** [createError(message, code, cause)]; the cause is kept for diagnostics only
    and is not part of the model. *)
Definition createError (message : Message) (code : ErrorCode) : Exn :=
  TWTError code message.

(** The code of a thrown [TWTError]; an error of the run time carries none. *)
Definition error_code {A : Type} (m : Outcome A) : option ErrorCode :=
  match m with
  | Throw (TWTError c _) => Some c
  | _ => None
  end.

(* ================================================================== *)
(** ** JavaScript values *)
(* ================================================================== *)

Inductive JSNumber : Type :=
| NaN
| PInf
| NInf
| Fin (z : Z).

Inductive JSValue : Type :=
| JUndefined
| JNull
| JBool (b : bool)
| JNum (n : JSNumber)
| JStr (s : string)
| JArr (elems : list JSValue)
| JObj (props : list (string * JSValue)).

(** The own enumerable properties of an object, in enumeration order. *)
Abbreviation Props := (list (string * JSValue)) (only parsing).

Inductive JSType : Type :=
| TUndefined | TObject | TBoolean | TNumber | TString.

Definition typeof (v : JSValue) : JSType :=
  match v with
  | JUndefined => TUndefined
  | JNull => TObject
  | JBool _ => TBoolean
  | JNum _ => TNumber
  | JStr _ => TString
  | JArr _ => TObject
  | JObj _ => TObject
  end.

Definition is_string (v : JSValue) : bool :=
  match v with JStr _ => true | _ => false end.

Definition is_number (v : JSValue) : bool :=
  match v with JNum _ => true | _ => false end.

(** ToBoolean. *)
Definition truthy (v : JSValue) : bool :=
  match v with
  | JUndefined | JNull => false
  | JBool b => b
  | JNum NaN => false
  | JNum (Fin z) => negb (z =? 0)
  | JNum _ => true
  | JStr s => negb (s =? "")%string
  | JArr _ | JObj _ => true
  end.

(** [isFinite] on a number. *)
Definition isFinite (n : JSNumber) : bool :=
  match n with Fin _ => true | _ => false end.

(** The relational operators on numbers: a comparison with NaN is false. *)
Definition num_lt (a b : JSNumber) : bool :=
  match a, b with
  | NaN, _ | _, NaN => false
  | Fin x, Fin y => x <? y
  | NInf, NInf => false
  | NInf, _ => true
  | _, NInf => false
  | PInf, _ => false
  | Fin _, PInf => true
  end.

Definition num_gt (a b : JSNumber) : bool := num_lt b a.

Definition num_le (a b : JSNumber) : bool :=
  match a, b with
  | NaN, _ | _, NaN => false
  | _, _ => negb (num_lt b a)
  end.

Definition num_add (a b : JSNumber) : JSNumber :=
  match a, b with
  | NaN, _ | _, NaN => NaN
  | Fin x, Fin y => Fin (x + y)
  | PInf, NInf | NInf, PInf => NaN
  | PInf, _ | _, PInf => PInf
  | NInf, _ | _, NInf => NInf
  end.

Definition num_neg (a : JSNumber) : JSNumber :=
  match a with
  | NaN => NaN
  | PInf => NInf
  | NInf => PInf
  | Fin x => Fin (- x)
  end.

Definition num_sub (a b : JSNumber) : JSNumber := num_add a (num_neg b).

(** [Math.abs]. *)
Definition num_abs (a : JSNumber) : JSNumber :=
  match a with
  | NaN => NaN
  | PInf | NInf => PInf
  | Fin x => Fin (Z.abs x)
  end.

(** The integers a double holds exactly. *)
Definition safe_integer (z : Z) : bool := Z.abs z <=? 9007199254740991.

(* ================================================================== *)
(** ** Numbers as text: Number.prototype.toString and parseInt *)
(* ================================================================== *)

(** The digit of value [d] below 36: 0-9 then a-z. *)
Definition digit_char (d : N) : ascii :=
  if (d <? 10)%N then ascii_of_N (48 + d) else ascii_of_N (87 + d).

Fixpoint to_digits (fuel : nat) (radix n : N) (acc : string) : string :=
  match fuel with
  | O => acc
  | S f =>
      let acc' := String (digit_char (n mod radix)) acc in
      if (n / radix =? 0)%N then acc' else to_digits f radix (n / radix) acc'
  end.

(** The digits of [n] in [radix], most significant first; 0 is one digit. *)
Definition N_to_string (radix n : N) : string :=
  to_digits (S (N.to_nat (N.log2 n))) radix n "".

(** The value of a character as a digit in [radix]; parseInt reads both
    letter cases. *)
Definition digit_value (radix : N) (c : ascii) : option N :=
  let n := N_of_ascii c in
  let d :=
    if ((48 <=? n) && (n <=? 57))%N then Some (n - 48)%N
    else if ((97 <=? n) && (n <=? 122))%N then Some (n - 87)%N
    else if ((65 <=? n) && (n <=? 90))%N then Some (n - 55)%N
    else None in
  match d with
  | Some v => if (v <? radix)%N then Some v else None
  | None => None
  end.

(** The value of the longest prefix of digits of [s], after the digits that
    gave [acc]; [None] when no digit was read at all. *)
Fixpoint read_digits (radix : N) (s : string) (acc : option N) : option N :=
  match s with
  | EmptyString => acc
  | String c rest =>
      match digit_value radix c with
      | Some d =>
          read_digits radix rest
            (Some (match acc with Some a => a * radix + d | None => d end)%N)
      | None => acc
      end
  end.

(** [z.toString(radix)] and [String(z)] for an integer. *)
Definition Z_to_string (radix : N) (z : Z) : string :=
  if z <? 0 then String "-" (N_to_string radix (Z.abs_N z))
  else N_to_string radix (Z.abs_N z).

(** [n.toString(radix)]; the digits of an integer a double does not hold
    exactly are outside the model. *)
Definition number_toString (radix : N) (n : JSNumber) : Outcome string :=
  match n with
  | NaN => Ok "NaN"
  | PInf => Ok "Infinity"
  | NInf => Ok "-Infinity"
  | Fin z => if safe_integer z then Ok (Z_to_string radix z) else Unmodelled
  end.

Definition is_ascii_space (c : ascii) : bool :=
  let n := N_of_ascii c in ((9 <=? n) && (n <=? 13) || (n =? 32))%N.

Fixpoint skip_space (s : string) : string :=
  match s with
  | String c rest => if is_ascii_space c then skip_space rest else s
  | EmptyString => s
  end.

(** [parseInt(text, radix)] for a radix other than 16: leading white space, an
    optional sign, then the longest run of digits; NaN when there is none.
    White space beyond ASCII and values a double would round are outside the
    model. *)
Definition parseInt_string (radix : N) (text : string) : Outcome JSNumber :=
  let s := skip_space text in
  match s with
  | String c rest =>
      if (128 <=? N_of_ascii c)%N then Unmodelled else
      let negative := (c =? "-")%char in
      let body := if ((c =? "-") || (c =? "+"))%char then rest else s in
      match read_digits radix body None with
      | None => Ok NaN
      | Some v =>
          if safe_integer (Z.of_N v)
          then Ok (Fin (if negative then - Z.of_N v else Z.of_N v))
          else Unmodelled
      end
  | EmptyString => Ok NaN
  end.

(* ================================================================== *)
(** ** Objects: own properties in enumeration order *)
(* ================================================================== *)

Definition all_digits (s : string) : bool :=
  forallb (fun c => let n := N_of_ascii c in ((48 <=? n) && (n <=? 57))%N)
          (list_ascii_of_string s).

(** A property key that is an array index: the canonical decimal text of an
    integer below 2^32 - 1.  Such keys are enumerated first, in ascending
    order. *)
Definition array_index (k : string) : option N :=
  if all_digits k then
    match read_digits 10 k None with
    | Some n => if ((n <=? 4294967294) && (N_to_string 10 n =? k)%string)%N
                then Some n else None
    | None => None
    end
  else None.

Fixpoint obj_find (k : string) (o : Props) : option JSValue :=
  match o with
  | [] => None
  | (k', v) :: o' => if (k' =? k)%string then Some v else obj_find k o'
  end.

(** [o[k]] for an own property; [undefined] when there is none. *)
Definition obj_get (k : string) (o : Props) : JSValue :=
  match obj_find k o with
  | Some v => v
  | None => JUndefined
  end.

Definition obj_has (k : string) (o : Props) : bool :=
  match obj_find k o with Some _ => true | None => false end.

Fixpoint obj_replace (k : string) (v : JSValue) (o : Props) : Props :=
  match o with
  | [] => []
  | (k', v') :: o' =>
      if (k' =? k)%string then (k', v) :: o' else (k', v') :: obj_replace k v o'
  end.

Fixpoint obj_insert_index (i : N) (k : string) (v : JSValue) (o : Props) : Props :=
  match o with
  | [] => [(k, v)]
  | (k', v') :: o' =>
      match array_index k' with
      | Some j => if (j <? i)%N then (k', v') :: obj_insert_index i k v o'
                  else (k, v) :: o
      | None => (k, v) :: o
      end
  end.

(** [o[k] = v] on an ordinary object: an existing property keeps its place, a
    new array index goes among the indices, any other new key goes last. *)
Definition obj_set (k : string) (v : JSValue) (o : Props) : Props :=
  if obj_has k o then obj_replace k v o
  else match array_index k with
       | Some i => obj_insert_index i k v o
       | None => o ++ [(k, v)]
       end.

(** [Object.keys(o)]. *)
Definition Object_keys (o : Props) : list string := map fst o.

(** The names an ordinary object inherits from Object.prototype.  Reading one
    of them yields a built-in function, and writing __proto__ changes the
    prototype instead of creating a property: both are outside the model. *)
Definition object_prototype_names : list string :=
  [ "constructor"; "__defineGetter__"; "__defineSetter__"; "hasOwnProperty";
    "__lookupGetter__"; "__lookupSetter__"; "isPrototypeOf";
    "propertyIsEnumerable"; "toString"; "valueOf"; "__proto__";
    "toLocaleString" ].

Definition inherited_name (k : string) : bool :=
  existsb (fun n => (n =? k)%string) object_prototype_names.

(** [o[k]] for a key chosen by the data: own property first, then the
    prototype. *)
Definition obj_lookup (k : string) (o : Props) : Outcome JSValue :=
  match obj_find k o with
  | Some v => Ok v
  | None => if inherited_name k then Unmodelled else Ok JUndefined
  end.

(** [o[k] = v] for a key chosen by the data. *)
Definition obj_assign_key (k : string) (v : JSValue) (o : Props) : Outcome Props :=
  if (k =? "__proto__")%string then Unmodelled else Ok (obj_set k v o).

Fixpoint index_props (i : N) (l : list JSValue) : Props :=
  match l with
  | [] => []
  | v :: l' => (N_to_string 10 i, v) :: index_props (i + 1) l'
  end.

(** The own enumerable properties [Object.assign] and [Object.keys] see on a
    value.  The code units of a string are outside the model. *)
Definition own_props (v : JSValue) : Outcome Props :=
  match v with
  | JObj o => Ok o
  | JArr l => Ok (index_props 0 l)
  | JStr s => if (s =? "")%string then Ok [] else Unmodelled
  | _ => Ok []
  end.

(** [Object.assign(target, source)]: every own property of the source is
    written to the target, in order. *)
Fixpoint assign_props (target : Props) (source : Props) : Outcome Props :=
  match source with
  | [] => Ok target
  | (k, v) :: rest =>
      t <- obj_assign_key k v target ;;
      assign_props t rest
  end.

Definition Object_assign (target : Props) (source : JSValue) : Outcome Props :=
  src <- own_props source ;;
  assign_props target src.

(* ================================================================== *)
(** ** Buffers: bytes, base64 and UTF-8 *)
(* ================================================================== *)

Abbreviation Buffer := (list byte) (only parsing).

Definition byte_of_N (n : N) : byte :=
  match Byte.of_N (n mod 256) with
  | Some b => b
  | None => x00
  end.

Definition byte_xor (a b : byte) : byte :=
  byte_of_N (N.lxor (Byte.to_N a) (Byte.to_N b)).

(** The bytes of [data] combined with a key stream of the same length. *)
Fixpoint xor_bytes (data stream : Buffer) : Buffer :=
  match data, stream with
  | d :: data', s :: stream' => byte_xor d s :: xor_bytes data' stream'
  | _, _ => []
  end.

(** *** base64, as Buffer writes and reads it *)

Definition base64_alphabet : string :=
  "ABCDEFGHIJKLMNOPQRSTUVWXYZabcdefghijklmnopqrstuvwxyz0123456789+/".

Definition base64_char (i : N) : ascii :=
  match String.get (N.to_nat i) base64_alphabet with
  | Some c => c
  | None => "="%char
  end.

(** [buffer.toString('base64')]: three bytes give four characters; a last
    group of one or two bytes is padded with = signs. *)
Fixpoint base64_encode (l : Buffer) : string :=
  match l with
  | [] => ""
  | [a] =>
      let n := Byte.to_N a in
      String (base64_char (n / 4))
        (String (base64_char ((n mod 4) * 16)) "==")
  | [a; b] =>
      let n := (Byte.to_N a * 256 + Byte.to_N b)%N in
      String (base64_char (n / 1024))
        (String (base64_char ((n / 16) mod 64))
           (String (base64_char ((n mod 16) * 4)) "="))
  | a :: b :: c :: rest =>
      let n := (Byte.to_N a * 65536 + Byte.to_N b * 256 + Byte.to_N c)%N in
      String (base64_char (n / 262144))
        (String (base64_char ((n / 4096) mod 64))
           (String (base64_char ((n / 64) mod 64))
              (String (base64_char (n mod 64)) (base64_encode rest))))
  end.

(** The value of a base64 character.  The reader of Buffer accepts both
    alphabets: + and - stand for 62, / and _ for 63. *)
Definition unbase64 (c : ascii) : option N :=
  let n := N_of_ascii c in
  if ((65 <=? n) && (n <=? 90))%N then Some (n - 65)%N
  else if ((97 <=? n) && (n <=? 122))%N then Some (n - 71)%N
  else if ((48 <=? n) && (n <=? 57))%N then Some (n + 4)%N
  else if ((n =? 43) || (n =? 45))%N then Some 62%N
  else if ((n =? 47) || (n =? 95))%N then Some 63%N
  else None.

(** What the reader does with one character code [c], [k] being what the rest
    of the text gives.  The reader is lenient: a code outside the alphabets is
    skipped, and reading stops at the first = sign. *)
Definition read_code (c : ascii) (k : list N) : list N :=
  if (c =? "=")%char then []
  else match unbase64 c with
       | Some v => v :: k
       | None => k
       end.

(** The six bits a continuation byte of UTF-8 carries. *)
Definition low_bits (c : ascii) : N := (N_of_ascii c mod 64)%N.

(** The reader goes through the UTF-16 code units of the text and looks at the
    low byte of each.  In the UTF-8 bytes of the model a character below U+0080
    is one byte, its code; a character below U+10000 is two or three bytes and
    one code unit, whose low byte is made of the last two bytes; a character
    beyond is four bytes and two code units, a surrogate pair.  A byte that
    starts no character is skipped. *)
Fixpoint base64_sextets (s : string) : list N :=
  match s with
  | EmptyString => []
  | String c rest =>
      let n := N_of_ascii c in
      if (n <? 128)%N then read_code c (base64_sextets rest)
      else if ((194 <=? n) && (n <=? 223))%N then
        match rest with
        | String c1 rest1 =>
            read_code (ascii_of_N ((n mod 4) * 64 + low_bits c1))
              (base64_sextets rest1)
        | EmptyString => []
        end
      else if ((224 <=? n) && (n <=? 239))%N then
        match rest with
        | String c1 (String c2 rest2) =>
            read_code (ascii_of_N ((N_of_ascii c1 mod 4) * 64 + low_bits c2))
              (base64_sextets rest2)
        | _ => []
        end
      else if ((240 <=? n) && (n <=? 244))%N then
        match rest with
        | String c1 (String c2 (String c3 rest3)) =>
            let v := ((n mod 8) * 262144 + low_bits c1 * 4096
                      + low_bits c2 * 64 + low_bits c3 - 65536)%N in
            read_code (ascii_of_N ((v / 1024) mod 256))
              (read_code (ascii_of_N (v mod 256)) (base64_sextets rest3))
        | _ => []
        end
      else base64_sextets rest
  end.

(** Four sextets give three bytes; of a last group, two sextets give one byte
    and three give two, the bits left over are dropped. *)
Fixpoint sextets_bytes (l : list N) : Buffer :=
  match l with
  | a :: b :: c :: d :: rest =>
      byte_of_N (a * 4 + b / 16)
        :: byte_of_N ((b mod 16) * 16 + c / 4)
        :: byte_of_N ((c mod 4) * 64 + d)
        :: sextets_bytes rest
  | [a; b; c] =>
      [byte_of_N (a * 4 + b / 16); byte_of_N ((b mod 16) * 16 + c / 4)]
  | [a; b] => [byte_of_N (a * 4 + b / 16)]
  | _ => []
  end.

(** [Buffer.from(text, 'base64')]. *)
Definition base64_decode (s : string) : Buffer :=
  sextets_bytes (base64_sextets s).

(** *** UTF-8 *)

(** [Buffer.from(text, 'utf8')]: a string of the model is its UTF-8 bytes. *)
Definition utf8_encode (s : string) : Buffer := list_byte_of_string s.

(** U+FFFD, which the reader puts in place of each ill-formed sequence. *)
Definition replacement : Buffer := [xef; xbf; xbd].

Definition in_range (lo hi : N) (b : byte) : bool :=
  ((lo <=? Byte.to_N b) && (Byte.to_N b <=? hi))%N.

(** The number of bytes that must follow the lead byte [b], with the range
    of the first of them; [None] for a byte that starts no sequence. *)
Definition utf8_lead (b : byte) : option (nat * N * N) :=
  let n := Byte.to_N b in
  if (n <? 128)%N then Some (0%nat, 128, 191)%N
  else if in_range 194 223 b then Some (1%nat, 128, 191)%N
  else if (n =? 224)%N then Some (2%nat, 160, 191)%N
  else if (n =? 237)%N then Some (2%nat, 128, 159)%N
  else if in_range 225 239 b then Some (2%nat, 128, 191)%N
  else if (n =? 240)%N then Some (3%nat, 144, 191)%N
  else if (n =? 244)%N then Some (3%nat, 128, 143)%N
  else if in_range 241 243 b then Some (3%nat, 128, 191)%N
  else None.

(** The reader in its state: [pending] holds the bytes of the sequence read
    so far, [needed] counts the bytes still to come, and the next one must lie
    in [lo..hi].  A byte that does not fit ends the sequence with U+FFFD and is
    read again as the start of a new one. *)
Fixpoint utf8_scan (pending : Buffer) (needed : nat) (lo hi : N) (l : Buffer) : Buffer :=
  let start (b : byte) (rest : Buffer) :=
    match utf8_lead b with
    | Some (O, _, _) => b :: utf8_scan [] 0 128 191 rest
    | Some (n, lo', hi') => utf8_scan [b] n lo' hi' rest
    | None => replacement ++ utf8_scan [] 0 128 191 rest
    end in
  match l with
  | [] => match needed with O => [] | S _ => replacement end
  | b :: rest =>
      match needed with
      | O => start b rest
      | S n =>
          if in_range lo hi b then
            match n with
            | O => pending ++ b :: utf8_scan [] 0 128 191 rest
            | S _ => utf8_scan (pending ++ [b]) n 128 191 rest
            end
          else replacement ++ start b rest
      end
  end.

(** [buffer.toString('utf8')]. *)
Definition utf8_decode (l : Buffer) : string :=
  string_of_list_byte (utf8_scan [] 0 128 191 l).

(* ================================================================== *)
(** ** node:crypto: AES-256 in counter mode (FIPS 197, SP 800-38A) *)
(* ================================================================== *)

Module AES.

Local Open Scope N_scope.

(** Multiplication by x in GF(2^8) modulo x^8 + x^4 + x^3 + x + 1. *)
Definition xtime (a : N) : N :=
  let s := N.land (N.shiftl a 1) 255 in
  if N.testbit a 7 then N.lxor s 27 else s.

Fixpoint gmul_fuel (fuel : nat) (a b : N) : N :=
  match fuel with
  | O => 0
  | S f => N.lxor (if N.odd b then a else 0) (gmul_fuel f (xtime a) (N.shiftr b 1))
  end.

Definition gmul (a b : N) : N := gmul_fuel 8 a b.

(** The inverse in GF(2^8) as the power 254; 0 is sent to 0. *)
Definition ginv (a : N) : N :=
  let a2 := gmul a a in
  let a4 := gmul a2 a2 in
  let a8 := gmul a4 a4 in
  let a16 := gmul a8 a8 in
  let a32 := gmul a16 a16 in
  let a64 := gmul a32 a32 in
  let a128 := gmul a64 a64 in
  gmul a128 (gmul a64 (gmul a32 (gmul a16 (gmul a8 (gmul a4 a2))))).

Definition rotl8 (x : N) (k : N) : N :=
  N.land (N.lor (N.shiftl x k) (N.shiftr x (8 - k))) 255.

Definition sbox_of (a : N) : N :=
  let b := ginv a in
  N.lxor b (N.lxor (rotl8 b 1) (N.lxor (rotl8 b 2) (N.lxor (rotl8 b 3) (N.lxor (rotl8 b 4) 99)))).

Definition SBOX : list N :=
  Eval vm_compute in map (fun i => sbox_of (N.of_nat i)) (seq 0 256).

Definition sub_byte (a : N) : N := nth (N.to_nat a) SBOX 0.

Definition xor_list (a b : list N) : list N := map (fun p => N.lxor (fst p) (snd p)) (combine a b).

(** The state is the block in input order: row r of column c sits at index
    r + 4 c. *)
Definition sub_bytes (s : list N) : list N := map sub_byte s.

Definition shift_rows (s : list N) : list N :=
  map (fun i => nth (i mod 4 + 4 * ((i / 4 + i mod 4) mod 4))%nat s 0) (seq 0 16).

Definition mix_column (col : list N) : list N :=
  match col with
  | [a0; a1; a2; a3] =>
      [ N.lxor (gmul 2 a0) (N.lxor (gmul 3 a1) (N.lxor a2 a3));
        N.lxor a0 (N.lxor (gmul 2 a1) (N.lxor (gmul 3 a2) a3));
        N.lxor a0 (N.lxor a1 (N.lxor (gmul 2 a2) (gmul 3 a3)));
        N.lxor (gmul 3 a0) (N.lxor a1 (N.lxor a2 (gmul 2 a3))) ]
  | _ => col
  end.

Definition mix_columns (s : list N) : list N :=
  mix_column (firstn 4 s) ++ mix_column (firstn 4 (skipn 4 s))
    ++ mix_column (firstn 4 (skipn 8 s)) ++ mix_column (skipn 12 s).

Definition rot_word (w : list N) : list N :=
  match w with
  | a :: rest => rest ++ [a]
  | [] => []
  end.

Definition rcon (j : nat) : list N := [Nat.iter (j - 1) xtime 1; 0; 0; 0].

(** Key expansion for a 256-bit key.  [rev_words] holds w[i-1], w[i-2], ...;
    [count] more words are appended after word number [i] - 1. *)
Fixpoint expand (count : nat) (i : nat) (rev_words : list (list N)) : list (list N) :=
  match count with
  | O => rev rev_words
  | S count' =>
      let prev := nth 0 rev_words [] in
      let temp :=
        if (i mod 8 =? 0)%nat then xor_list (map sub_byte (rot_word prev)) (rcon (i / 8))
        else if (i mod 8 =? 4)%nat then map sub_byte prev
        else prev in
      expand count' (S i) (xor_list (nth 7 rev_words []) temp :: rev_words)
  end.

Definition key_words (key : list N) : list (list N) :=
  [ firstn 4 key; firstn 4 (skipn 4 key); firstn 4 (skipn 8 key);
    firstn 4 (skipn 12 key); firstn 4 (skipn 16 key); firstn 4 (skipn 20 key);
    firstn 4 (skipn 24 key); firstn 4 (skipn 28 key) ].

(** The fifteen round keys. *)
Definition key_schedule (key : list N) : list (list N) :=
  let w := expand 52 8 (rev (key_words key)) in
  map (fun r => List.concat (firstn 4 (skipn (4 * r) w))) (seq 0 15).

Definition round (s rk : list N) : list N :=
  xor_list (mix_columns (shift_rows (sub_bytes s))) rk.

Definition final_round (s rk : list N) : list N :=
  xor_list (shift_rows (sub_bytes s)) rk.

Definition encrypt_block (round_keys : list (list N)) (block : list N) : list N :=
  match round_keys with
  | rk0 :: rest =>
      let middle := firstn 13 rest in
      let last := nth 13 rest [] in
      final_round (fold_left round middle (xor_list block rk0)) last
  | [] => block
  end.

(** A block as a big-endian integer, and back. *)
Definition block_value (b : list N) : N := fold_left (fun acc x => acc * 256 + x) b 0.

Fixpoint value_block (len : nat) (v : N) (acc : list N) : list N :=
  match len with
  | O => acc
  | S len' => value_block len' (v / 256) (v mod 256 :: acc)
  end.

(** The counter blocks: the IV, then its successors modulo 2^128. *)
Fixpoint counters (n : nat) (v : N) : list (list N) :=
  match n with
  | O => []
  | S n' => value_block 16 v [] :: counters n' ((v + 1) mod 2 ^ 128)
  end.

(** The first [len] bytes of the key stream. *)
Definition keystream (key iv : Buffer) (len : nat) : Buffer :=
  let rks := key_schedule (map Byte.to_N key) in
  let blocks := counters (S (len / 16)) (block_value (map Byte.to_N iv)) in
  map byte_of_N (firstn len (List.concat (map (encrypt_block rks) blocks))).

End AES.

(** [Crypto.createCipheriv('aes-256-ctr', key, iv)], and [createDecipheriv]
    alike: the constructor throws on an IV that is not 16 bytes long, which it
    looks at first, or a key that is not 32 bytes long; the object it returns
    turns data into [Buffer.concat([cipher.update(data), cipher.final()])],
    which in counter mode is the data combined with the key stream, in both
    directions. *)
Definition createCipheriv (key iv : Buffer) : Outcome (Buffer -> Buffer) :=
  if negb (List.length iv =? 16)%nat then Throw TypeError
  else if negb (List.length key =? 32)%nat then Throw RangeError
  else Ok (fun data => xor_bytes data (AES.keystream key iv (List.length data))).

(* ================================================================== *)
(** ** JSON *)
(* ================================================================== *)

(** The double quote, which a string literal of this file cannot hold. *)
Definition dquote : ascii := "034"%char.

(** *** JSON.stringify *)

Definition escape_char (c : ascii) : string :=
  let n := N_of_ascii c in
  if (n =? 34)%N then String "\" (String dquote "")
  else if (n =? 92)%N then "\\"
  else if (n =? 8)%N then "\b"
  else if (n =? 9)%N then "\t"
  else if (n =? 10)%N then "\n"
  else if (n =? 12)%N then "\f"
  else if (n =? 13)%N then "\r"
  else if (n <? 32)%N then
    String "\" (String "u" (String "0" (String "0"
      (String (digit_char (n / 16)) (String (digit_char (n mod 16)) "")))))
  else String c "".

Fixpoint quote_body (s : string) : string :=
  match s with
  | EmptyString => ""
  | String c rest => (escape_char c ++ quote_body rest)%string
  end.

(** QuoteJSONString. *)
Definition quote (s : string) : string :=
  String dquote (quote_body s ++ String dquote "")%string.

Definition separator (first : bool) : string := if first then "" else ",".

(** SerializeJSONProperty on a tree of data: a number that is not finite and
    an undefined array element are written as null, an undefined property is
    left out. *)
Fixpoint stringify (v : JSValue) : string :=
  match v with
  | JUndefined => "null"
  | JNull => "null"
  | JBool true => "true"
  | JBool false => "false"
  | JNum (Fin z) => Z_to_string 10 z
  | JNum _ => "null"
  | JStr s => quote s
  | JArr l =>
      let fix elems (first : bool) (l : list JSValue) : string :=
        match l with
        | [] => ""
        | x :: rest => (separator first ++ stringify x ++ elems false rest)%string
        end in
      ("[" ++ elems true l ++ "]")%string
  | JObj o =>
      let fix members (first : bool) (o : list (string * JSValue)) : string :=
        match o with
        | [] => ""
        | (k, v) :: rest =>
            match v with
            | JUndefined => members first rest
            | _ => (separator first ++ quote k ++ ":" ++ stringify v
                      ++ members false rest)%string
            end
        end in
      ("{" ++ members true o ++ "}")%string
  end.

(** The two loops of [stringify], by name. *)
Fixpoint stringify_elems (first : bool) (l : list JSValue) : string :=
  match l with
  | [] => ""
  | x :: rest =>
      (separator first ++ stringify x ++ stringify_elems false rest)%string
  end.

Fixpoint stringify_members (first : bool) (o : Props) : string :=
  match o with
  | [] => ""
  | (k, v) :: rest =>
      match v with
      | JUndefined => stringify_members first rest
      | _ => (separator first ++ quote k ++ ":" ++ stringify v
                ++ stringify_members false rest)%string
      end
  end.

(** Every number of the tree is one a double holds exactly. *)
Fixpoint numbers_safe (v : JSValue) : bool :=
  match v with
  | JNum (Fin z) => safe_integer z
  | JArr l => forallb numbers_safe l
  | JObj o => forallb (fun p => numbers_safe (snd p)) o
  | _ => true
  end.

(** [JSON.stringify(value)] for an object or an array of data.  Such a tree has
    no cycle, so the call does not throw. *)
Definition JSON_stringify (v : JSValue) : Outcome string :=
  if numbers_safe v then Ok (stringify v) else Unmodelled.

(** *** JSON.parse *)

Definition is_json_space (c : ascii) : bool :=
  let n := N_of_ascii c in ((n =? 32) || (n =? 9) || (n =? 10) || (n =? 13))%N.

Fixpoint skip_ws (s : string) : string :=
  match s with
  | String c rest => if is_json_space c then skip_ws rest else s
  | EmptyString => s
  end.

Definition is_digit (c : ascii) : bool :=
  let n := N_of_ascii c in ((48 <=? n) && (n <=? 57))%N.

(** The value of four hexadecimal digits. *)
Definition hex4 (a b c d : ascii) : option N :=
  match digit_value 16 a, digit_value 16 b, digit_value 16 c, digit_value 16 d with
  | Some x, Some y, Some z, Some w => Some (((x * 16 + y) * 16 + z) * 16 + w)%N
  | _, _, _, _ => None
  end.

(** The character an escape letter stands for. *)
Definition unescape (e : ascii) : option ascii :=
  let n := N_of_ascii e in
  if (n =? 34)%N then Some dquote
  else if (n =? 92)%N then Some "\"%char
  else if (n =? 47)%N then Some "/"%char
  else if (n =? 98)%N then Some "008"%char
  else if (n =? 102)%N then Some "012"%char
  else if (n =? 110)%N then Some "010"%char
  else if (n =? 114)%N then Some "013"%char
  else if (n =? 116)%N then Some "009"%char
  else None.

(** A string literal after its opening quote: the text and what follows the
    closing quote.  A \u escape beyond ASCII is outside the model. *)
Fixpoint parse_string_body (s : string) : Outcome (string * string) :=
  match s with
  | EmptyString => Throw SyntaxError
  | String c rest =>
      let n := N_of_ascii c in
      if (n =? 34)%N then Ok (EmptyString, rest)
      else if (n =? 92)%N then
        match rest with
        | String e rest' =>
            if (N_of_ascii e =? 117)%N then
              match rest' with
              | String h1 (String h2 (String h3 (String h4 rest''))) =>
                  match hex4 h1 h2 h3 h4 with
                  | Some v =>
                      if (v <? 128)%N then
                        match parse_string_body rest'' with
                        | Ok (body, r) => Ok (String (ascii_of_N v) body, r)
                        | other => other
                        end
                      else Unmodelled
                  | None => Throw SyntaxError
                  end
              | _ => Throw SyntaxError
              end
            else
              match unescape e with
              | Some ch =>
                  match parse_string_body rest' with
                  | Ok (body, r) => Ok (String ch body, r)
                  | other => other
                  end
              | None => Throw SyntaxError
              end
        | EmptyString => Throw SyntaxError
        end
      else if (n <? 32)%N then Throw SyntaxError
      else
        match parse_string_body rest with
        | Ok (body, r) => Ok (String c body, r)
        | other => other
        end
  end.

Fixpoint span_digits (s : string) : string * string :=
  match s with
  | String c rest =>
      if is_digit c then let '(d, r) := span_digits rest in (String c d, r)
      else (EmptyString, s)
  | EmptyString => (EmptyString, EmptyString)
  end.

Definition starts_fraction (s : string) : bool :=
  match s with
  | String c _ => ((c =? ".") || (c =? "e") || (c =? "E"))%char
  | EmptyString => false
  end.

(** A number literal.  A literal with a fraction or an exponent, and an
    integer a double would round, are outside the model. *)
Definition parse_number (s : string) : Outcome (JSValue * string) :=
  let negative :=
    match s with
    | String c _ => (c =? "-")%char
    | EmptyString => false
    end in
  let s1 :=
    match s with
    | String c r => if (c =? "-")%char then r else s
    | EmptyString => s
    end in
  let '(ds, rest) := span_digits s1 in
  match ds with
  | EmptyString => Throw SyntaxError
  | String d0 more =>
      if ((d0 =? "0")%char && negb (more =? "")%string)%bool then Throw SyntaxError
      else if starts_fraction rest then Unmodelled
      else match read_digits 10 ds None with
           | Some v =>
               if safe_integer (Z.of_N v)
               then Ok (JNum (Fin (if negative then - Z.of_N v else Z.of_N v)), rest)
               else Unmodelled
           | None => Throw SyntaxError
           end
  end.

Fixpoint strip_prefix (p s : string) : option string :=
  match p, s with
  | EmptyString, _ => Some s
  | String a p', String b s' => if (a =? b)%char then strip_prefix p' s' else None
  | String _ _, EmptyString => None
  end.

Definition parse_literal (word : string) (v : JSValue) (s : string)
  : Outcome (JSValue * string) :=
  match strip_prefix word s with
  | Some rest => Ok (v, rest)
  | None => Throw SyntaxError
  end.

(** A value, the elements of an array after the first bracket, and the members
    of an object after the first brace.  The result is [None] when [fuel] runs
    out; [JSON_parse] below gives enough of it. *)
Fixpoint parse_value (fuel : nat) (s : string)
  : option (Outcome (JSValue * string)) :=
  match fuel with
  | O => None
  | S f =>
      match skip_ws s with
      | EmptyString => Some (Throw SyntaxError)
      | String c r =>
          if (c =? "{")%char then
            match skip_ws r with
            | String c' r' =>
                if (c' =? "}")%char then Some (Ok (JObj [], r'))
                else parse_members f [] r
            | EmptyString => parse_members f [] r
            end
          else if (c =? "[")%char then
            match skip_ws r with
            | String c' r' =>
                if (c' =? "]")%char then Some (Ok (JArr [], r'))
                else parse_elements f [] r
            | EmptyString => parse_elements f [] r
            end
          else if (c =? dquote)%char then
            Some (match parse_string_body r with
                  | Ok (str, r') => Ok (JStr str, r')
                  | Throw e => Throw e
                  | Unmodelled => Unmodelled
                  end)
          else if (c =? "t")%char then Some (parse_literal "true" (JBool true) (String c r))
          else if (c =? "f")%char then Some (parse_literal "false" (JBool false) (String c r))
          else if (c =? "n")%char then Some (parse_literal "null" JNull (String c r))
          else if ((c =? "-")%char || is_digit c)%bool then Some (parse_number (String c r))
          else Some (Throw SyntaxError)
      end
  end
with parse_elements (fuel : nat) (acc : list JSValue) (s : string)
  : option (Outcome (JSValue * string)) :=
  match fuel with
  | O => None
  | S f =>
      match parse_value f s with
      | Some (Ok (v, r)) =>
          match skip_ws r with
          | String c r' =>
              if (c =? ",")%char then parse_elements f (v :: acc) r'
              else if (c =? "]")%char then Some (Ok (JArr (rev (v :: acc)), r'))
              else Some (Throw SyntaxError)
          | EmptyString => Some (Throw SyntaxError)
          end
      | other => other
      end
  end
with parse_members (fuel : nat) (acc : Props) (s : string)
  : option (Outcome (JSValue * string)) :=
  match fuel with
  | O => None
  | S f =>
      match skip_ws s with
      | String c r =>
          if (c =? dquote)%char then
            match parse_string_body r with
            | Ok (k, r1) =>
                match skip_ws r1 with
                | String c1 r2 =>
                    if (c1 =? ":")%char then
                      match parse_value f r2 with
                      | Some (Ok (v, r3)) =>
                          match skip_ws r3 with
                          | String c3 r4 =>
                              if (c3 =? ",")%char
                              then parse_members f (obj_set k v acc) r4
                              else if (c3 =? "}")%char
                              then Some (Ok (JObj (obj_set k v acc), r4))
                              else Some (Throw SyntaxError)
                          | EmptyString => Some (Throw SyntaxError)
                          end
                      | other => other
                      end
                    else Some (Throw SyntaxError)
                | EmptyString => Some (Throw SyntaxError)
                end
            | Throw e => Some (Throw e)
            | Unmodelled => Some Unmodelled
            end
          else Some (Throw SyntaxError)
      | EmptyString => Some (Throw SyntaxError)
      end
  end.

(** [JSON.parse(text)]: one value, then nothing but white space. *)
Definition JSON_parse (text : string) : Outcome JSValue :=
  match parse_value (2 * String.length text + 2) text with
  | Some (Ok (v, rest)) =>
      match skip_ws rest with
      | EmptyString => Ok v
      | String _ _ => Throw SyntaxError
      end
  | Some (Throw e) => Throw e
  | Some Unmodelled => Unmodelled
  | None => Unmodelled
  end.

(* ================================================================== *)
(** ** Conversions the library relies on *)
(* ================================================================== *)

(** An object with an own property named toString.  No value of the model is
    a function, so the conversion of such an object to a string or to a number
    finds nothing it can call (the own property hides the method of
    Object.prototype, and valueOf, own or inherited, gives no primitive) and
    throws a TypeError. *)
Definition own_toString (v : JSValue) : bool :=
  match v with
  | JObj o => obj_has "toString" o
  | _ => false
  end.

(** ToString, as far as the library can reach it.  An object without an own
    toString is given its text by Object.prototype.toString.  The text of an
    array is outside the model. *)
Definition js_toString (v : JSValue) : Outcome string :=
  match v with
  | JUndefined => Ok "undefined"
  | JNull => Ok "null"
  | JBool true => Ok "true"
  | JBool false => Ok "false"
  | JNum n => number_toString 10 n
  | JStr s => Ok s
  | JArr _ => Unmodelled
  | JObj _ => if own_toString v then Throw TypeError else Ok "[object Object]"
  end.

(** [parseInt(value, radix)]. *)
Definition parseInt (v : JSValue) (radix : N) : Outcome JSNumber :=
  text <- js_toString v ;;
  parseInt_string radix text.

(** [value + n] for a number [n].  An object is first made a primitive, its
    text, which throws as [js_toString] does; the text and the number are then
    joined. *)
Definition js_add (v : JSValue) (n : Z) : Outcome JSValue :=
  match v with
  | JUndefined => Ok (JNum NaN)
  | JNull => Ok (JNum (Fin n))
  | JBool b => Ok (JNum (Fin ((if b then 1 else 0) + n)))
  | JNum a => Ok (JNum (num_add a (Fin n)))
  | JStr s => text <- number_toString 10 (Fin n) ;; Ok (JStr (s ++ text)%string)
  | JArr _ => Unmodelled
  | JObj _ =>
      prim <- js_toString v ;;
      text <- number_toString 10 (Fin n) ;;
      Ok (JStr (prim ++ text)%string)
  end.

(** [value.name] for one of the names the library spells out (validAt,
    encodedSecret, secretKey, ...): none of them is inherited from a built-in
    prototype, so the read sees own properties only.  Reading a property of
    null or undefined throws. *)
Definition get_field (v : JSValue) (name : string) : Outcome JSValue :=
  match v with
  | JUndefined | JNull => Throw TypeError
  | JObj o => Ok (obj_get name o)
  | _ => Ok JUndefined
  end.

(* ================================================================== *)
(** ** lib/crypto-utils.js *)
(* ================================================================== *)

Definition URL_SAFE_ENCODING_KEYS : list (ascii * ascii) :=
  [ ("+", "-"); ("/", "_"); ("-", "+"); ("_", "/") ]%char.

(** What [toBase64] is given: raw bytes or text. *)
Inductive Data : Type :=
| DBuffer (b : Buffer)
| DText (s : string).

Inductive Encoding : Type :=
| Utf8.

Definition toBase64 (_data : Data) : string :=
  let data :=
    match _data with
    | DBuffer b => b
    | DText s => utf8_encode s
    end in
  base64_encode data.

Definition url_safe_key (m : ascii) : ascii :=
  match find (fun p => (fst p =? m)%char) URL_SAFE_ENCODING_KEYS with
  | Some p => snd p
  | None => m
  end.

(** [text.replace(/[...]/g, (m) => URL_SAFE_ENCODING_KEYS[m])] for a class of
    characters. *)
Fixpoint replace_class (class : ascii -> bool) (text : string) : string :=
  match text with
  | EmptyString => EmptyString
  | String c rest =>
      String (if class c then url_safe_key c else c) (replace_class class rest)
  end.

Definition convertBase64ToURLSafe (encodedData : string) : string :=
  replace_class (fun c => ((c =? "+") || (c =? "/"))%char) encodedData.

Definition convertBase64FromURLSafe (encodedData : string) : string :=
  replace_class (fun c => ((c =? "_") || (c =? "-"))%char) encodedData.

Definition toURLSafeBase64 (data : Data) : string :=
  convertBase64ToURLSafe (toBase64 data).

(** [fromURLSafeBase64(data, encoding)].  A value that is not a string has no
    [replace] method, and the call throws. *)
Definition fromURLSafeBase64 (data : JSValue) (encoding : option Encoding)
  : Outcome Data :=
  match data with
  | JStr s =>
      let buffer := base64_decode (convertBase64FromURLSafe s) in
      match encoding with
      | None => Ok (DBuffer buffer)
      | Some Utf8 => Ok (DText (utf8_decode buffer))
      end
  | _ => Throw TypeError
  end.

(** The two ways the library calls [fromURLSafeBase64]. *)
Definition fromURLSafeBase64_buffer (data : JSValue) : Outcome Buffer :=
  r <- fromURLSafeBase64 data None ;;
  match r with
  | DBuffer b => Ok b
  | DText _ => Unmodelled
  end.

Definition fromURLSafeBase64_text (data : JSValue) : Outcome string :=
  r <- fromURLSafeBase64 data (Some Utf8) ;;
  match r with
  | DText s => Ok s
  | DBuffer _ => Unmodelled
  end.

Definition getSaltProperties (salt : JSValue) : Outcome JSValue :=
  raw <- fromURLSafeBase64_text salt ;;
  props <- JSON_parse raw ;;
  Ok props.

(** [encrypt(value, salt)] for a text [value]. *)
Definition encrypt (value : string) (salt : JSValue) : Outcome string :=
  props <- getSaltProperties salt ;;
  secretKey <- get_field props "secretKey" ;;
  iv <- get_field props "iv" ;;
  key <- fromURLSafeBase64_buffer secretKey ;;
  ivb <- fromURLSafeBase64_buffer iv ;;
  cypher <- createCipheriv key ivb ;;
  let encrypted := cypher (utf8_encode value) in
  Ok (toURLSafeBase64 (DBuffer encrypted)).

Definition decrypt (value : JSValue) (salt : JSValue) : Outcome string :=
  props <- getSaltProperties salt ;;
  secretKey <- get_field props "secretKey" ;;
  iv <- get_field props "iv" ;;
  key <- fromURLSafeBase64_buffer secretKey ;;
  ivb <- fromURLSafeBase64_buffer iv ;;
  decipher <- createCipheriv key ivb ;;
  data <- fromURLSafeBase64_buffer value ;;
  let decrypted := decipher data in
  Ok (utf8_decode decrypted).

(* ================================================================== *)
(** ** lib/index.js *)
(* ================================================================== *)

Definition YEAR_IN_SECONDS : Z := 31557600.
Definition DEFAULT_EXPIRATION_SECONDS : Z := 2592000.

(** [throw createError(message, code)]. *)
Definition throwError {A : Type} (message : Message) (code : ErrorCode) : Outcome A :=
  Throw (createError message code).

Definition validateEncodedSecret (encodedSecret : JSValue) : Outcome unit :=
  if negb (truthy encodedSecret) then throwError MsgBadSecret ESECRET else
  encodedSecretResult <-
    try_catch (getSaltProperties encodedSecret)
              (fun _ => throwError MsgBadSecret ESECRET) ;;
  secretKeyText <- get_field encodedSecretResult "secretKey" ;;
  ivText <- get_field encodedSecretResult "iv" ;;
  if (negb (truthy secretKeyText) || negb (truthy ivText))%bool
  then throwError MsgBadSecret ESECRET else
  secretKey <- fromURLSafeBase64_buffer secretKeyText ;;
  if negb (List.length secretKey =? 32)%nat
  then throwError MsgSecretKeyLength ESECRET else
  iv <- fromURLSafeBase64_buffer ivText ;;
  if negb (List.length iv =? 16)%nat
  then throwError MsgIvLength ESECRET else
  Ok tt.

Definition validateOptions (now : Z) (options : Props) : Outcome unit :=
  match obj_get "validAt" options with
  | JNum validAt =>
      if num_lt validAt (Fin now) then throwError MsgValidAtBeforeNow EVALIDAT else
      if num_gt validAt (Fin (now + YEAR_IN_SECONDS))
      then throwError MsgValidAtTooFar EVALIDAT else
      match obj_get "expiresAt" options with
      | JNum expiresAt =>
          if num_lt expiresAt (Fin now)
          then throwError MsgExpiresAtBeforeNow EEXPIRESAT else
          if num_lt expiresAt validAt
          then throwError MsgExpiresAtBeforeValidAt EEXPIRESAT else
          if num_gt (num_sub expiresAt validAt) (Fin YEAR_IN_SECONDS)
          then throwError MsgExpiresAtTooFar EEXPIRESAT else
          validateEncodedSecret (obj_get "encodedSecret" options)
      | _ => throwError MsgExpiresAtNumber EEXPIRESAT
      end
  | _ => throwError MsgValidAtNumber EVALIDAT
  end.

(** [value || {}]. *)
Definition or_empty (v : JSValue) : JSValue :=
  if truthy v then v else JObj [].

(** The first lines of [generateTWT]: the copy of the options with the two
    defaults filled in. *)
Definition defaultOptions (now : Z) (_options : JSValue) : Outcome Props :=
  options <- Object_assign [] (or_empty _options) ;;
  let options :=
    if negb (truthy (obj_get "validAt" options))
    then obj_set "validAt" (JNum (Fin now)) options
    else options in
  if negb (truthy (obj_get "expiresAt" options))
  then
    expiresAt <- js_add (obj_get "validAt" options) DEFAULT_EXPIRATION_SECONDS ;;
    Ok (obj_set "expiresAt" expiresAt options)
  else Ok options.

(** [x.toString(36)] on a property of the options. *)
Definition toString36 (v : JSValue) : Outcome JSValue :=
  match v with
  | JNum n => text <- number_toString 36 n ;; Ok (JStr text)
  | JUndefined | JNull => Throw TypeError
  | _ => Unmodelled
  end.

(** [generateTWT(props, _options)] when the clock reads [now]. *)
Definition generateTWT (now : Z) (props _options : JSValue) : Outcome string :=
  options <- defaultOptions now _options ;;
  validateOptions now options ;;;
  validAt36 <- toString36 (obj_get "validAt" options) ;;
  expiresAt36 <- toString36 (obj_get "expiresAt" options) ;;
  claims <- Object_assign [] (or_empty props) ;;
  claims <- Object_assign claims (JObj [("$", validAt36); ("$$", expiresAt36)]) ;;
  serialized <-
    try_catch (JSON_stringify (JObj claims))
              (fun _ => throwError MsgSerializing ESERIALIZE) ;;
  try_catch (encrypt serialized (obj_get "encodedSecret" options))
            (fun _ => throwError MsgEncryption EENCRYPTION).

(** The [try] block of [verifyTWT] that reads the decrypted text. *)
Definition parseClaims (decrypted : string) : Outcome Props :=
  parsed <- JSON_parse decrypted ;;
  validAtText <- get_field parsed "$" ;;
  validAt <- parseInt validAtText 36 ;;
  match parsed with
  | JObj _ | JArr _ =>
      claims <- own_props parsed ;;
      let claims := obj_set "$" (JNum validAt) claims in
      expiresAt <- parseInt (obj_get "$$" claims) 36 ;;
      Ok (obj_set "$$" (JNum expiresAt) claims)
  | _ =>
      (* strict mode: a property cannot be created on a primitive *)
      Throw TypeError
  end.

(** [(keyMap && keyMap[key]) || key]. *)
Definition mappedValue (keyMap : JSValue) (key : string) : Outcome JSValue :=
  if truthy keyMap then
    match keyMap with
    | JObj m =>
        v <- obj_lookup key m ;;
        Ok (if truthy v then v else JStr key)
    | _ => Unmodelled
    end
  else Ok (JStr key).

(** The name under which a claim is stored: the mapped value, replaced by one
    of the two fixed names for the two time fields, and made a property key,
    so a string, by the assignment [mappedClaims[mappedKey] = claims[key]]. *)
Definition mappedKey (keyMap : JSValue) (key : string) : Outcome string :=
  mapped <- mappedValue keyMap key ;;
  js_toString
    (if (key =? "$")%string then JStr "validAt"
     else if (key =? "$$")%string then JStr "expiresAt"
     else mapped).

(** The loop over [Object.keys(claims)]. *)
Fixpoint mapClaims (keyMap : JSValue) (claims : Props) (keys : list string)
  (mappedClaims : Props) : Outcome Props :=
  match keys with
  | [] => Ok mappedClaims
  | key :: rest =>
      k <- mappedKey keyMap key ;;
      m <- obj_assign_key k (obj_get key claims) mappedClaims ;;
      mapClaims keyMap claims rest m
  end.

(** The options [verifyTWT] works with. *)
Definition verifyOptions (_options : JSValue) : JSValue :=
  if is_string _options then JObj [("encodedSecret", _options)]
  else or_empty _options.

Definition clockDrift (options : JSValue) : Outcome JSNumber :=
  v <- get_field options "allowableClockDriftSeconds" ;;
  match v with
  | JNum n => if isFinite n then Ok n else Ok (Fin 120)
  | _ => Ok (Fin 120)
  end.

(** The checks of [verifyTWT] on the two times, and the [expiresIn] field. *)
Definition checkTimes (now : Z) (drift : JSNumber) (claims : Props) : Outcome Props :=
  match obj_get "$" claims, obj_get "$$" claims with
  | JNum validAt, JNum expiresAt =>
      if (negb (isFinite validAt) || num_le validAt (Fin 0))%bool
      then throwError MsgInvalidToken ETIME else
      if (negb (isFinite expiresAt) || num_le expiresAt (Fin 0))%bool
      then throwError MsgInvalidToken ETIME else
      if num_gt validAt expiresAt
      then throwError MsgValidAtAfterExpiresAt ETIME else
      let validTime := num_sub (Fin now) validAt in
      if (num_lt validTime (Fin 0) && num_gt (num_abs validTime) drift)%bool
      then throwError MsgNotYetValid ETIME else
      let expireTime := num_sub expiresAt (Fin now) in
      if (num_lt expireTime (Fin 0) && num_gt (num_abs expireTime) drift)%bool
      then throwError MsgExpired ETIME else
      Ok (obj_set "expiresIn" (JNum (num_sub expiresAt validAt)) claims)
  | _, _ => throwError MsgInvalidToken ETIME
  end.

(** [verifyTWT(token, _options)] when the clock reads [now]. *)
Definition verifyTWT (now : Z) (token _options : JSValue) : Outcome JSValue :=
  let options := verifyOptions _options in
  keyMap <- get_field options "keyMap" ;;
  allowableClockDriftSeconds <- clockDrift options ;;
  encodedSecret <- get_field options "encodedSecret" ;;
  validateEncodedSecret encodedSecret ;;;
  decrypted <-
    try_catch (decrypt token encodedSecret)
              (fun _ => throwError MsgDecryption EENCRYPTION) ;;
  claims <-
    try_catch (parseClaims decrypted)
              (fun _ => throwError MsgParsing EPARSE) ;;
  claims <- checkTimes now allowableClockDriftSeconds claims ;;
  mappedClaims <- mapClaims keyMap claims (Object_keys claims) [] ;;
  Ok (JObj mappedClaims).

(* ================================================================== *)
(** ** generateTWT over a store of objects *)
(* ================================================================== *)

(** [generateTWT] receives its two arguments by reference and works on
    objects it creates itself.  This second reading of the function keeps the
    objects in a store, so that what the function writes, and where, is
    explicit. *)

Abbreviation Ref := nat (only parsing).

(** Object number [r] has the properties [nth r store]. *)
Abbreviation Store := (list Props) (only parsing).

(** An argument of a call: an object of the store, or a value that is not an
    object of the store (undefined, null, a number, ...). *)
Inductive Arg : Type :=
| ByRef (r : Ref)
| Prim (v : JSValue).

Definition StoreM (A : Type) : Type := Store -> Outcome A * Store.

Definition sret {A : Type} (a : A) : StoreM A := fun st => (Ok a, st).

Definition sbind {A B : Type} (m : StoreM A) (k : A -> StoreM B) : StoreM B :=
  fun st =>
    match m st with
    | (Ok a, st') => k a st'
    | (Throw e, st') => (Throw e, st')
    | (Unmodelled, st') => (Unmodelled, st')
    end.

(** A computation that does not touch the store. *)
Definition lift {A : Type} (m : Outcome A) : StoreM A := fun st => (m, st).

(** [try { m } catch (error) { throw h error }]. *)
Definition stry {A : Type} (m : StoreM A) (h : Exn -> Outcome A) : StoreM A :=
  fun st =>
    match m st with
    | (Throw e, st') => (h e, st')
    | other => other
    end.

Declare Scope store_scope.
Delimit Scope store_scope with store.
Notation "x <- m ;; k" := (sbind m (fun x => k))
  (at level 61, m at next level, right associativity) : store_scope.
Notation "m ;;; k" := (sbind m (fun _ => k))
  (at level 61, right associativity) : store_scope.

Fixpoint store_update (r : Ref) (o : Props) (st : Store) : Store :=
  match st, r with
  | [], _ => []
  | _ :: st', O => o :: st'
  | x :: st', S r' => x :: store_update r' o st'
  end.

(** An object literal: a new object with the given properties. *)
Definition new_object (o : Props) : StoreM Ref :=
  fun st => (Ok (List.length st), st ++ [o]).

Definition read_object (r : Ref) : StoreM Props :=
  fun st =>
    (match nth_error st r with
     | Some o => Ok o
     | None => Unmodelled
     end, st).

Definition write_object (r : Ref) (o : Props) : StoreM unit :=
  fun st => (Ok tt, store_update r o st).

(** The value an argument stands for. *)
Definition arg_value (st : Store) (a : Arg) : JSValue :=
  match a with
  | ByRef r =>
      match nth_error st r with
      | Some o => JObj o
      | None => JUndefined
      end
  | Prim v => v
  end.

Definition read_arg (a : Arg) : StoreM JSValue :=
  fun st => (Ok (arg_value st a), st).

(** [a || {}]. *)
Definition or_empty_store (a : Arg) : StoreM Arg :=
  (v <- read_arg a ;;
   if truthy v then sret a
   else r <- new_object [] ;; sret (ByRef r))%store.

(** [target[k] = v]. *)
Definition set_property (target : Ref) (k : string) (v : JSValue) : StoreM unit :=
  (o <- read_object target ;;
   o' <- lift (obj_assign_key k v o) ;;
   write_object target o')%store.

Fixpoint assign_store (target : Ref) (source : Props) : StoreM unit :=
  match source with
  | [] => sret tt
  | (k, v) :: rest =>
      (set_property target k v ;;; assign_store target rest)%store
  end.

(** [Object.assign(target, source)]. *)
Definition Object_assign_store (target : Ref) (source : Arg) : StoreM unit :=
  (v <- read_arg source ;;
   src <- lift (own_props v) ;;
   assign_store target src)%store.

(** The first lines of [generateTWT]: a new object receives the options and
    the two defaults. *)
Definition defaultOptions_store (now : Z) (_options : Arg) : StoreM Ref :=
  (options <- new_object [] ;;
   source <- or_empty_store _options ;;
   Object_assign_store options source ;;;
   o <- read_object options ;;
   (if negb (truthy (obj_get "validAt" o))
    then write_object options (obj_set "validAt" (JNum (Fin now)) o)
    else sret tt) ;;;
   o <- read_object options ;;
   (if negb (truthy (obj_get "expiresAt" o))
    then
      expiresAt <- lift (js_add (obj_get "validAt" o) DEFAULT_EXPIRATION_SECONDS) ;;
      write_object options (obj_set "expiresAt" expiresAt o)
    else sret tt) ;;;
   sret options)%store.

(** [Object.assign({}, props || {}, { $: ..., $$: ... })]. *)
Definition buildClaims_store (props : Arg) (o : Props) : StoreM Ref :=
  (claims <- new_object [] ;;
   source <- or_empty_store props ;;
   validAt36 <- lift (toString36 (obj_get "validAt" o)) ;;
   expiresAt36 <- lift (toString36 (obj_get "expiresAt" o)) ;;
   times <- new_object [("$", validAt36); ("$$", expiresAt36)] ;;
   Object_assign_store claims source ;;;
   Object_assign_store claims (ByRef times) ;;;
   sret claims)%store.

Definition generateTWT_store (now : Z) (props _options : Arg) : StoreM string :=
  (options <- defaultOptions_store now _options ;;
   o <- read_object options ;;
   lift (validateOptions now o) ;;;
   claims <- buildClaims_store props o ;;
   c <- read_object claims ;;
   serialized <-
     lift (try_catch (JSON_stringify (JObj c))
                     (fun _ => throwError MsgSerializing ESERIALIZE)) ;;
   lift (try_catch (encrypt serialized (obj_get "encodedSecret" o))
                   (fun _ => throwError MsgEncryption EENCRYPTION)))%store.

(** An argument that refers to an object refers to one of the store. *)
Definition valid_arg (st : Store) (a : Arg) : Prop :=
  match a with
  | ByRef r => (r < List.length st)%nat
  | Prim _ => True
  end.

(* ================================================================== *)
(** ** Notions used by the statements *)
(* ================================================================== *)

(** Well-formed UTF-8: the byte sequences of Unicode scalar values. *)
Fixpoint utf8_valid (l : Buffer) : bool :=
  match l with
  | [] => true
  | b :: rest =>
      match utf8_lead b with
      | Some (O, _, _) => utf8_valid rest
      | Some (S O, lo, hi) =>
          match rest with
          | c1 :: r => in_range lo hi c1 && utf8_valid r
          | _ => false
          end
      | Some (S (S O), lo, hi) =>
          match rest with
          | c1 :: c2 :: r => in_range lo hi c1 && in_range 128 191 c2 && utf8_valid r
          | _ => false
          end
      | Some (S (S (S O)), lo, hi) =>
          match rest with
          | c1 :: c2 :: c3 :: r =>
              in_range lo hi c1 && in_range 128 191 c2 && in_range 128 191 c3
                && utf8_valid r
          | _ => false
          end
      | _ => false
      end
  end.

(** A string of the model that stands for a JavaScript string. *)
Definition well_formed (s : string) : bool := utf8_valid (utf8_encode s).

(** Writing the properties one by one into an empty object. *)
Definition build_props (l : Props) : Props :=
  fold_left (fun acc p => obj_set (fst p) (snd p) acc) l [].

(** The properties are listed as the object enumerates them: no key twice,
    array indices first and in ascending order. *)
Definition enumeration_order (o : Props) : Prop := build_props o = o.

(** Data that JSON.stringify and JSON.parse carry unchanged: no undefined,
    numbers a double holds exactly, well-formed strings, objects in
    enumeration order. *)
Fixpoint serializable (v : JSValue) : Prop :=
  match v with
  | JUndefined => False
  | JNull | JBool _ => True
  | JNum (Fin z) => safe_integer z = true
  | JNum _ => False
  | JStr s => well_formed s = true
  | JArr l =>
      (fix all (l : list JSValue) : Prop :=
         match l with
         | [] => True
         | x :: rest => serializable x /\ all rest
         end) l
  | JObj o =>
      enumeration_order o /\
      (fix all (o : list (string * JSValue)) : Prop :=
         match o with
         | [] => True
         | (k, x) :: rest => (well_formed k = true /\ serializable x) /\ all rest
         end) o
  end.

(** The characters of a string. *)
Definition chars (s : string) : list ascii := list_ascii_of_string s.

(** What holds of each of the 64 characters of the alphabet. *)
Definition base64_char_ok (i : N) : bool :=
  let c := base64_char i in
  (negb (c =? "=")%char
   && match unbase64 c with Some v => (v =? i)%N | None => false end
   && negb (c =? "-")%char && negb (c =? "_")%char)%bool.

(** The secret bundle, options and claims of the test suite (test/twt-spec.js). *)
Definition test_encodedSecret : string :=
  "eyJzZWNyZXRLZXkiOiJmbWxGbXl0SzY5bFJmYl9rLTFsMm9oVG1HSjIyX25KMFdDUWR0YmVUQkRRPSIsIml2IjoieUZ0RHplemhTdFRTbFRwYThGSURTUT09In0=".

Definition test_options : JSValue := JObj [("encodedSecret", JStr test_encodedSecret)].

Definition test_claims : JSValue := JObj [("u", JStr "test")].

(** The token [generateTWT] gives for them when the clock reads 1700000000. *)
Definition test_token : string :=
  "6tRP5tBoKNUYSRU6qlAyfqjiE50bH8LcyR6xOx7reUj_iESp9rW_".

(** What holds of each digit character. *)
Definition digit_char_ok (radix d : N) : bool :=
  let c := digit_char d in
  (match digit_value radix c with Some v => (v =? d)%N | None => false end
   && negb (is_ascii_space c) && (N_of_ascii c <? 128)%N
   && negb (c =? "-")%char && negb (c =? "+")%char
   && ((48 <=? N_of_ascii c) && (N_of_ascii c <=? 57) || (10 <=? d))%N)%bool.

(** Text of ASCII characters only. *)
Definition ascii_only (s : string) : bool :=
  forallb (fun c => (N_of_ascii c <? 128)%N) (chars s).

(** What holds of the lead byte of each UTF-8 sequence. *)
Definition utf8_lead_ok (b : byte) : bool :=
  match utf8_lead b with
  | Some (O, _, _) => (Byte.to_N b <? 128)%N
  | Some (S _, lo, _) => ((128 <=? Byte.to_N b) && (128 <=? lo))%N
  | None => true
  end.

(** What holds of the escape of each character. *)
Definition escape_char_ok (c : ascii) : bool :=
  if (N_of_ascii c <? 128)%N then ascii_only (escape_char c)
  else (escape_char c =? String c "")%string.

(** A number that is neither NaN nor infinite. *)
Definition finite_number (v : JSValue) : Prop := exists z, v = JNum (Fin z).

(** The number of nodes of a tree, which bounds the fuel its text needs. *)
Fixpoint size (v : JSValue) : nat :=
  match v with
  | JArr l => S (fold_right (fun x n => S (size x + n)) O l)
  | JObj o => S (fold_right (fun p n => S (size (snd p) + n)) O o)
  | _ => 1%nat
  end.

(** What may follow a value inside a JSON text: the end, a comma, or a closing
    bracket or brace. *)
Definition delimiter (c : ascii) : bool :=
  ((c =? ",") || (c =? "]") || (c =? "}"))%char.

Definition delimited (rest : string) : Prop :=
  match rest with
  | EmptyString => True
  | String c _ => delimiter c = true
  end.

(** What holds of each character, as the parser tests it. *)
Definition char_class_ok (c : ascii) : bool :=
  (implb (is_digit c || (c =? "-")%char)
     (negb (is_json_space c) && negb (c =? "{")%char && negb (c =? "[")%char
      && negb (c =? dquote)%char && negb (c =? "t")%char && negb (c =? "f")%char
      && negb (c =? "n")%char && negb (delimiter c))
   && implb (delimiter c)
        (negb (is_json_space c) && negb (is_digit c) && negb (c =? ".")%char
         && negb (c =? "e")%char && negb (c =? "E")%char))%bool.

(** What the induction assumes of a value: its text, followed by a delimited
    rest, is read back with fuel for its nodes. *)
Definition reads_back (v : JSValue) : Prop :=
  serializable v ->
  forall fuel rest, (size v <= fuel)%nat -> delimited rest ->
  parse_value fuel (stringify v ++ rest) = Some (Ok (v, rest)).

Definition size_elems (l : list JSValue) : nat :=
  fold_right (fun x n => S (size x + n)) O l.

Definition size_members (o : Props) : nat :=
  fold_right (fun p n => S (size (snd p) + n)) O o.

(** The names a claims object must not use for the round trip: the two the
    token reserves, the three [verifyTWT] adds, and the one that
    [Object.assign] does not copy as a property. *)
Definition reserved_keys : list string :=
  ["$"; "$$"; "validAt"; "expiresAt"; "expiresIn"; "__proto__"].

Definition set_pair (a : Props) (p : string * JSValue) : Props :=
  obj_set (fst p) (snd p) a.

(** Options with a key map that renames the claim u. *)
Definition renaming_options : JSValue :=
  JObj [("encodedSecret", JStr test_encodedSecret);
        ("keyMap", JObj [("u", JStr "userID")])].

(** Options whose validAt lies 1000 seconds after the clock reading
    1700000000. *)
Definition future_options : JSValue :=
  JObj [("encodedSecret", JStr test_encodedSecret); ("validAt", JNum (Fin 1700001000))].

(** A value whose conversion to a string is sure to return: any but an object
    with an own toString, and but an array, whose text is made of the texts of
    its elements and is outside the model. *)
Definition has_text (v : JSValue) : bool :=
  match v with
  | JArr _ => false
  | _ => negb (own_toString v)
  end.

(** Every entry of the key map has a text: the key mapping of [verifyTWT],
    which makes property names of the entries, has nothing to throw on. *)
Definition plain_entries (keyMap : JSValue) : bool :=
  match keyMap with
  | JObj m => forallb (fun p => has_text (snd p)) m
  | JArr l => forallb has_text l
  | _ => true
  end.

(** A decrypted text that the try block of [verifyTWT] does not read as claims:
    JSON.parse throws; or the text is that of null, a boolean, a number or a
    string, on which the two time fields cannot be written; or parseInt throws
    on one of the two time fields of the object. *)
Definition unreadable (text : string) : Prop :=
  match JSON_parse text with
  | Throw _ => True
  | Ok (JObj o) =>
      (exists e, parseInt (obj_get "$" o) 36 = Throw e)
      \/ ((exists n, parseInt (obj_get "$" o) 36 = Ok n)
          /\ exists e, parseInt (obj_get "$$" o) 36 = Throw e)
  | Ok (JArr _) => False
  | Ok _ => True
  | Unmodelled => False
  end.

(** A key map with an entry that has no text, a token whose first time field
    is such an object, and the text that token decrypts to. *)
Definition textless_options : JSValue :=
  JObj [("encodedSecret", JStr test_encodedSecret);
        ("keyMap", JObj [("u", JObj [("toString", JNum (Fin 0))])])].


(** Options with the test secret and a validAt that has no text. *)
Definition textless_validAt : JSValue :=
  JObj [("encodedSecret", JStr test_encodedSecret);
        ("validAt", JObj [("toString", JNum (Fin 0))])].

(** What a parser leaves is shorter than what it was given. *)
Definition consumes (s : string) (o : option (Outcome (JSValue * string))) : Prop :=
  forall v r, o = Some (Ok (v, r)) -> (String.length r < String.length s)%nat.

(** [b] is [a] with exactly one character replaced by another. *)
Fixpoint one_char_mutation (a b : string) : bool :=
  match a, b with
  | String x a', String y b' =>
      if (x =? y)%char then one_char_mutation a' b' else (a' =? b')%string
  | _, _ => false
  end.

(** Unfolds one [bind] whose first computation is known. *)
Ltac step_bind H := rewrite H; cbn [bind try_catch].

(* ================================================================== *)
(** ** The rest of lib/crypto-utils.js *)
(* ================================================================== *)

(** The key and the IV a secret bundle holds, as [encrypt] and [decrypt] read
    them. *)
Definition salt_key (salt : JSValue) (key iv : Buffer) : Prop :=
  exists props secretKey ivText,
    getSaltProperties salt = Ok props
    /\ get_field props "secretKey" = Ok secretKey
    /\ get_field props "iv" = Ok ivText
    /\ fromURLSafeBase64_buffer secretKey = Ok key
    /\ fromURLSafeBase64_buffer ivText = Ok iv
    /\ List.length key = 32%nat /\ List.length iv = 16%nat.

(** The bytes a token stands for. *)
Definition token_bytes (token : string) : Buffer :=
  base64_decode (convertBase64FromURLSafe token).

(** The characters of a URL-safe base64 text: letters, digits, - and _, and
    the = sign of the padding. *)
Definition url_safe_char (c : ascii) : bool :=
  let n := N_of_ascii c in
  ((65 <=? n) && (n <=? 90) || (97 <=? n) && (n <=? 122)
   || (48 <=? n) && (n <=? 57) || (n =? 45) || (n =? 95) || (n =? 61))%N.

(** The random source of the run time: the bytes it delivers, by position. *)
Abbreviation Entropy := (nat -> byte) (only parsing).

(** [randomBytes(length)]: a buffer of [length] bytes filled by
    [Crypto.randomFillSync], which here reads the source from position [pos];
    the position after the call is returned with the buffer. *)
Definition randomBytes (length : nat) (source : Entropy) (pos : nat) : Buffer * nat :=
  (map source (seq pos length), (pos + length)%nat).

(** [generateSalt()]: a key of 32 and an IV of 16 random bytes, each as URL-safe
    base64 text, in a JSON object that is itself written as URL-safe base64. *)
Definition generateSalt (source : Entropy) (pos : nat) : Outcome string * nat :=
  let '(key, pos1) := randomBytes 32 source pos in
  let '(iv, pos2) := randomBytes 16 source pos1 in
  let props :=
    JObj [("secretKey", JStr (toURLSafeBase64 (DBuffer key)));
          ("iv", JStr (toURLSafeBase64 (DBuffer iv)))] in
  (serialized <- JSON_stringify props ;; Ok (toURLSafeBase64 (DText serialized)), pos2).

(** Closes a goal about an error that [H] shows to be a TWTError. *)
Ltac esecret H :=
  left; unfold throwError, createError in H; inversion H; eexists; reflexivity.
Ltac twt_error H :=
  inversion H; right; do 2 eexists; split; [reflexivity|tauto].

(* ================================================================== *)
(** * Properties *)
(* ================================================================== *)

(** ** Outcomes *)

Lemma bind_Ok {A B : Type} (m : Outcome A) (k : A -> Outcome B) (b : B) :
  bind m k = Ok b -> exists a, m = Ok a /\ k a = Ok b.
Proof. destruct m; simpl; intros H; try discriminate. eauto. Qed.

Lemma bind_Throw {A B : Type} (m : Outcome A) (k : A -> Outcome B) (e : Exn) :
  bind m k = Throw e -> m = Throw e \/ exists a, m = Ok a /\ k a = Throw e.
Proof. destruct m; simpl; intros H; try discriminate; eauto. left. congruence. Qed.

(** ** Objects *)

Lemma obj_find_app (k : string) (o1 o2 : Props) :
  obj_find k (o1 ++ o2) =
  match obj_find k o1 with Some v => Some v | None => obj_find k o2 end.
Proof.
  induction o1 as [|[k1 v1] o1 IH]; simpl; [reflexivity|].
  destruct (k1 =? k)%string; [reflexivity | apply IH].
Qed.

Lemma obj_find_replace (k k' : string) (v : JSValue) (o : Props) :
  obj_find k (obj_replace k' v o) =
  match obj_find k' o with
  | Some _ => if (k' =? k)%string then Some v else obj_find k o
  | None => obj_find k o
  end.
Proof.
  induction o as [|[k1 v1] o IH]; simpl; [reflexivity|].
  destruct (k1 =? k')%string eqn:E1; simpl.
  - apply String.eqb_eq in E1; subst k1.
    destruct (k' =? k)%string; reflexivity.
  - rewrite IH. destruct (k1 =? k)%string eqn:E2.
    + apply String.eqb_eq in E2; subst k1.
      rewrite String.eqb_sym in E1. rewrite E1.
      destruct (obj_find k' o); reflexivity.
    + reflexivity.
Qed.

Lemma obj_find_insert_index (k k' : string) (i : N) (v : JSValue) (o : Props) :
  obj_find k' o = None ->
  obj_find k (obj_insert_index i k' v o) =
  if (k' =? k)%string then Some v else obj_find k o.
Proof.
  induction o as [|[k1 v1] o IH]; simpl; intros Hnone.
  - reflexivity.
  - destruct (k1 =? k')%string eqn:E1; [discriminate|].
    assert (Hhead : obj_find k ((k', v) :: (k1, v1) :: o) =
                    if (k' =? k)%string then Some v
                    else if (k1 =? k)%string then Some v1 else obj_find k o)
      by reflexivity.
    destruct (array_index k1) as [j|]; [destruct (j <? i)%N|]; try exact Hhead.
    simpl. rewrite (IH Hnone).
    destruct (k1 =? k)%string eqn:E2; [|reflexivity].
    apply String.eqb_eq in E2; subst k1.
    rewrite String.eqb_sym in E1. rewrite E1. reflexivity.
Qed.

Lemma obj_find_set (k k' : string) (v : JSValue) (o : Props) :
  obj_find k (obj_set k' v o) = if (k' =? k)%string then Some v else obj_find k o.
Proof.
  unfold obj_set, obj_has.
  destruct (obj_find k' o) eqn:Hf.
  - rewrite obj_find_replace, Hf. reflexivity.
  - destruct (array_index k') as [i|].
    + apply obj_find_insert_index; assumption.
    + rewrite obj_find_app. simpl.
      destruct (k' =? k)%string eqn:E.
      * apply String.eqb_eq in E; subst k'. rewrite Hf. reflexivity.
      * destruct (obj_find k o); reflexivity.
Qed.

Lemma obj_get_set_same (k : string) (v : JSValue) (o : Props) :
  obj_get k (obj_set k v o) = v.
Proof. unfold obj_get. rewrite obj_find_set, String.eqb_refl. reflexivity. Qed.

Lemma obj_get_set_other (k k' : string) (v : JSValue) (o : Props) :
  k' <> k -> obj_get k (obj_set k' v o) = obj_get k o.
Proof.
  intros Hne. unfold obj_get. rewrite obj_find_set.
  apply String.eqb_neq in Hne. rewrite Hne. reflexivity.
Qed.

(** ** Bytes and base64 *)

Lemma byte_of_to_N (b : byte) : byte_of_N (Byte.to_N b) = b.
Proof.
  unfold byte_of_N.
  pose proof (Byte.to_N_bounded b) as Hb.
  rewrite N.mod_small by lia.
  rewrite Byte.of_to_N. reflexivity.
Qed.

Lemma to_N_byte_of_N (n : N) : (n < 256)%N -> Byte.to_N (byte_of_N n) = n.
Proof.
  intros Hn. unfold byte_of_N. rewrite N.mod_small by exact Hn.
  destruct (Byte.of_N n) as [b|] eqn:E.
  - apply Byte.to_of_N in E. exact E.
  - apply Byte.of_N_None_iff in E. lia.
Qed.

(** Three bytes against four sextets. *)
Lemma sextets_of_triple (a b c : N) :
  (a < 256 -> b < 256 -> c < 256 ->
   let n := a * 65536 + b * 256 + c in
   let s1 := n / 262144 in
   let s2 := (n / 4096) mod 64 in
   let s3 := (n / 64) mod 64 in
   let s4 := n mod 64 in
   s1 * 4 + s2 / 16 = a /\ (s2 mod 16) * 16 + s3 / 4 = b /\ (s3 mod 4) * 64 + s4 = c
   /\ s1 < 64 /\ s2 < 64 /\ s3 < 64 /\ s4 < 64)%N.
Proof.
  intros Ha Hb Hc n s1 s2 s3 s4. subst s1 s2 s3 s4 n.
  zify. Z.to_euclidean_division_equations. lia.
Qed.

Lemma sextets_of_pair (a b : N) :
  (a < 256 -> b < 256 ->
   let n := a * 256 + b in
   let s1 := n / 1024 in
   let s2 := (n / 16) mod 64 in
   let s3 := (n mod 16) * 4 in
   s1 * 4 + s2 / 16 = a /\ (s2 mod 16) * 16 + s3 / 4 = b
   /\ s1 < 64 /\ s2 < 64 /\ s3 < 64)%N.
Proof.
  intros Ha Hb n s1 s2 s3. subst s1 s2 s3 n.
  zify. Z.to_euclidean_division_equations. lia.
Qed.

Lemma sextets_of_single (a : N) :
  (a < 256 ->
   let s1 := a / 4 in
   let s2 := (a mod 4) * 16 in
   s1 * 4 + s2 / 16 = a /\ s1 < 64 /\ s2 < 64)%N.
Proof.
  intros Ha s1 s2. subst s1 s2.
  zify. Z.to_euclidean_division_equations. lia.
Qed.

Lemma base64_char_spec (i : N) :
  (i < 64)%N -> base64_char_ok i = true.
Proof.
  intros Hi.
  assert (Hall : forallb base64_char_ok (map N.of_nat (seq 0 64)) = true)
    by (vm_compute; reflexivity).
  rewrite forallb_forall in Hall. apply Hall.
  apply in_map_iff. exists (N.to_nat i). split; [apply N2Nat.id|].
  apply in_seq. lia.
Qed.

Lemma base64_char_ascii (i : N) :
  (i < 64)%N -> (N_of_ascii (base64_char i) <? 128)%N = true.
Proof.
  intros Hi.
  assert (Hall : forallb (fun i => (N_of_ascii (base64_char i) <? 128)%N)
                   (map N.of_nat (seq 0 64)) = true)
    by (vm_compute; reflexivity).
  rewrite forallb_forall in Hall. apply Hall.
  apply in_map_iff. exists (N.to_nat i). split; [apply N2Nat.id|].
  apply in_seq. lia.
Qed.

Lemma base64_sextets_ascii (c : ascii) (rest : string) :
  (N_of_ascii c <? 128)%N = true ->
  base64_sextets (String c rest) = read_code c (base64_sextets rest).
Proof.
  intros H. cbn [base64_sextets]. cbv zeta. rewrite H. reflexivity.
Qed.

Lemma base64_sextets_pad (rest : string) :
  base64_sextets (String "=" rest) = [].
Proof.
  rewrite base64_sextets_ascii by reflexivity. reflexivity.
Qed.

Lemma base64_sextets_char (i : N) (rest : string) :
  (i < 64)%N ->
  base64_sextets (String (base64_char i) rest) = i :: base64_sextets rest.
Proof.
  intros Hi. pose proof (base64_char_spec i Hi) as H.
  unfold base64_char_ok in H.
  apply andb_true_iff in H as (H & _).
  apply andb_true_iff in H as (H & _).
  apply andb_true_iff in H as (H1 & H2).
  rewrite (base64_sextets_ascii _ _ (base64_char_ascii i Hi)).
  unfold read_code.
  apply negb_true_iff in H1. rewrite H1.
  destruct (unbase64 (base64_char i)) as [v|]; [|discriminate].
  apply N.eqb_eq in H2. subst v. reflexivity.
Qed.

Lemma list_ind3 {A : Type} (P : list A -> Prop) :
  P [] -> (forall a, P [a]) -> (forall a b, P [a; b]) ->
  (forall a b c rest, P rest -> P (a :: b :: c :: rest)) ->
  forall l, P l.
Proof.
  intros H0 H1 H2 H3.
  fix IH 1. intros [|a [|b [|c rest]]];
    [exact H0 | apply H1 | apply H2 | apply H3; apply IH].
Qed.

Lemma base64_decode_encode (l : Buffer) : base64_decode (base64_encode l) = l.
Proof.
  unfold base64_decode.
  induction l as [|a|a b|a b c rest IH] using list_ind3.
  - reflexivity.
  - cbn [base64_encode].
    pose proof (Byte.to_N_bounded a) as Ha.
    destruct (sextets_of_single (Byte.to_N a)) as (E & L1 & L2); [lia|].
    rewrite !base64_sextets_char by assumption.
    rewrite base64_sextets_pad. cbn [sextets_bytes].
    rewrite E, byte_of_to_N. reflexivity.
  - cbn [base64_encode].
    pose proof (Byte.to_N_bounded a) as Ha. pose proof (Byte.to_N_bounded b) as Hb.
    destruct (sextets_of_pair (Byte.to_N a) (Byte.to_N b))
      as (E1 & E2 & L1 & L2 & L3); [lia|lia|].
    rewrite !base64_sextets_char by assumption.
    rewrite base64_sextets_pad. cbn [sextets_bytes].
    rewrite E1, E2, !byte_of_to_N. reflexivity.
  - cbn [base64_encode].
    pose proof (Byte.to_N_bounded a) as Ha. pose proof (Byte.to_N_bounded b) as Hb.
    pose proof (Byte.to_N_bounded c) as Hc.
    destruct (sextets_of_triple (Byte.to_N a) (Byte.to_N b) (Byte.to_N c))
      as (E1 & E2 & E3 & L1 & L2 & L3 & L4); [lia|lia|lia|].
    rewrite !base64_sextets_char by assumption.
    cbn [sextets_bytes].
    rewrite E1, E2, E3, !byte_of_to_N, IH. reflexivity.
Qed.

Lemma base64_encode_chars (l : Buffer) (c : ascii) :
  In c (chars (base64_encode l)) -> c <> "-"%char /\ c <> "_"%char.
Proof.
  assert (Hchar : forall i, (i < 64)%N ->
                  base64_char i <> "-"%char /\ base64_char i <> "_"%char).
  { intros i Hi. pose proof (base64_char_spec i Hi) as H.
    unfold base64_char_ok in H.
    apply andb_true_iff in H as (H & H2).
    apply andb_true_iff in H as (_ & H1).
    apply negb_true_iff in H1, H2.
    split; apply Ascii.eqb_neq; assumption. }
  induction l as [|a|a b|a b x rest IH] using list_ind3; cbn [base64_encode chars list_ascii_of_string In].
  - tauto.
  - pose proof (Byte.to_N_bounded a) as Ha.
    destruct (sextets_of_single (Byte.to_N a)) as (_ & L1 & L2); [lia|].
    intros [H|[H|[H|[H|[]]]]]; subst c; auto; split; discriminate.
  - pose proof (Byte.to_N_bounded a) as Ha. pose proof (Byte.to_N_bounded b) as Hb.
    destruct (sextets_of_pair (Byte.to_N a) (Byte.to_N b))
      as (_ & _ & L1 & L2 & L3); [lia|lia|].
    intros [H|[H|[H|[H|[]]]]]; subst c; auto; split; discriminate.
  - pose proof (Byte.to_N_bounded a) as Ha. pose proof (Byte.to_N_bounded b) as Hb.
    pose proof (Byte.to_N_bounded x) as Hx.
    destruct (sextets_of_triple (Byte.to_N a) (Byte.to_N b) (Byte.to_N x))
      as (_ & _ & _ & L1 & L2 & L3 & L4); [lia|lia|lia|].
    intros [H|[H|[H|[H|H]]]]; try (subst c; auto). apply IH. exact H.
Qed.

Lemma convertBase64_roundtrip (s : string) :
  (forall c, In c (chars s) -> c <> "-"%char /\ c <> "_"%char) ->
  convertBase64FromURLSafe (convertBase64ToURLSafe s) = s.
Proof.
  unfold convertBase64FromURLSafe, convertBase64ToURLSafe.
  induction s as [|c s IH]; intros H; [reflexivity|].
  cbn [replace_class]. rewrite IH by (intros x Hx; apply H; right; exact Hx).
  f_equal.
  destruct (H c (or_introl eq_refl)) as (H1 & H2).
  apply Ascii.eqb_neq in H1, H2.
  destruct (c =? "+")%char eqn:E1; [apply Ascii.eqb_eq in E1; subst c; reflexivity|].
  destruct (c =? "/")%char eqn:E2; [apply Ascii.eqb_eq in E2; subst c; reflexivity|].
  cbn [orb]. rewrite H1, H2. reflexivity.
Qed.

Lemma convertBase64ToURLSafe_chars (s : string) (c : ascii) :
  In c (chars (convertBase64ToURLSafe s)) -> c <> "+"%char /\ c <> "/"%char.
Proof.
  unfold convertBase64ToURLSafe.
  induction s as [|x s IH]; cbn [replace_class chars list_ascii_of_string In]; [tauto|].
  intros [H|H]; [|exact (IH H)]. subst c.
  destruct (x =? "+")%char eqn:E1; [apply Ascii.eqb_eq in E1; subst x; split; discriminate|].
  destruct (x =? "/")%char eqn:E2; [apply Ascii.eqb_eq in E2; subst x; split; discriminate|].
  cbn [orb]. apply Ascii.eqb_neq in E1, E2. split; assumption.
Qed.

(** C8. Reading back what toURLSafeBase64 wrote for a buffer gives the buffer,
    and the text written holds neither + nor /: writing replaces + by - and / by
    _ and leaves every other character, - and _ included, as it is; reading
    replaces - by + and _ by / before it decodes. *)
Theorem fromURLSafeBase64_toURLSafeBase64 (b : Buffer) :
  fromURLSafeBase64 (JStr (toURLSafeBase64 (DBuffer b))) None = Ok (DBuffer b)
  /\ (forall c, In c (chars (toURLSafeBase64 (DBuffer b))) ->
                c <> "+"%char /\ c <> "/"%char)
  /\ (forall c,
        convertBase64ToURLSafe (String c "") =
        String (if (c =? "+")%char then "-"%char
                else if (c =? "/")%char then "_"%char else c) ""
        /\ convertBase64FromURLSafe (String c "") =
           String (if (c =? "-")%char then "+"%char
                   else if (c =? "_")%char then "/"%char else c) "").
Proof.
  split; [|split].
  - unfold fromURLSafeBase64, toURLSafeBase64, toBase64.
    rewrite convertBase64_roundtrip by apply base64_encode_chars.
    rewrite base64_decode_encode. reflexivity.
  - intros c. apply convertBase64ToURLSafe_chars.
  - intros c. unfold convertBase64ToURLSafe, convertBase64FromURLSafe.
    cbn [replace_class]. split.
    + destruct (c =? "+")%char eqn:E1;
        [apply Ascii.eqb_eq in E1; subst c; reflexivity|].
      destruct (c =? "/")%char eqn:E2;
        [apply Ascii.eqb_eq in E2; subst c; reflexivity|]. reflexivity.
    + destruct (c =? "-")%char eqn:E1;
        [apply Ascii.eqb_eq in E1; subst c; reflexivity|].
      destruct (c =? "_")%char eqn:E2;
        [apply Ascii.eqb_eq in E2; subst c; reflexivity|].
      rewrite orb_false_l. reflexivity.
Qed.

(** ** Option handling of generateTWT *)

Lemma truthy_not_NaN (v : JSValue) : truthy v = true -> v <> JNum NaN.
Proof. intros H E; subst v; discriminate. Qed.

Lemma defaultOptions_validAt (now : Z) (_options : JSValue) (options : Props) :
  defaultOptions now _options = Ok options ->
  obj_get "validAt" options = JNum (Fin now)
  \/ truthy (obj_get "validAt" options) = true.
Proof.
  unfold defaultOptions. intros H.
  apply bind_Ok in H as (o0 & _ & H).
  set (o1 := if negb (truthy (obj_get "validAt" o0))
             then obj_set "validAt" (JNum (Fin now)) o0 else o0) in H.
  assert (H1 : obj_get "validAt" o1 = JNum (Fin now)
               \/ truthy (obj_get "validAt" o1) = true).
  { subst o1. destruct (truthy (obj_get "validAt" o0)) eqn:T; simpl.
    - right; exact T.
    - left; apply obj_get_set_same. }
  destruct (negb (truthy (obj_get "expiresAt" o1))).
  - apply bind_Ok in H as (e & _ & H). inversion H; subst options.
    rewrite obj_get_set_other by discriminate. exact H1.
  - inversion H; subst options. exact H1.
Qed.

Lemma defaultOptions_expiresAt (now : Z) (_options : JSValue) (options : Props) (a : Z) :
  defaultOptions now _options = Ok options ->
  obj_get "validAt" options = JNum (Fin a) ->
  obj_get "expiresAt" options = JNum (Fin (a + DEFAULT_EXPIRATION_SECONDS))
  \/ truthy (obj_get "expiresAt" options) = true.
Proof.
  unfold defaultOptions. intros H Hv.
  apply bind_Ok in H as (o0 & _ & H).
  set (o1 := if negb (truthy (obj_get "validAt" o0))
             then obj_set "validAt" (JNum (Fin now)) o0 else o0) in H.
  destruct (truthy (obj_get "expiresAt" o1)) eqn:T; simpl in H.
  - inversion H; subst options. right; exact T.
  - apply bind_Ok in H as (e & He & H). inversion H; subst options.
    rewrite obj_get_set_other in Hv by discriminate.
    rewrite Hv in He. simpl in He. inversion He; subst e.
    left. apply obj_get_set_same.
Qed.

(** C3. generateTWT checks validAt first, then expiresAt, and both before the
    secret: with the options as they stand after the defaults are filled in, a
    validAt that is not a finite number, lies before now, or lies more than
    a year after now gives EVALIDAT, whatever expiresAt and encodedSecret are;
    with a validAt that passes, an expiresAt that is not a finite number, lies
    before now, lies before validAt, or lies more than a year after validAt
    gives EEXPIRESAT, whatever encodedSecret is. *)
Theorem generateTWT_checks_times_first
  (now : Z) (props _options : JSValue) (options : Props) :
  defaultOptions now _options = Ok options ->
  let validAt := obj_get "validAt" options in
  let expiresAt := obj_get "expiresAt" options in
  ((~ finite_number validAt
    \/ exists v, validAt = JNum (Fin v) /\ (v < now \/ v > now + 31557600)) ->
   error_code (generateTWT now props _options) = Some EVALIDAT)
  /\
  (forall v, validAt = JNum (Fin v) -> now <= v <= now + 31557600 ->
   (~ finite_number expiresAt
    \/ exists x, expiresAt = JNum (Fin x)
                 /\ (x < now \/ x < v \/ x > v + 31557600)) ->
   error_code (generateTWT now props _options) = Some EEXPIRESAT).
Proof.
  intros Hd validAt expiresAt.
  pose proof (defaultOptions_validAt _ _ _ Hd) as Hv.
  fold validAt in Hv.
  unfold generateTWT. rewrite Hd. cbn [bind].
  unfold validateOptions. fold validAt expiresAt.
  split.
  - intros Hbad.
    destruct validAt as [| |b|n|s|l|o]; try reflexivity.
    destruct n as [| | |z].
    + destruct Hv as [Hv|Hv]; discriminate.
    + reflexivity.
    + reflexivity.
    + destruct Hbad as [Hbad|(v & E & Hbad)].
      * exfalso. apply Hbad. exists z. reflexivity.
      * inversion E; subst v. cbn [num_lt num_gt].
        unfold YEAR_IN_SECONDS.
        destruct (z <? now) eqn:L1; [reflexivity|].
        destruct (now + 31557600 <? z) eqn:L2; [reflexivity|].
        apply Z.ltb_ge in L1, L2. lia.
  - intros v Ev Hrange Hbad.
    pose proof (defaultOptions_expiresAt _ _ _ _ Hd Ev) as He.
    fold expiresAt in He.
    rewrite Ev. cbn [num_lt num_gt]. unfold YEAR_IN_SECONDS.
    replace (v <? now) with false by (symmetry; apply Z.ltb_ge; lia).
    replace (now + 31557600 <? v) with false by (symmetry; apply Z.ltb_ge; lia).
    destruct expiresAt as [| |b|n|s|l|o]; try reflexivity.
    destruct n as [| | |x].
    + destruct He as [He|He]; discriminate.
    + reflexivity.
    + reflexivity.
    + destruct Hbad as [Hbad|(y & E & Hbad)].
      * exfalso. apply Hbad. exists x. reflexivity.
      * inversion E; subst y. cbn [num_lt num_gt num_sub num_add num_neg].
        destruct (x <? now) eqn:L1; [reflexivity|].
        destruct (x <? v) eqn:L2; [reflexivity|].
        destruct (31557600 <? x + - v) eqn:L3; [reflexivity|].
        apply Z.ltb_ge in L1, L2, L3. lia.
Qed.

(** The order of the checks at options whose validAt lies before the clock. *)
Lemma generateTWT_checks_times_first_witness :
  defaultOptions 1700000000
    (JObj [("encodedSecret", JStr test_encodedSecret); ("validAt", JNum (Fin 5))])
  = Ok [("encodedSecret", JStr test_encodedSecret); ("validAt", JNum (Fin 5));
        ("expiresAt", JNum (Fin 2592005))]
  /\ error_code
       (generateTWT 1700000000 test_claims
          (JObj [("encodedSecret", JStr test_encodedSecret); ("validAt", JNum (Fin 5))]))
     = Some EVALIDAT.
Proof.
  assert (H : defaultOptions 1700000000
                (JObj [("encodedSecret", JStr test_encodedSecret);
                       ("validAt", JNum (Fin 5))])
              = Ok [("encodedSecret", JStr test_encodedSecret);
                    ("validAt", JNum (Fin 5)); ("expiresAt", JNum (Fin 2592005))])
    by (vm_compute; reflexivity).
  split; [exact H|].
  apply (proj1 (generateTWT_checks_times_first 1700000000 test_claims _ _ H)).
  right. exists 5. split; [reflexivity|lia].
Defined.

(** ** Digits *)

Lemma digit_char_spec (radix d : N) :
  (radix = 10 \/ radix = 36)%N -> (d < radix)%N -> digit_char_ok radix d = true.
Proof.
  intros Hr Hd.
  assert (Hall : forallb (digit_char_ok 10) (map N.of_nat (seq 0 10)) = true
                 /\ forallb (digit_char_ok 36) (map N.of_nat (seq 0 36)) = true)
    by (split; vm_compute; reflexivity).
  destruct Hall as (H10 & H36). rewrite forallb_forall in H10, H36.
  destruct Hr; subst radix; [apply H10|apply H36];
    (apply in_map_iff; exists (N.to_nat d); split; [apply N2Nat.id|apply in_seq; lia]).
Qed.

Lemma digit_value_char (radix d : N) :
  (radix = 10 \/ radix = 36)%N -> (d < radix)%N ->
  digit_value radix (digit_char d) = Some d.
Proof.
  intros Hr Hd. pose proof (digit_char_spec radix d Hr Hd) as H.
  unfold digit_char_ok in H. repeat rewrite andb_true_iff in H.
  destruct H as (((((H & _) & _) & _) & _) & _).
  destruct (digit_value radix (digit_char d)) as [v|]; [|discriminate].
  apply N.eqb_eq in H. subst v. reflexivity.
Qed.

Lemma to_digits_S (fuel : nat) (radix n : N) (acc : string) :
  to_digits (S fuel) radix n acc =
  if (n / radix =? 0)%N then String (digit_char (n mod radix)) acc
  else to_digits fuel radix (n / radix) (String (digit_char (n mod radix)) acc).
Proof. reflexivity. Qed.

(** Reading the digits written for [n] gives [n]. *)
Lemma read_to_digits (radix : N) (fuel : nat) (n : N) (acc : string) :
  (radix = 10 \/ radix = 36)%N -> (n < 2 ^ N.of_nat (S fuel))%N ->
  read_digits radix (to_digits (S fuel) radix n acc) None
  = read_digits radix acc (Some n).
Proof.
  intros Hr. revert n acc.
  assert (Hr2 : (2 <= radix)%N) by (destruct Hr; subst; lia).
  induction fuel as [|fuel IH]; intros n acc Hn.
  - rewrite to_digits_S. change (2 ^ N.of_nat 1)%N with 2%N in Hn.
    assert (Hq : (n / radix = 0)%N) by (apply N.div_small; lia).
    rewrite Hq. cbn [N.eqb]. cbn [read_digits].
    rewrite N.mod_small by lia. rewrite digit_value_char by (try assumption; lia).
    reflexivity.
  - rewrite to_digits_S.
    assert (Hd : (n mod radix < radix)%N) by (apply N.mod_lt; lia).
    destruct (n / radix =? 0)%N eqn:Eq.
    + apply N.eqb_eq in Eq. cbn [read_digits].
      rewrite digit_value_char by assumption.
      rewrite (N.div_mod n radix) at 2 by lia. rewrite Eq, N.mul_0_r, N.add_0_l.
      reflexivity.
    + rewrite IH.
      * cbn [read_digits]. rewrite digit_value_char by assumption.
        f_equal. f_equal. rewrite (N.div_mod n radix) at 3 by lia. lia.
      * replace (N.of_nat (S (S fuel))) with (N.succ (N.of_nat (S fuel))) in Hn by lia.
        rewrite N.pow_succ_r' in Hn.
        apply (N.le_lt_trans _ (n / 2)).
        -- apply N.div_le_compat_l. lia.
        -- apply N.Div0.div_lt_upper_bound; lia.
Qed.

Lemma N_lt_pow2_log2 (n : N) : (n < 2 ^ N.of_nat (S (N.to_nat (N.log2 n))))%N.
Proof.
  replace (N.of_nat (S (N.to_nat (N.log2 n)))) with (N.succ (N.log2 n)) by lia.
  destruct n as [|p]; [cbn; lia|].
  apply N.log2_spec. lia.
Qed.

Lemma read_N_to_string (radix n : N) :
  (radix = 10 \/ radix = 36)%N ->
  read_digits radix (N_to_string radix n) None = Some n.
Proof.
  intros Hr. unfold N_to_string.
  rewrite read_to_digits by (try assumption; apply N_lt_pow2_log2).
  reflexivity.
Qed.

(** The text written for a number starts with a digit. *)
Lemma to_digits_head (radix : N) (fuel : nat) (n : N) (acc : string) :
  (radix = 10 \/ radix = 36)%N ->
  exists d rest, (d < radix)%N
                 /\ to_digits (S fuel) radix n acc = String (digit_char d) rest.
Proof.
  intros Hr. revert n acc.
  assert (Hr2 : (2 <= radix)%N) by (destruct Hr; subst; lia).
  induction fuel as [|fuel IH]; intros n acc.
  - rewrite to_digits_S. exists (n mod radix)%N.
    destruct (n / radix =? 0)%N; eexists; (split; [apply N.mod_lt; lia|reflexivity]).
  - rewrite to_digits_S.
    destruct (n / radix =? 0)%N.
    + exists (n mod radix)%N. eexists. split; [apply N.mod_lt; lia|reflexivity].
    + apply IH.
Qed.

Lemma parseInt_toString36 (z : Z) :
  0 <= z -> safe_integer z = true ->
  parseInt_string 36 (Z_to_string 36 z) = Ok (Fin z).
Proof.
  intros Hz Hsafe. unfold Z_to_string.
  replace (z <? 0) with false by (symmetry; apply Z.ltb_ge; lia).
  unfold parseInt_string.
  pose proof (read_N_to_string 36 (Z.abs_N z) (or_intror eq_refl)) as Hread.
  unfold N_to_string in *.
  destruct (to_digits_head 36 (N.to_nat (N.log2 (Z.abs_N z))) (Z.abs_N z) ""
              (or_intror eq_refl)) as (d & rest & Hd & Hs).
  rewrite Hs in *.
  pose proof (digit_char_spec 36 d (or_intror eq_refl) Hd) as Hc.
  unfold digit_char_ok in Hc. repeat rewrite andb_true_iff in Hc.
  destruct Hc as (((((_ & Hsp) & H128) & Hminus) & Hplus) & _).
  apply negb_true_iff in Hsp, Hminus, Hplus.
  cbn [skip_space]. rewrite Hsp.
  replace (128 <=? N_of_ascii (digit_char d))%N with false
    by (symmetry; apply N.leb_gt; apply N.ltb_lt; exact H128).
  rewrite Hminus, Hplus. cbn [orb]. rewrite Hread.
  rewrite N2Z.inj_abs_N, Z.abs_eq by lia. rewrite Hsafe. reflexivity.
Qed.

(** ** The verification pipeline *)

Lemma js_toString_throws (v : JSValue) (e : Exn) :
  js_toString v = Throw e -> e = TypeError /\ own_toString v = true.
Proof.
  destruct v as [| |[]|[| | |z]|s|l|o]; cbn [js_toString number_toString];
    try discriminate.
  - destruct (safe_integer z); discriminate.
  - destruct (own_toString (JObj o)); intros H; [inversion H; auto|discriminate H].
Qed.

Lemma js_toString_own (v : JSValue) :
  own_toString v = true -> js_toString v = Throw TypeError.
Proof.
  destruct v as [| |b|n|s|l|o]; cbn [own_toString]; try discriminate.
  intros H. cbn [js_toString own_toString]. rewrite H. reflexivity.
Qed.

Lemma obj_find_In (k : string) (v : JSValue) (o : Props) :
  obj_find k o = Some v -> In (k, v) o.
Proof.
  induction o as [|[k' v'] o IH]; cbn [obj_find]; [discriminate|].
  destruct (k' =? k)%string eqn:E.
  - apply String.eqb_eq in E. intros H. inversion H. subst. left. reflexivity.
  - intros H. right. exact (IH H).
Qed.

Lemma mappedValue_no_throw (keyMap : JSValue) (key : string) (e : Exn) :
  mappedValue keyMap key <> Throw e.
Proof.
  unfold mappedValue, obj_lookup. destruct (truthy keyMap); [|discriminate].
  destruct keyMap as [| |b|n|s|l|m]; try discriminate.
  destruct (obj_find key m); [|destruct (inherited_name key)];
    cbn [bind]; discriminate.
Qed.

(** The key mapping throws only on a key map entry that has no text. *)
Lemma mappedKey_throws (keyMap : JSValue) (key : string) (e : Exn) :
  mappedKey keyMap key = Throw e ->
  e = TypeError /\ plain_entries keyMap = false.
Proof.
  unfold mappedKey. intros H.
  apply bind_Throw in H as [H|(v & Hv & H)];
    [destruct (mappedValue_no_throw _ _ _ H)|].
  destruct (js_toString_throws _ _ H) as (-> & Hown). split; [reflexivity|].
  destruct (key =? "$")%string; [discriminate Hown|].
  destruct (key =? "$$")%string; [discriminate Hown|].
  unfold mappedValue in Hv.
  destruct (truthy keyMap); [|inversion Hv; subst v; discriminate Hown].
  destruct keyMap as [| |b|n|s|l|m]; try discriminate Hv.
  unfold obj_lookup in Hv.
  destruct (obj_find key m) as [x|] eqn:Hf.
  - cbn [bind] in Hv.
    destruct (truthy x); inversion Hv; subst v; [|discriminate Hown].
    apply obj_find_In in Hf. cbn [plain_entries].
    destruct (forallb (fun p => has_text (snd p)) m) eqn:Hall; [|reflexivity].
    rewrite forallb_forall in Hall. specialize (Hall _ Hf). cbn [snd] in Hall.
    unfold has_text in Hall.
    destruct x as [| |b|n|s|l|o]; try discriminate Hown.
    rewrite Hown in Hall. discriminate Hall.
  - destruct (inherited_name key); cbn [bind] in Hv; [discriminate Hv|].
    inversion Hv; subst v. discriminate Hown.
Qed.

Lemma mapClaims_throws (keyMap : JSValue) (claims : Props) (keys : list string)
  (m : Props) (e : Exn) :
  mapClaims keyMap claims keys m = Throw e ->
  e = TypeError /\ plain_entries keyMap = false.
Proof.
  revert m. induction keys as [|key keys IH]; intros m; cbn [mapClaims];
    [discriminate|].
  intros H. apply bind_Throw in H as [H|(k & _ & H)].
  - exact (mappedKey_throws _ _ _ H).
  - apply bind_Throw in H as [H|(m' & _ & H)].
    + unfold obj_assign_key in H.
      destruct (k =? "__proto__")%string; discriminate H.
    + exact (IH _ H).
Qed.

Lemma verifyOptions_fields (_options : JSValue) (name : string) :
  exists v, get_field (verifyOptions _options) name = Ok v.
Proof.
  unfold verifyOptions, or_empty.
  destruct _options as [| |b|n|s|l|o]; cbn; eauto.
  - destruct b; cbn; eauto.
  - destruct n as [| | |z]; cbn; eauto.
    destruct (z =? 0); cbn; eauto.
Qed.

(** C10. A string given as second argument of verifyTWT is taken as the
    encodedSecret: the call behaves as with an options object that holds just
    that secret, so with no keyMap and a clock drift of 120 seconds. *)
Theorem verifyTWT_string_options (now : Z) (token : JSValue) (s : string) :
  verifyTWT now token (JStr s)
    = verifyTWT now token (JObj [("encodedSecret", JStr s)])
  /\ verifyOptions (JStr s) = JObj [("encodedSecret", JStr s)]
  /\ get_field (verifyOptions (JStr s)) "keyMap" = Ok JUndefined
  /\ clockDrift (verifyOptions (JStr s)) = Ok (Fin 120).
Proof. repeat split. Qed.

(** C2, counterexample. The test token, read at the clock of its generation,
    lies within the tolerance; with a key map whose entry for the claim u is an
    object with an own toString property, verifyTWT does not verify it but
    throws a TypeError, when it makes that entry the name of a property. *)
Lemma verifyTWT_textless_keyMap_entry :
  decrypt (JStr test_token) (JStr test_encodedSecret)
  = Ok (stringify (JObj [("u", JStr "test"); ("$", JStr "s44we8");
                         ("$$", JStr "s5oge8")]))
  /\ parseClaims (stringify (JObj [("u", JStr "test"); ("$", JStr "s44we8");
                                   ("$$", JStr "s5oge8")]))
     = Ok [("u", JStr "test"); ("$", JNum (Fin 1700000000));
           ("$$", JNum (Fin 1702592000))]
  /\ get_field (verifyOptions textless_options) "keyMap"
     = Ok (JObj [("u", JObj [("toString", JNum (Fin 0))])])
  /\ verifyTWT 1700000000 (JStr test_token) textless_options = Throw TypeError.
Proof.
  split; [vm_compute; reflexivity|].
  split; [vm_compute; reflexivity|].
  split; [reflexivity|].
  vm_compute. reflexivity.
Qed.

(** C2, as amended. For a token that decrypts and parses to times validAt = a
    and expiresAt = b with 0 < a <= b, and with d the
    allowableClockDriftSeconds option when it is a finite number and 120
    otherwise: verifyTWT fails with the not-yet-valid time error exactly when
    now - a < 0 and |now - a| > d, and with the has-expired time error exactly
    when b - now < 0 and |b - now| > d.  In the remaining case the token passes
    the time checks, and verifyTWT ends as the key mapping of the claims does:
    it returns the remapped claims, and it throws, a TypeError, only when the
    key map has an entry without a text (an object with an own toString
    property, or an array). *)
Theorem verifyTWT_window
  (now : Z) (token _options secret keyMap : JSValue) (decrypted : string)
  (claims : Props) (a b : Z) :
  let options := verifyOptions _options in
  let d := match get_field options "allowableClockDriftSeconds" with
           | Ok (JNum (Fin z)) => z
           | _ => 120
           end in
  get_field options "keyMap" = Ok keyMap ->
  get_field options "encodedSecret" = Ok secret ->
  validateEncodedSecret secret = Ok tt ->
  decrypt token secret = Ok decrypted ->
  parseClaims decrypted = Ok claims ->
  obj_get "$" claims = JNum (Fin a) ->
  obj_get "$$" claims = JNum (Fin b) ->
  0 < a -> 0 < b -> a <= b ->
  (verifyTWT now token _options = Throw (TWTError ETIME MsgNotYetValid)
   <-> now - a < 0 /\ Z.abs (now - a) > d)
  /\
  (verifyTWT now token _options = Throw (TWTError ETIME MsgExpired)
   <-> b - now < 0 /\ Z.abs (b - now) > d)
  /\
  (~ (now - a < 0 /\ Z.abs (now - a) > d) ->
   ~ (b - now < 0 /\ Z.abs (b - now) > d) ->
   let claims' := obj_set "expiresIn" (JNum (Fin (b - a))) claims in
   verifyTWT now token _options
   = (m <- mapClaims keyMap claims' (Object_keys claims') [] ;; Ok (JObj m))
   /\ (forall m, mapClaims keyMap claims' (Object_keys claims') [] = Ok m ->
                 verifyTWT now token _options = Ok (JObj m))
   /\ (forall e, verifyTWT now token _options = Throw e ->
                 e = TypeError /\ plain_entries keyMap = false)
   /\ (plain_entries keyMap = true ->
       forall e, verifyTWT now token _options <> Throw e)).
Proof.
  intros options d Hk Hs Hv Hdec Hp Ha Hb Hpa Hpb Hab.
  assert (Hd : clockDrift options = Ok (Fin d)).
  { unfold clockDrift. subst d.
    destruct (verifyOptions_fields _options "allowableClockDriftSeconds") as (v & E).
    fold options in E. rewrite E. cbn [bind].
    destruct v as [| |?|[| | |z]|?|?|?]; reflexivity. }
  assert (Hrun : verifyTWT now token _options =
                 (c <- checkTimes now (Fin d) claims ;;
                  m <- mapClaims keyMap c (Object_keys c) [] ;; Ok (JObj m))).
  { unfold verifyTWT. fold options.
    rewrite Hk; cbn [bind]. rewrite Hd; cbn [bind]. rewrite Hs; cbn [bind].
    rewrite Hv; cbn [bind]. rewrite Hdec; cbn [bind try_catch].
    rewrite Hp; cbn [bind try_catch]. reflexivity. }
  rewrite Hrun. clear Hrun. unfold checkTimes. rewrite Ha, Hb.
  cbn [isFinite negb orb num_le num_lt num_gt num_sub num_add num_neg num_abs].
  replace (0 <? a) with true by (symmetry; apply Z.ltb_lt; lia).
  replace (0 <? b) with true by (symmetry; apply Z.ltb_lt; lia).
  replace (b <? a) with false by (symmetry; apply Z.ltb_ge; lia).
  cbn [negb].
  replace (now + - a) with (now - a) by lia.
  replace (b + - now) with (b - now) by lia.
  replace (b + - a) with (b - a) by lia.
  set (claims' := obj_set "expiresIn" (JNum (Fin (b - a))) claims).
  assert (Hthrow : forall e, (m <- mapClaims keyMap claims' (Object_keys claims') [] ;;
                              Ok (JObj m)) = Throw e ->
                             e = TypeError /\ plain_entries keyMap = false).
  { intros e H. apply bind_Throw in H as [H|(m & _ & H)];
      [exact (mapClaims_throws _ _ _ _ _ H) | discriminate H]. }
  assert (Hno : forall msg, (m <- mapClaims keyMap claims' (Object_keys claims') [] ;;
                             Ok (JObj m)) <> Throw (TWTError ETIME msg)).
  { intros msg H. destruct (Hthrow _ H) as (E & _). discriminate E. }
  assert (Hin : (m <- mapClaims keyMap claims' (Object_keys claims') [] ;; Ok (JObj m))
                = (m <- mapClaims keyMap claims' (Object_keys claims') [] ;; Ok (JObj m))
                /\ (forall m, mapClaims keyMap claims' (Object_keys claims') [] = Ok m ->
                      (m <- mapClaims keyMap claims' (Object_keys claims') [] ;;
                       Ok (JObj m)) = Ok (JObj m))
                /\ (forall e, (m <- mapClaims keyMap claims' (Object_keys claims') [] ;;
                               Ok (JObj m)) = Throw e ->
                              e = TypeError /\ plain_entries keyMap = false)
                /\ (plain_entries keyMap = true ->
                    forall e, (m <- mapClaims keyMap claims' (Object_keys claims') [] ;;
                               Ok (JObj m)) <> Throw e)).
  { split; [reflexivity|]. split; [intros m Hm; rewrite Hm; reflexivity|].
    split; [exact Hthrow|].
    intros Hplain e H. destruct (Hthrow _ H) as (_ & E). congruence. }
  destruct (now - a <? 0) eqn:V1; destruct (d <? Z.abs (now - a)) eqn:V2;
    destruct (b - now <? 0) eqn:V3; destruct (d <? Z.abs (b - now)) eqn:V4;
    cbn [andb bind throwError createError];
    rewrite ?Z.ltb_lt, ?Z.ltb_ge in V1, V2, V3, V4;
    (split; [|split]);
    try (split; intros H; try discriminate H; try (exfalso; exact (Hno _ H));
         try (destruct H; lia); try reflexivity; try (split; lia));
    try (intros H1 H2; exfalso; first [apply H1 | apply H2]; split; lia);
    try (intros _ _; exact Hin).
Qed.

(** The window theorem at the test token, read at the clock of its generation. *)
Lemma verifyTWT_window_witness :
  (verifyTWT 1700000000 (JStr test_token) test_options
   = Throw (TWTError ETIME MsgNotYetValid)
   <-> 1700000000 - 1700000000 < 0 /\ Z.abs (1700000000 - 1700000000) > 120)
  /\
  (verifyTWT 1700000000 (JStr test_token) test_options
   = Throw (TWTError ETIME MsgExpired)
   <-> 1702592000 - 1700000000 < 0 /\ Z.abs (1702592000 - 1700000000) > 120)
  /\
  verifyTWT 1700000000 (JStr test_token) test_options
  = Ok (JObj [("u", JStr "test"); ("validAt", JNum (Fin 1700000000));
              ("expiresAt", JNum (Fin 1702592000));
              ("expiresIn", JNum (Fin 2592000))]).
Proof.
  destruct (verifyTWT_window 1700000000 (JStr test_token) test_options
              (JStr test_encodedSecret) JUndefined
              (stringify (JObj [("u", JStr "test"); ("$", JStr "s44we8");
                                ("$$", JStr "s5oge8")]))
              [("u", JStr "test"); ("$", JNum (Fin 1700000000));
               ("$$", JNum (Fin 1702592000))] 1700000000 1702592000)
    as (H1 & H2 & H3);
    try reflexivity; try lia; try (vm_compute; reflexivity).
  split; [exact H1|]. split; [exact H2|].
  apply H3; [lia|lia|]. vm_compute. reflexivity.
Defined.

Lemma clockDrift_finite (_options : JSValue) :
  exists d, clockDrift (verifyOptions _options) = Ok (Fin d).
Proof.
  unfold clockDrift.
  destruct (verifyOptions_fields _options "allowableClockDriftSeconds") as (v & E).
  rewrite E. cbn [bind].
  destruct v as [| |?|[| | |z]|?|?|?]; cbn; eauto.
Qed.

(** verifyTWT once the secret has passed validateEncodedSecret. *)
Lemma verifyTWT_valid_secret
  (now : Z) (token _options secret keyMap : JSValue) (d : JSNumber) :
  get_field (verifyOptions _options) "keyMap" = Ok keyMap ->
  clockDrift (verifyOptions _options) = Ok d ->
  get_field (verifyOptions _options) "encodedSecret" = Ok secret ->
  validateEncodedSecret secret = Ok tt ->
  verifyTWT now token _options =
  (decrypted <- try_catch (decrypt token secret)
                          (fun _ => throwError MsgDecryption EENCRYPTION) ;;
   claims <- try_catch (parseClaims decrypted)
                       (fun _ => throwError MsgParsing EPARSE) ;;
   claims <- checkTimes now d claims ;;
   m <- mapClaims keyMap claims (Object_keys claims) [] ;;
   Ok (JObj m)).
Proof.
  intros Hk Hd Hs Hv. unfold verifyTWT.
  rewrite Hk; cbn [bind]. rewrite Hd; cbn [bind]. rewrite Hs; cbn [bind].
  rewrite Hv; cbn [bind]. reflexivity.
Qed.

Lemma checkTimes_throws (now : Z) (d : JSNumber) (claims : Props) (e : Exn) :
  checkTimes now d claims = Throw e -> exists msg, e = TWTError ETIME msg.
Proof.
  unfold checkTimes, throwError, createError. intros H.
  repeat match type of H with
         | (match ?x with _ => _ end) = _ => destruct x
         | (if ?x then _ else _) = _ => destruct x
         end;
    try discriminate; inversion H; eauto.
Qed.

(** After the decrypted text has been read, the time checks can throw, and the
    key mapping on a key map entry that has no text. *)
Lemma after_parse_throws (now : Z) (d : JSNumber) (keyMap : JSValue)
  (claims : Props) (e : Exn) :
  (c <- checkTimes now d claims ;;
   m <- mapClaims keyMap c (Object_keys c) [] ;; Ok (JObj m)) = Throw e ->
  (exists msg, e = TWTError ETIME msg)
  \/ (e = TypeError /\ plain_entries keyMap = false).
Proof.
  intros H. apply bind_Throw in H as [H|(c & _ & H)].
  - left. exact (checkTimes_throws _ _ _ _ H).
  - apply bind_Throw in H as [H|(m & _ & H)]; [|discriminate H].
    right. exact (mapClaims_throws _ _ _ _ _ H).
Qed.

Lemma after_parse_code (now : Z) (d : JSNumber) (keyMap : JSValue)
  (claims : Props) (code : ErrorCode) :
  error_code (c <- checkTimes now d claims ;;
              m <- mapClaims keyMap c (Object_keys c) [] ;; Ok (JObj m))
  = Some code -> code = ETIME.
Proof.
  destruct (_ <- checkTimes now d claims ;; _) as [?|e|] eqn:Hr;
    cbn [error_code]; try discriminate.
  destruct (after_parse_throws _ _ _ _ _ Hr) as [(msg & ->)|(-> & _)];
    cbn; intros H; [inversion H; reflexivity|discriminate H].
Qed.

Lemma parseInt_string_no_throw (radix : N) (text : string) (e : Exn) :
  parseInt_string radix text <> Throw e.
Proof.
  unfold parseInt_string.
  destruct (skip_space text) as [|c s]; [discriminate|].
  destruct (128 <=? N_of_ascii c)%N; [discriminate|].
  destruct (read_digits radix _ None) as [n|]; [|discriminate].
  destruct (safe_integer (Z.of_N n)); discriminate.
Qed.

(** parseInt throws when its argument has no text, and only then. *)
Lemma parseInt_throws (v : JSValue) (radix : N) (e : Exn) :
  parseInt v radix = Throw e -> e = TypeError /\ own_toString v = true.
Proof.
  unfold parseInt. intros H.
  apply bind_Throw in H as [H|(text & _ & H)].
  - exact (js_toString_throws _ _ H).
  - destruct (parseInt_string_no_throw _ _ _ H).
Qed.

Lemma parseInt_own (v : JSValue) (radix : N) :
  own_toString v = true -> parseInt v radix = Throw TypeError.
Proof.
  intros H. unfold parseInt. rewrite (js_toString_own v H). reflexivity.
Qed.


(** What the try block of verifyTWT does with a parsed object. *)
Lemma parseClaims_object (decrypted : string) (o : Props) :
  JSON_parse decrypted = Ok (JObj o) ->
  parseClaims decrypted =
  (validAt <- parseInt (obj_get "$" o) 36 ;;
   expiresAt <- parseInt (obj_get "$$" o) 36 ;;
   Ok (obj_set "$$" (JNum expiresAt) (obj_set "$" (JNum validAt) o))).
Proof.
  intros H. unfold parseClaims. rewrite H. cbn [bind get_field own_props].
  destruct (parseInt (obj_get "$" o) 36) as [n| |]; cbn [bind]; try reflexivity.
  rewrite obj_get_set_other by discriminate. reflexivity.
Qed.

Lemma parseInt_undefined : parseInt JUndefined 36 = Ok (Fin 86464843759093).
Proof. vm_compute. reflexivity. Qed.

(** The indices of an array are not the names of the time fields. *)
Lemma index_props_find (k : string) (i : N) (l : list JSValue) :
  read_digits 10 k None = None -> obj_find k (index_props i l) = None.
Proof.
  intros Hk. revert i. induction l as [|v l IH]; intros i; [reflexivity|].
  cbn [index_props obj_find].
  destruct (N_to_string 10 i =? k)%string eqn:E; [|apply IH].
  apply String.eqb_eq in E. subst k.
  rewrite (read_N_to_string 10 i (or_introl eq_refl)) in Hk. discriminate Hk.
Qed.

(** The try block reads an array as claims without times. *)
Lemma parseClaims_array (decrypted : string) (l : list JSValue) :
  JSON_parse decrypted = Ok (JArr l) ->
  exists claims, parseClaims decrypted = Ok claims.
Proof.
  intros H. unfold parseClaims. rewrite H.
  cbn [bind get_field own_props]. rewrite parseInt_undefined. cbn [bind].
  rewrite obj_get_set_other by discriminate.
  unfold obj_get. rewrite index_props_find by reflexivity.
  rewrite parseInt_undefined. cbn [bind]. eauto.
Qed.

(** The try block throws on the texts that are unreadable, and on no other. *)
Lemma parseClaims_unreadable (text : string) :
  (exists e, parseClaims text = Throw e) <-> unreadable text.
Proof.
  unfold unreadable.
  destruct (JSON_parse text) as [v|e|] eqn:Hp.
  - destruct v as [| |b|n|s|l|o].
    + unfold parseClaims. rewrite Hp. cbn [bind get_field]. split; eauto.
    + unfold parseClaims. rewrite Hp. cbn [bind get_field]. split; eauto.
    + unfold parseClaims. rewrite Hp. cbn [bind get_field].
      rewrite parseInt_undefined. cbn [bind]. split; eauto.
    + unfold parseClaims. rewrite Hp. cbn [bind get_field].
      rewrite parseInt_undefined. cbn [bind]. split; eauto.
    + unfold parseClaims. rewrite Hp. cbn [bind get_field].
      rewrite parseInt_undefined. cbn [bind]. split; eauto.
    + destruct (parseClaims_array _ _ Hp) as (claims & ->).
      split; [intros (e & H); discriminate H|contradiction].
    + rewrite (parseClaims_object _ _ Hp).
      destruct (parseInt (obj_get "$" o) 36) as [n1|e1|]; cbn [bind].
      * destruct (parseInt (obj_get "$$" o) 36) as [n2|e2|]; cbn [bind].
        -- split; [intros (e & H); discriminate H|].
           intros [(e & H)|(_ & e & H)]; discriminate H.
        -- split; [intros _; right; split; eauto|eauto].
        -- split; [intros (e & H); discriminate H|].
           intros [(e & H)|(_ & e & H)]; discriminate H.
      * split; [intros _; left; eauto|eauto].
      * split; [intros (e & H); discriminate H|].
        intros [(e & H)|((n & H) & _)]; discriminate H.
  - unfold parseClaims. rewrite Hp. cbn [bind]. split; eauto.
  - unfold parseClaims. rewrite Hp. cbn [bind].
    split; [intros (e & H); discriminate H|contradiction].
Qed.

(** verifyTWT validates the secret before it looks at the token. *)
Lemma verifyTWT_secret_first (now : Z) (token _options secret : JSValue) (e : Exn) :
  get_field (verifyOptions _options) "encodedSecret" = Ok secret ->
  validateEncodedSecret secret = Throw e ->
  verifyTWT now token _options = Throw e.
Proof.
  intros Hs Hv.
  destruct (verifyOptions_fields _options "keyMap") as (keyMap & Hk).
  destruct (clockDrift_finite _options) as (d & Hd).
  unfold verifyTWT.
  rewrite Hk; cbn [bind]. rewrite Hd; cbn [bind]. rewrite Hs; cbn [bind].
  rewrite Hv. reflexivity.
Qed.

Lemma generateTWT_validation_first
  (now : Z) (props _options : JSValue) (options : Props) (e : Exn) :
  defaultOptions now _options = Ok options ->
  validateOptions now options = Throw e ->
  generateTWT now props _options = Throw e.
Proof.
  intros Hd Hv. unfold generateTWT. rewrite Hd; cbn [bind]. rewrite Hv. reflexivity.
Qed.

(** C4. The secret bnVsbA== is the URL-safe base64 text of the JSON value null.
    validateEncodedSecret reads the secretKey property of that null outside its
    try block, so the call ends in a TypeError of the run time and not in a
    TWTError with code ESECRET; verifyTWT and generateTWT end the same way. *)
Theorem validateEncodedSecret_null_bundle :
  getSaltProperties (JStr "bnVsbA==") = Ok JNull
  /\ validateEncodedSecret (JStr "bnVsbA==") = Throw TypeError
  /\ error_code (validateEncodedSecret (JStr "bnVsbA==")) <> Some ESECRET
  /\ (forall now token,
        verifyTWT now token (JObj [("encodedSecret", JStr "bnVsbA==")])
        = Throw TypeError)
  /\ (forall props,
        generateTWT 1700000000 props (JObj [("encodedSecret", JStr "bnVsbA==")])
        = Throw TypeError).
Proof.
  assert (H : validateEncodedSecret (JStr "bnVsbA==") = Throw TypeError)
    by (vm_compute; reflexivity).
  split; [vm_compute; reflexivity|]. split; [exact H|].
  split; [rewrite H; discriminate|]. split.
  - intros now token.
    apply (verifyTWT_secret_first now token _ (JStr "bnVsbA==")); [reflexivity|exact H].
  - intros props.
    apply (generateTWT_validation_first 1700000000 props _
             [("encodedSecret", JStr "bnVsbA=="); ("validAt", JNum (Fin 1700000000));
              ("expiresAt", JNum (Fin 1702592000))]);
      vm_compute; reflexivity.
Qed.

(** C5, counterexample. The test token, with its ninth character K replaced by
    L, decrypts to the text of the claims with u = pest, and verifyTWT returns
    those claims: a one-character mutation that is not rejected. *)
Lemma verifyTWT_accepts_a_mutation :
  generateTWT 1700000000 test_claims test_options = Ok test_token
  /\ exists mutated,
       one_char_mutation test_token mutated = true
       /\ verifyTWT 1700000000 (JStr mutated) test_options
          = Ok (JObj [("u", JStr "pest"); ("validAt", JNum (Fin 1700000000));
                      ("expiresAt", JNum (Fin 1702592000));
                      ("expiresIn", JNum (Fin 2592000))]).
Proof.
  split; [vm_compute; reflexivity|].
  exists "6tRP5tBoLNUYSRU6qlAyfqjiE50bH8LcyR6xOx7reUj_iESp9rW_".
  split; vm_compute; reflexivity.
Qed.

(** C5, as amended. With a secret that passes validateEncodedSecret, verifyTWT
    raises an encryption failure exactly when decrypt throws, and a parse
    failure exactly when the decrypted text is unreadable: JSON.parse throws,
    the text is that of null, a boolean, a number or a string, or parseInt
    throws on a time field, as it does on a field that is an object with an own
    toString property.  A token, mutated or not, whose decrypted text is read
    as claims goes on to the time checks and the key mapping: there it can
    raise a time error, or throw the TypeError of a key map entry that has no
    text, and nothing else. *)
Theorem verifyTWT_tamper_errors
  (now : Z) (token _options secret keyMap : JSValue) :
  get_field (verifyOptions _options) "encodedSecret" = Ok secret ->
  get_field (verifyOptions _options) "keyMap" = Ok keyMap ->
  validateEncodedSecret secret = Ok tt ->
  (error_code (verifyTWT now token _options) = Some EENCRYPTION
   <-> exists e, decrypt token secret = Throw e)
  /\
  (forall text, decrypt token secret = Ok text ->
     (error_code (verifyTWT now token _options) = Some EPARSE <-> unreadable text))
  /\
  (forall text o,
     decrypt token secret = Ok text -> JSON_parse text = Ok (JObj o) ->
     own_toString (obj_get "$" o) = true ->
     verifyTWT now token _options = Throw (TWTError EPARSE MsgParsing))
  /\
  (forall text claims e,
     decrypt token secret = Ok text -> parseClaims text = Ok claims ->
     verifyTWT now token _options = Throw e ->
     (exists msg, e = TWTError ETIME msg)
     \/ (e = TypeError /\ plain_entries keyMap = false)).
Proof.
  intros Hs Hk Hv.
  destruct (clockDrift_finite _options) as (d & Hd).
  rewrite (verifyTWT_valid_secret now token _options secret keyMap (Fin d) Hk Hd Hs Hv).
  split; [|split; [|split]].
  - destruct (decrypt token secret) as [text|e0|]; cbn [try_catch bind].
    + split; [|intros (e & He); discriminate He].
      destruct (parseClaims text) as [claims|e1|]; cbn [try_catch bind].
      * intros H. apply after_parse_code in H. discriminate H.
      * intros H. discriminate H.
      * intros H. discriminate H.
    + split; [eauto|reflexivity].
    + split; [intros H; discriminate H|intros (e & He); discriminate He].
  - intros text Hdec. rewrite Hdec. cbn [try_catch bind].
    rewrite <- parseClaims_unreadable.
    destruct (parseClaims text) as [claims|e1|]; cbn [try_catch bind].
    + split; [|intros (e & He); discriminate He].
      intros H. apply after_parse_code in H. discriminate H.
    + split; [eauto|reflexivity].
    + split; [intros H; discriminate H|intros (e & He); discriminate He].
  - intros text o Hdec Hp Hown. rewrite Hdec. cbn [try_catch bind].
    rewrite (parseClaims_object _ _ Hp), (parseInt_own _ 36 Hown). reflexivity.
  - intros text claims e Hdec Hp. rewrite Hdec. cbn [try_catch bind].
    rewrite Hp. cbn [try_catch bind]. apply after_parse_throws.
Qed.

(** The tamper theorem at the test token with a character put before it: the
    text it decrypts to is no JSON, and verifyTWT raises the parse failure. *)
Lemma verifyTWT_tamper_errors_witness :
  exists text,
    decrypt (JStr (String "t" test_token)) (JStr test_encodedSecret) = Ok text
    /\ unreadable text
    /\ error_code (verifyTWT 1700000000 (JStr (String "t" test_token)) test_options)
       = Some EPARSE.
Proof.
  assert (Hd : exists text,
             decrypt (JStr (String "t" test_token)) (JStr test_encodedSecret) = Ok text
             /\ unreadable text).
  { eexists. split; [vm_compute; reflexivity|]. vm_compute. exact I. }
  assert (Hv : validateEncodedSecret (JStr test_encodedSecret) = Ok tt)
    by (vm_compute; reflexivity).
  destruct Hd as (text & Hd & Hu).
  exists text. split; [exact Hd|]. split; [exact Hu|].
  apply (proj1 (proj2 (verifyTWT_tamper_errors 1700000000
                         (JStr (String "t" test_token)) test_options
                         (JStr test_encodedSecret) JUndefined
                         eq_refl eq_refl Hv)) text Hd).
  exact Hu.
Defined.




(** ** The output keys of verifyTWT *)

Lemma try_catch_Ok {A : Type} (m : Outcome A) (msg : Message) (code : ErrorCode) (a : A) :
  try_catch m (fun _ => throwError msg code) = Ok a -> m = Ok a.
Proof. destruct m; cbn; intros H; try discriminate. exact H. Qed.

(** What a successful call of verifyTWT went through. *)
Lemma verifyTWT_Ok (now : Z) (token _options result : JSValue) :
  verifyTWT now token _options = Ok result ->
  exists keyMap d secret text parsed claims out,
    get_field (verifyOptions _options) "keyMap" = Ok keyMap
    /\ clockDrift (verifyOptions _options) = Ok d
    /\ get_field (verifyOptions _options) "encodedSecret" = Ok secret
    /\ validateEncodedSecret secret = Ok tt
    /\ decrypt token secret = Ok text
    /\ parseClaims text = Ok parsed
    /\ checkTimes now d parsed = Ok claims
    /\ mapClaims keyMap claims (Object_keys claims) [] = Ok out
    /\ result = JObj out.
Proof.
  unfold verifyTWT. intros H.
  apply bind_Ok in H as (keyMap & Hk & H).
  apply bind_Ok in H as (d & Hd & H).
  apply bind_Ok in H as (secret & Hs & H).
  apply bind_Ok in H as ([] & Hv & H).
  apply bind_Ok in H as (text & Ht & H). apply try_catch_Ok in Ht.
  apply bind_Ok in H as (parsed & Hp & H). apply try_catch_Ok in Hp.
  apply bind_Ok in H as (claims & Hc & H).
  apply bind_Ok in H as (out & Hm & H).
  inversion H. exists keyMap, d, secret, text, parsed, claims, out.
  repeat split; assumption.
Qed.

Lemma mapClaims_app (keyMap : JSValue) (claims : Props) (l1 l2 : list string) (m : Props) :
  mapClaims keyMap claims (l1 ++ l2) m =
  (m1 <- mapClaims keyMap claims l1 m ;; mapClaims keyMap claims l2 m1).
Proof.
  revert m. induction l1 as [|key l1 IH]; intros m; cbn [mapClaims app bind].
  - reflexivity.
  - destruct (mappedKey keyMap key) as [k| |]; cbn [bind]; try reflexivity.
    destruct (obj_assign_key k (obj_get key claims) m) as [m'| |]; cbn [bind];
      try reflexivity.
    apply IH.
Qed.








(** ** generateTWT and the objects of its caller *)

Lemma store_update_app (st tl : Store) (i : nat) (o : Props) :
  store_update (List.length st + i)%nat o (st ++ tl) = st ++ store_update i o tl.
Proof. induction st as [|x st IH]; simpl; [reflexivity|]. rewrite IH. reflexivity. Qed.

Lemma nth_error_app_base (st tl : Store) (i : nat) :
  nth_error (st ++ tl) (List.length st + i)%nat = nth_error tl i.
Proof. induction st as [|x st IH]; simpl; [reflexivity|exact IH]. Qed.

Lemma store_update_same (st : Store) (r : Ref) (t : Props) :
  nth_error st r = Some t -> store_update r t st = st.
Proof.
  revert r. induction st as [|x st IH]; intros [|r] H; simpl in *; try reflexivity.
  - inversion H. reflexivity.
  - rewrite (IH r H). reflexivity.
Qed.

Lemma store_update_twice (st : Store) (r : Ref) (a b : Props) :
  store_update r b (store_update r a st) = store_update r b st.
Proof.
  revert r. induction st as [|x st IH]; intros [|r]; simpl; try reflexivity.
  rewrite IH. reflexivity.
Qed.

Lemma nth_error_store_update (st : Store) (r : Ref) (t o : Props) :
  nth_error st r = Some t -> nth_error (store_update r o st) r = Some o.
Proof.
  revert r. induction st as [|x st IH]; intros [|r] H; simpl in *; try discriminate.
  - reflexivity.
  - exact (IH r H).
Qed.

Lemma arg_value_app (st tl : Store) (a : Arg) :
  valid_arg st a -> arg_value (st ++ tl) a = arg_value st a.
Proof.
  destruct a as [r|v]; simpl; intros H; [|reflexivity].
  rewrite nth_error_app1 by exact H. reflexivity.
Qed.

(** Object.assign writes to its target and to nothing else. *)
Lemma assign_store_spec (r : Ref) (src : Props) (st : Store) (t : Props) :
  nth_error st r = Some t ->
  exists t'',
    assign_store r src st
    = (bind (assign_props t src) (fun _ => Ok tt), store_update r t'' st)
    /\ forall t', assign_props t src = Ok t' -> t'' = t'.
Proof.
  revert st t. induction src as [|[k v] src IH]; intros st t Hr.
  - exists t. cbn. rewrite (store_update_same _ _ _ Hr).
    split; [reflexivity|]. intros t' H; inversion H; reflexivity.
  - cbn [assign_store assign_props].
    unfold sbind at 1, set_property, sbind at 1, read_object, sbind at 1, lift, write_object.
    rewrite Hr.
    destruct (obj_assign_key k v t) as [t1|e|] eqn:E; cbn [bind].
    + destruct (IH (store_update r t1 st) t1 (nth_error_store_update _ _ _ _ Hr))
        as (t'' & Hrun & Ht).
      exists t''. rewrite Hrun, store_update_twice. split; [reflexivity|exact Ht].
    + exists t. rewrite (store_update_same _ _ _ Hr). split; [reflexivity|discriminate].
    + exists t. rewrite (store_update_same _ _ _ Hr). split; [reflexivity|discriminate].
Qed.

Lemma Object_assign_store_spec (r : Ref) (a : Arg) (st : Store) (t : Props) :
  nth_error st r = Some t ->
  exists t'',
    Object_assign_store r a st
    = (bind (Object_assign t (arg_value st a)) (fun _ => Ok tt), store_update r t'' st)
    /\ forall t', Object_assign t (arg_value st a) = Ok t' -> t'' = t'.
Proof.
  intros Hr. unfold Object_assign_store, Object_assign, sbind, read_arg, lift.
  destruct (own_props (arg_value st a)) as [src|e|] eqn:E; cbn [bind].
  - exact (assign_store_spec r src st t Hr).
  - exists t. rewrite (store_update_same _ _ _ Hr). split; [reflexivity|discriminate].
  - exists t. rewrite (store_update_same _ _ _ Hr). split; [reflexivity|discriminate].
Qed.

Lemma nth_error_at_base (st tl : Store) (x : Props) :
  nth_error (st ++ x :: tl) (List.length st) = Some x.
Proof.
  rewrite <- (Nat.add_0_r (List.length st)), nth_error_app_base. reflexivity.
Qed.

Lemma store_update_at_base (st tl : Store) (x o : Props) :
  store_update (List.length st) o (st ++ x :: tl) = st ++ o :: tl.
Proof.
  rewrite <- (Nat.add_0_r (List.length st)), store_update_app. reflexivity.
Qed.

Lemma valid_arg_app (st tl : Store) (a : Arg) :
  valid_arg st a -> valid_arg (st ++ tl) a.
Proof.
  destruct a as [r|v]; simpl; [|trivial]. rewrite length_app. lia.
Qed.

(** [a || {}] reads its argument and may create one object. *)
Lemma or_empty_store_spec (a : Arg) (st : Store) :
  exists a' tl,
    or_empty_store a st = (Ok a', st ++ tl)
    /\ arg_value (st ++ tl) a' = or_empty (arg_value st a)
    /\ (valid_arg st a -> valid_arg (st ++ tl) a').
Proof.
  unfold or_empty_store, sbind, read_arg, or_empty.
  destruct (truthy (arg_value st a)) eqn:T.
  - exists a, []. unfold sret. rewrite app_nil_r. repeat split. trivial.
  - exists (ByRef (List.length st)), [[]]. unfold new_object, sret.
    split; [reflexivity|]. cbn [arg_value valid_arg].
    rewrite nth_error_at_base. split; [reflexivity|].
    intros _. rewrite length_app. cbn. lia.
Qed.
(** The options phase over the store: one or two new objects after the
    existing ones, the first of them holding the options of the pure
    reading. *)
Lemma defaultOptions_store_spec (now : Z) (a : Arg) (st : Store) :
  valid_arg st a ->
  exists tl,
    defaultOptions_store now a st
    = (bind (defaultOptions now (arg_value st a)) (fun _ => Ok (List.length st)),
       st ++ tl)
    /\ forall o, defaultOptions now (arg_value st a) = Ok o ->
                 nth_error (st ++ tl) (List.length st) = Some o.
Proof.
  intros Hvalid. unfold defaultOptions_store, defaultOptions.
  unfold sbind at 1. unfold new_object at 1. cbv beta iota.
  unfold sbind at 1.
  match goal with
  | |- context [or_empty_store a ?s] =>
      destruct (or_empty_store_spec a s) as (a' & tl1 & Hor & Hval & Hvalid')
  end.
  rewrite Hor. cbv beta iota. rewrite (arg_value_app st _ a Hvalid) in Hval.
  rewrite <- app_assoc in *. cbn [app] in *.
  unfold sbind at 1.
  destruct (Object_assign_store_spec (List.length st) a' (st ++ [] :: tl1) []
              (nth_error_at_base _ _ _)) as (t'' & Hrun & Ht).
  rewrite Hrun, store_update_at_base. rewrite Hval in *. clear Hrun.
  cbv beta iota.
  destruct (Object_assign [] (or_empty (arg_value st a))) as [o0|e|] eqn:E0;
    cbn [bind]; try (eexists; split; [reflexivity|discriminate]).
  rewrite (Ht o0 eq_refl). clear Ht t''.
  unfold sbind at 1. unfold read_object at 1. rewrite nth_error_at_base.
  unfold sbind at 1.
  set (o1 := if negb (truthy (obj_get "validAt" o0))
             then obj_set "validAt" (JNum (Fin now)) o0 else o0).
  assert (Hw : (if negb (truthy (obj_get "validAt" o0))
                then write_object (List.length st) (obj_set "validAt" (JNum (Fin now)) o0)
                else sret tt) (st ++ o0 :: tl1) = (Ok tt, st ++ o1 :: tl1)).
  { subst o1. destruct (negb (truthy (obj_get "validAt" o0))).
    - unfold write_object. rewrite store_update_at_base. reflexivity.
    - reflexivity. }
  rewrite Hw. clear Hw.
  unfold sbind at 1. unfold read_object at 1. rewrite nth_error_at_base.
  unfold sbind at 1.
  destruct (negb (truthy (obj_get "expiresAt" o1))).
  - unfold sbind at 1, lift.
    destruct (js_add (obj_get "validAt" o1) DEFAULT_EXPIRATION_SECONDS) as [x|e|];
      cbn [bind]; try (eexists; split; [reflexivity|discriminate]).
    unfold write_object, sret. rewrite store_update_at_base.
    eexists. split; [reflexivity|].
    intros o Ho. inversion Ho. apply nth_error_at_base.
  - unfold sret. cbn [bind]. eexists. split; [reflexivity|].
    intros o Ho. inversion Ho. apply nth_error_at_base.
Qed.

(** The claims phase over the store. *)
Lemma buildClaims_store_spec (props : Arg) (o : Props) (st : Store) :
  valid_arg st props ->
  exists tl,
    buildClaims_store props o st
    = (bind (validAt36 <- toString36 (obj_get "validAt" o) ;;
             expiresAt36 <- toString36 (obj_get "expiresAt" o) ;;
             claims <- Object_assign [] (or_empty (arg_value st props)) ;;
             Object_assign claims (JObj [("$", validAt36); ("$$", expiresAt36)]))
            (fun _ => Ok (List.length st)),
       st ++ tl)
    /\ forall c,
         (validAt36 <- toString36 (obj_get "validAt" o) ;;
          expiresAt36 <- toString36 (obj_get "expiresAt" o) ;;
          claims <- Object_assign [] (or_empty (arg_value st props)) ;;
          Object_assign claims (JObj [("$", validAt36); ("$$", expiresAt36)])) = Ok c ->
         nth_error (st ++ tl) (List.length st) = Some c.
Proof.
  intros Hvalid. unfold buildClaims_store.
  unfold sbind at 1. unfold new_object at 1. cbv beta iota.
  unfold sbind at 1.
  match goal with
  | |- context [or_empty_store props ?s] =>
      destruct (or_empty_store_spec props s) as (a' & tl1 & Hor & Hval & Hvalid')
  end.
  rewrite Hor. cbv beta iota. rewrite (arg_value_app st _ props Hvalid) in Hval.
  rewrite <- app_assoc in *. cbn [app] in *.
  unfold sbind at 1, lift.
  destruct (toString36 (obj_get "validAt" o)) as [v36|e|]; cbn [bind];
    try (eexists; split; [reflexivity|discriminate]).
  unfold sbind at 1.
  destruct (toString36 (obj_get "expiresAt" o)) as [e36|e|]; cbn [bind];
    try (eexists; split; [reflexivity|discriminate]).
  unfold sbind at 1. unfold new_object at 1.
  unfold sbind at 1.
  set (times := [("$", v36); ("$$", e36)]).
  assert (Hcell : nth_error ((st ++ [] :: tl1) ++ [times]) (List.length st) = Some [])
    by (rewrite <- app_assoc; apply nth_error_at_base).
  destruct (Object_assign_store_spec (List.length st) a' _ [] Hcell)
    as (t'' & Hrun & Ht).
  rewrite Hrun. clear Hrun.
  assert (Hval' : arg_value ((st ++ [] :: tl1) ++ [times]) a'
                  = or_empty (arg_value st props)).
  { rewrite <- Hval. apply arg_value_app. apply Hvalid'.
    apply valid_arg_app. exact Hvalid. }
  rewrite Hval' in *. cbv beta iota.
  rewrite <- app_assoc. cbn [app]. rewrite store_update_at_base.
  destruct (Object_assign [] (or_empty (arg_value st props))) as [c0|e|] eqn:E0;
    cbn [bind]; try (eexists; split; [reflexivity|discriminate]).
  rewrite (Ht c0 eq_refl). clear Ht t''.
  unfold sbind at 1.
  assert (Hcell2 : nth_error (st ++ c0 :: tl1 ++ [times]) (List.length st) = Some c0)
    by apply nth_error_at_base.
  destruct (Object_assign_store_spec (List.length st)
              (ByRef (List.length (st ++ [] :: tl1))) _ c0 Hcell2)
    as (t'' & Hrun & Ht).
  rewrite Hrun. clear Hrun.
  assert (Htimes : arg_value (st ++ c0 :: tl1 ++ [times])
                     (ByRef (List.length (st ++ [] :: tl1))) = JObj times).
  { cbn [arg_value].
    replace (st ++ c0 :: tl1 ++ [times]) with ((st ++ c0 :: tl1) ++ [times])
      by (rewrite <- app_assoc; reflexivity).
    replace (List.length (st ++ [] :: tl1)) with (List.length (st ++ c0 :: tl1))
      by (rewrite !length_app; reflexivity).
    rewrite nth_error_at_base. reflexivity. }
  rewrite Htimes in *. rewrite store_update_at_base. cbv beta iota.
  destruct (Object_assign c0 (JObj times)) as [c1|e|] eqn:E1;
    cbn [bind]; try (eexists; split; [reflexivity|discriminate]).
  rewrite (Ht c1 eq_refl). unfold sret.
  eexists. split; [reflexivity|].
  intros c Hc. inversion Hc. apply nth_error_at_base.
Qed.

Lemma generateTWT_store_run (now : Z) (props _options : Arg) (st : Store) :
  valid_arg st props -> valid_arg st _options ->
  exists tl,
    generateTWT_store now props _options st
    = (generateTWT now (arg_value st props) (arg_value st _options), st ++ tl).
Proof.
  intros Hp Ho. unfold generateTWT_store, generateTWT.
  unfold sbind at 1.
  destruct (defaultOptions_store_spec now _options st Ho) as (tl1 & Hrun & Hcell).
  rewrite Hrun. clear Hrun.
  destruct (defaultOptions now (arg_value st _options)) as [o|e|] eqn:Ed;
    cbn [bind]; try (eexists; reflexivity).
  specialize (Hcell o eq_refl).
  unfold sbind at 1. unfold read_object at 1. rewrite Hcell.
  unfold sbind at 1, lift.
  destruct (validateOptions now o) as [[]|e|]; cbn [bind]; try (eexists; reflexivity).
  unfold sbind at 1.
  destruct (buildClaims_store_spec props o (st ++ tl1) (valid_arg_app _ _ _ Hp))
    as (tl2 & Hrun & Hcell2).
  rewrite Hrun. clear Hrun.
  rewrite (arg_value_app st tl1 props Hp) in *.
  destruct (toString36 (obj_get "validAt" o)) as [v36|e|]; cbn [bind] in *;
    try (eexists; rewrite <- app_assoc; reflexivity).
  destruct (toString36 (obj_get "expiresAt" o)) as [e36|e|]; cbn [bind] in *;
    try (eexists; rewrite <- app_assoc; reflexivity).
  destruct (Object_assign [] (or_empty (arg_value st props))) as [c0|e|];
    cbn [bind] in *; try (eexists; rewrite <- app_assoc; reflexivity).
  destruct (Object_assign c0 (JObj [("$", v36); ("$$", e36)])) as [c1|e|];
    cbn [bind] in *; try (eexists; rewrite <- app_assoc; reflexivity).
  specialize (Hcell2 c1 eq_refl).
  unfold sbind at 1. unfold read_object at 1. rewrite Hcell2.
  unfold sbind at 1.
  destruct (try_catch (JSON_stringify (JObj c1)) _) as [text|e|]; cbn [bind];
    eexists; rewrite <- app_assoc; reflexivity.
Qed.

(** C9. generateTWT leaves the store as it found it apart from the objects it
    creates: it returns what the pure reading returns for the values of the two
    arguments, every object that existed before the call has the properties it
    had, and so the claims and the options of the caller read the same
    afterwards, whether the call returned a token or threw. *)
Theorem generateTWT_store_frame (now : Z) (props _options : Arg) (st : Store) :
  valid_arg st props -> valid_arg st _options ->
  let result := fst (generateTWT_store now props _options st) in
  let st' := snd (generateTWT_store now props _options st) in
  result = generateTWT now (arg_value st props) (arg_value st _options)
  /\ (forall r, (r < List.length st)%nat -> nth_error st' r = nth_error st r)
  /\ arg_value st' props = arg_value st props
  /\ arg_value st' _options = arg_value st _options.
Proof.
  intros Hp Ho.
  destruct (generateTWT_store_run now props _options st Hp Ho) as (tl & Hrun).
  rewrite Hrun. cbn [fst snd].
  split; [reflexivity|]. split; [|split].
  - intros r Hr. apply nth_error_app1. exact Hr.
  - apply arg_value_app. exact Hp.
  - apply arg_value_app. exact Ho.
Qed.

(** The frame theorem at a store that holds the claims and the options of the test. *)
Lemma generateTWT_store_frame_witness :
  fst (generateTWT_store 1700000000 (ByRef 0) (ByRef 1)
         [[("u", JStr "test")]; [("encodedSecret", JStr test_encodedSecret)]])
  = generateTWT 1700000000
      (arg_value [[("u", JStr "test")]; [("encodedSecret", JStr test_encodedSecret)]]
                 (ByRef 0))
      (arg_value [[("u", JStr "test")]; [("encodedSecret", JStr test_encodedSecret)]]
                 (ByRef 1))
  /\ (forall r,
        (r < List.length [[("u", JStr "test")];
                          [("encodedSecret", JStr test_encodedSecret)]])%nat ->
        nth_error
          (snd (generateTWT_store 1700000000 (ByRef 0) (ByRef 1)
                  [[("u", JStr "test")]; [("encodedSecret", JStr test_encodedSecret)]]))
          r
        = nth_error [[("u", JStr "test")]; [("encodedSecret", JStr test_encodedSecret)]] r)
  /\ arg_value
       (snd (generateTWT_store 1700000000 (ByRef 0) (ByRef 1)
               [[("u", JStr "test")]; [("encodedSecret", JStr test_encodedSecret)]]))
       (ByRef 0)
     = arg_value [[("u", JStr "test")]; [("encodedSecret", JStr test_encodedSecret)]]
                 (ByRef 0)
  /\ arg_value
       (snd (generateTWT_store 1700000000 (ByRef 0) (ByRef 1)
               [[("u", JStr "test")]; [("encodedSecret", JStr test_encodedSecret)]]))
       (ByRef 1)
     = arg_value [[("u", JStr "test")]; [("encodedSecret", JStr test_encodedSecret)]]
                 (ByRef 1).
Proof.
  apply (generateTWT_store_frame 1700000000 (ByRef 0) (ByRef 1)
           [[("u", JStr "test")]; [("encodedSecret", JStr test_encodedSecret)]]).
  - cbn. lia.
  - cbn. lia.
Defined.

(** ** The cipher *)

Lemma lxor_byte_bound (a b : N) : (a < 256 -> b < 256 -> N.lxor a b < 256)%N.
Proof.
  intros Ha Hb.
  destruct (N.eq_dec (N.lxor a b) 0) as [E|E]; [rewrite E; lia|].
  change 256%N with (2 ^ 8)%N. apply N.log2_lt_pow2; [lia|].
  apply (N.le_lt_trans _ _ _ (N.log2_lxor a b)).
  apply N.max_lub_lt.
  - destruct (N.eq_dec a 0) as [->|Na]; [cbn; lia|].
    apply N.log2_lt_pow2; [lia|exact Ha].
  - destruct (N.eq_dec b 0) as [->|Nb]; [cbn; lia|].
    apply N.log2_lt_pow2; [lia|exact Hb].
Qed.

Lemma byte_xor_involutive (a k : byte) : byte_xor (byte_xor a k) k = a.
Proof.
  unfold byte_xor.
  pose proof (Byte.to_N_bounded a) as Ha. pose proof (Byte.to_N_bounded k) as Hk.
  rewrite to_N_byte_of_N by (apply lxor_byte_bound; lia).
  rewrite N.lxor_assoc, N.lxor_nilpotent, N.lxor_0_r.
  apply byte_of_to_N.
Qed.

Lemma xor_bytes_length (data stream : Buffer) :
  (List.length data <= List.length stream)%nat ->
  List.length (xor_bytes data stream) = List.length data.
Proof.
  revert stream. induction data as [|d data IH]; intros [|s stream] H; simpl in *;
    try reflexivity; try lia.
  rewrite IH by lia. reflexivity.
Qed.

Lemma xor_bytes_involutive (data stream : Buffer) :
  (List.length data <= List.length stream)%nat ->
  xor_bytes (xor_bytes data stream) stream = data.
Proof.
  revert stream. induction data as [|d data IH]; intros [|s stream] H; simpl in *;
    try reflexivity; try lia.
  rewrite byte_xor_involutive, IH by lia. reflexivity.
Qed.

Lemma concat_length_const {A : Type} (l : list (list A)) (n : nat) :
  Forall (fun x => List.length x = n) l ->
  List.length (List.concat l) = (n * List.length l)%nat.
Proof.
  induction 1 as [|x l Hx _ IH]; simpl; [lia|].
  rewrite length_app, Hx, IH. lia.
Qed.


(** The words of the key schedule have four bytes each. *)
Lemma xor_list_length (a b : list N) :
  List.length (AES.xor_list a b) = Nat.min (List.length a) (List.length b).
Proof. unfold AES.xor_list. rewrite length_map, length_combine. reflexivity. Qed.

Lemma nth_Forall_length (l : list (list N)) (k n : nat) :
  Forall (fun w => List.length w = n) l -> (k < List.length l)%nat ->
  List.length (nth k l []) = n.
Proof.
  intros Hall Hk. rewrite Forall_forall in Hall. apply Hall. apply nth_In. exact Hk.
Qed.

Lemma In_skipn_list {A : Type} (x : A) (n : nat) (l : list A) :
  In x (skipn n l) -> In x l.
Proof. intros H. rewrite <- (firstn_skipn n l). apply in_or_app. right. exact H. Qed.

Lemma In_firstn_list {A : Type} (x : A) (n : nat) (l : list A) :
  In x (firstn n l) -> In x l.
Proof. intros H. rewrite <- (firstn_skipn n l). apply in_or_app. left. exact H. Qed.

Lemma expand_words (count i : nat) (rev_words : list (list N)) :
  Forall (fun w => List.length w = 4%nat) rev_words ->
  (8 <= List.length rev_words)%nat ->
  Forall (fun w => List.length w = 4%nat) (AES.expand count i rev_words)
  /\ List.length (AES.expand count i rev_words) = (count + List.length rev_words)%nat.
Proof.
  revert i rev_words. induction count as [|count IH]; intros i rw Hall Hlen.
  - cbn [AES.expand]. split; [apply Forall_rev; exact Hall|apply length_rev].
  - cbn [AES.expand].
    assert (Hprev : List.length (nth 0 rw []) = 4%nat)
      by (apply nth_Forall_length; [exact Hall|lia]).
    assert (Hold : List.length (nth 7 rw []) = 4%nat)
      by (apply nth_Forall_length; [exact Hall|lia]).
    set (temp := if (i mod 8 =? 0)%nat
                 then AES.xor_list (map AES.sub_byte (AES.rot_word (nth 0 rw [])))
                                   (AES.rcon (i / 8))
                 else if (i mod 8 =? 4)%nat then map AES.sub_byte (nth 0 rw [])
                 else nth 0 rw []).
    assert (Htemp : List.length temp = 4%nat).
    { subst temp. destruct (i mod 8 =? 0)%nat; [|destruct (i mod 8 =? 4)%nat].
      - rewrite xor_list_length, length_map.
        destruct (nth 0 rw []) as [|a [|b [|c [|d [|]]]]]; try discriminate Hprev.
        reflexivity.
      - rewrite length_map. exact Hprev.
      - exact Hprev. }
    destruct (IH (S i) (AES.xor_list (nth 7 rw []) temp :: rw)) as (H1 & H2).
    + constructor; [|exact Hall]. rewrite xor_list_length, Hold, Htemp. reflexivity.
    + cbn [List.length]. lia.
    + split; [exact H1|]. rewrite H2. cbn [List.length]. lia.
Qed.

Lemma key_schedule_lengths (key : list N) :
  List.length key = 32%nat ->
  List.length (AES.key_schedule key) = 15%nat
  /\ Forall (fun rk => List.length rk = 16%nat) (AES.key_schedule key).
Proof.
  intros Hkey. unfold AES.key_schedule.
  assert (Hwords : Forall (fun w => List.length w = 4%nat) (rev (AES.key_words key))
                   /\ List.length (rev (AES.key_words key)) = 8%nat).
  { split; [|reflexivity]. apply Forall_rev. unfold AES.key_words.
    repeat constructor; rewrite length_firstn, ?length_skipn; lia. }
  destruct Hwords as (Hw4 & Hw8).
  destruct (expand_words 52 8 _ Hw4 ltac:(lia)) as (Hall & Hlen).
  rewrite Hw8 in Hlen.
  set (w := AES.expand 52 8 (rev (AES.key_words key))) in *.
  split; [rewrite length_map, length_seq; reflexivity|].
  apply Forall_forall. intros rk Hin.
  apply in_map_iff in Hin as (r & <- & Hr). apply in_seq in Hr.
  rewrite (concat_length_const _ 4).
  - rewrite length_firstn, length_skipn. lia.
  - apply Forall_forall. intros x Hx.
    rewrite Forall_forall in Hall. apply Hall.
    apply (In_skipn_list _ (4 * r) w). exact (In_firstn_list _ _ _ Hx).
Qed.

(** Whatever the block, AES-256 returns sixteen bytes. *)
Lemma encrypt_block_length (key : list N) (block : list N) :
  List.length key = 32%nat ->
  List.length (AES.encrypt_block (AES.key_schedule key) block) = 16%nat.
Proof.
  intros Hkey. destruct (key_schedule_lengths key Hkey) as (Hlen & Hall).
  destruct (AES.key_schedule key) as [|rk0 rest]; [discriminate Hlen|].
  unfold AES.encrypt_block, AES.final_round.
  rewrite xor_list_length.
  unfold AES.shift_rows. rewrite length_map, length_seq.
  rewrite (nth_Forall_length rest 13 16).
  - reflexivity.
  - inversion Hall; assumption.
  - cbn [List.length] in Hlen. lia.
Qed.
Lemma counters_length (n : nat) (v : N) : List.length (AES.counters n v) = n.
Proof. revert v. induction n as [|n IH]; intros v; simpl; [reflexivity|]. rewrite IH. reflexivity. Qed.

Lemma keystream_length (key iv : Buffer) (len : nat) :
  List.length key = 32%nat -> List.length (AES.keystream key iv len) = len.
Proof.
  intros Hkey. unfold AES.keystream.
  rewrite length_map, length_firstn.
  rewrite (concat_length_const _ 16).
  - rewrite length_map, counters_length.
    pose proof (Nat.div_mod_eq len 16) as Hdiv.
    pose proof (Nat.mod_upper_bound len 16 ltac:(lia)) as Hmod. lia.
  - apply Forall_forall. intros x Hx. apply in_map_iff in Hx as (b & <- & _).
    apply encrypt_block_length. rewrite length_map. exact Hkey.
Qed.

(** In counter mode the cipher undoes itself. *)
Lemma createCipheriv_involutive (key iv : Buffer) (cipher : Buffer -> Buffer)
  (data : Buffer) :
  createCipheriv key iv = Ok cipher -> cipher (cipher data) = data.
Proof.
  unfold createCipheriv. intros H.
  destruct (List.length iv =? 16)%nat; [|discriminate H].
  destruct (List.length key =? 32)%nat eqn:Ek; [|discriminate H].
  cbn [negb] in H. inversion H. apply Nat.eqb_eq in Ek.
  rewrite xor_bytes_length by (rewrite keystream_length; [lia|exact Ek]).
  apply xor_bytes_involutive. rewrite keystream_length; [lia|exact Ek].
Qed.

(** A secret that passes validateEncodedSecret is one the cipher accepts. *)
Lemma validateEncodedSecret_Ok (secret : JSValue) :
  validateEncodedSecret secret = Ok tt ->
  exists props secretKey iv key ivb cipher,
    getSaltProperties secret = Ok props
    /\ get_field props "secretKey" = Ok secretKey
    /\ get_field props "iv" = Ok iv
    /\ fromURLSafeBase64_buffer secretKey = Ok key
    /\ fromURLSafeBase64_buffer iv = Ok ivb
    /\ createCipheriv key ivb = Ok cipher.
Proof.
  unfold validateEncodedSecret. intros H.
  destruct (negb (truthy secret)); [discriminate|].
  apply bind_Ok in H as (props & Hp & H). apply try_catch_Ok in Hp.
  apply bind_Ok in H as (secretKey & Hk & H).
  apply bind_Ok in H as (iv & Hi & H).
  destruct (negb (truthy secretKey) || negb (truthy iv))%bool; [discriminate|].
  apply bind_Ok in H as (key & Hkey & H).
  destruct (List.length key =? 32)%nat eqn:Ek; [|discriminate]. cbn [negb] in H.
  apply bind_Ok in H as (ivb & Hivb & H).
  destruct (List.length ivb =? 16)%nat eqn:Ei; [|discriminate].
  exists props, secretKey, iv, key, ivb. eexists.
  repeat split; try eassumption.
  unfold createCipheriv. rewrite Ek, Ei. reflexivity.
Qed.

Lemma fromURLSafeBase64_buffer_roundtrip (b : Buffer) :
  fromURLSafeBase64_buffer (JStr (toURLSafeBase64 (DBuffer b))) = Ok b.
Proof.
  unfold fromURLSafeBase64_buffer, fromURLSafeBase64, toURLSafeBase64, toBase64.
  rewrite convertBase64_roundtrip by apply base64_encode_chars.
  rewrite base64_decode_encode. reflexivity.
Qed.

(** With a valid secret, encrypt returns a token, and decrypt reads the text
    back from it. *)
Lemma decrypt_encrypt (secret : JSValue) (text : string) :
  validateEncodedSecret secret = Ok tt ->
  exists token,
    encrypt text secret = Ok token
    /\ decrypt (JStr token) secret = Ok (utf8_decode (utf8_encode text)).
Proof.
  intros H.
  destruct (validateEncodedSecret_Ok secret H)
    as (props & secretKey & iv & key & ivb & cipher & Hp & Hk & Hi & Hkey & Hivb & Hc).
  unfold encrypt, decrypt.
  rewrite Hp; cbn [bind]. rewrite Hk; cbn [bind]. rewrite Hi; cbn [bind].
  rewrite Hkey; cbn [bind]. rewrite Hivb; cbn [bind]. rewrite Hc; cbn [bind].
  eexists. split; [reflexivity|].
  rewrite fromURLSafeBase64_buffer_roundtrip. cbn [bind].
  rewrite (createCipheriv_involutive key ivb cipher _ Hc). reflexivity.
Qed.

(** ** UTF-8 *)

(** Induction over well-formed UTF-8, one scalar value at a time. *)
Lemma utf8_valid_ind (P : Buffer -> Prop) :
  P [] ->
  (forall b lo hi rest,
     utf8_lead b = Some (0%nat, lo, hi) -> utf8_valid rest = true -> P rest ->
     P (b :: rest)) ->
  (forall b lo hi c1 rest,
     utf8_lead b = Some (1%nat, lo, hi) -> in_range lo hi c1 = true ->
     utf8_valid rest = true -> P rest -> P (b :: c1 :: rest)) ->
  (forall b lo hi c1 c2 rest,
     utf8_lead b = Some (2%nat, lo, hi) -> in_range lo hi c1 = true ->
     in_range 128 191 c2 = true ->
     utf8_valid rest = true -> P rest -> P (b :: c1 :: c2 :: rest)) ->
  (forall b lo hi c1 c2 c3 rest,
     utf8_lead b = Some (3%nat, lo, hi) -> in_range lo hi c1 = true ->
     in_range 128 191 c2 = true -> in_range 128 191 c3 = true ->
     utf8_valid rest = true -> P rest -> P (b :: c1 :: c2 :: c3 :: rest)) ->
  forall l, utf8_valid l = true -> P l.
Proof.
  intros H0 H1 H2 H3 H4. fix IH 1. intros [|b rest]; [intros _; exact H0|].
  cbn [utf8_valid].
  destruct (utf8_lead b) as [[[n lo] hi]|] eqn:El; [|discriminate].
  destruct n as [|[|[|[|n]]]]; try discriminate.
  - intros Hv. apply (H1 b lo hi rest El Hv). apply IH. exact Hv.
  - destruct rest as [|c1 rest]; [discriminate|].
    intros Hv. apply andb_true_iff in Hv as (Hc1 & Hv).
    apply (H2 b lo hi c1 rest El Hc1 Hv). apply IH. exact Hv.
  - destruct rest as [|c1 [|c2 rest]]; try discriminate.
    intros Hv. apply andb_true_iff in Hv as (Hv' & Hv).
    apply andb_true_iff in Hv' as (Hc1 & Hc2).
    apply (H3 b lo hi c1 c2 rest El Hc1 Hc2 Hv). apply IH. exact Hv.
  - destruct rest as [|c1 [|c2 [|c3 rest]]]; try discriminate.
    intros Hv. apply andb_true_iff in Hv as (Hv' & Hv).
    apply andb_true_iff in Hv' as (Hv' & Hc3).
    apply andb_true_iff in Hv' as (Hc1 & Hc2).
    apply (H4 b lo hi c1 c2 c3 rest El Hc1 Hc2 Hc3 Hv). apply IH. exact Hv.
Qed.

(** The reader leaves well-formed bytes as they are. *)
Lemma utf8_scan_valid (l : Buffer) :
  utf8_valid l = true -> utf8_scan [] 0 128 191 l = l.
Proof.
  revert l. apply utf8_valid_ind.
  - reflexivity.
  - intros b lo hi rest El Hv IH. cbn [utf8_scan]. rewrite El. fold utf8_scan. rewrite IH. reflexivity.
  - intros b lo hi c1 rest El H1 Hv IH.
    cbn [utf8_scan]. rewrite El. cbn [utf8_scan]. rewrite H1.
    fold utf8_scan. rewrite IH. reflexivity.
  - intros b lo hi c1 c2 rest El H1 H2 Hv IH.
    cbn [utf8_scan]. rewrite El. cbn [utf8_scan]. rewrite H1.
    cbn [utf8_scan]. rewrite H2. fold utf8_scan. rewrite IH. reflexivity.
  - intros b lo hi c1 c2 c3 rest El H1 H2 H3 Hv IH.
    cbn [utf8_scan]. rewrite El. cbn [utf8_scan]. rewrite H1.
    cbn [utf8_scan]. rewrite H2. cbn [utf8_scan]. rewrite H3.
    fold utf8_scan. rewrite IH. reflexivity.
Qed.

Lemma utf8_decode_encode (s : string) :
  well_formed s = true -> utf8_decode (utf8_encode s) = s.
Proof.
  unfold well_formed, utf8_decode. intros H.
  rewrite (utf8_scan_valid _ H). unfold utf8_encode.
  apply string_of_list_byte_of_string.
Qed.

Lemma utf8_valid_app (a b : Buffer) :
  utf8_valid a = true -> utf8_valid b = true -> utf8_valid (a ++ b) = true.
Proof.
  intros Ha Hb. revert a Ha. apply utf8_valid_ind.
  - exact Hb.
  - intros x lo hi rest El Hv IH. cbn [app utf8_valid]. rewrite El. exact IH.
  - intros x lo hi c1 rest El H1 Hv IH. cbn [app utf8_valid].
    rewrite El, H1. exact IH.
  - intros x lo hi c1 c2 rest El H1 H2 Hv IH. cbn [app utf8_valid].
    rewrite El, H1, H2. exact IH.
  - intros x lo hi c1 c2 c3 rest El H1 H2 H3 Hv IH. cbn [app utf8_valid].
    rewrite El, H1, H2, H3. exact IH.
Qed.

(** A property checked on each of the 256 characters holds of every one. *)
Lemma ascii_forall (P : ascii -> bool) :
  forallb P (map ascii_of_nat (seq 0 256)) = true -> forall c, P c = true.
Proof.
  intros H c. rewrite forallb_forall in H. apply H.
  apply in_map_iff. exists (nat_of_ascii c).
  split; [apply ascii_nat_embedding|].
  apply in_seq. pose proof (nat_ascii_bounded c). lia.
Qed.

Lemma byte_forall (P : byte -> bool) :
  forallb P (map (fun n => byte_of_N (N.of_nat n)) (seq 0 256)) = true ->
  forall b, P b = true.
Proof.
  intros H b. rewrite forallb_forall in H. apply H.
  apply in_map_iff. exists (N.to_nat (Byte.to_N b)).
  split; [rewrite N2Nat.id; apply byte_of_to_N|].
  apply in_seq. pose proof (Byte.to_N_bounded b). lia.
Qed.

Lemma to_N_byte_of_ascii (c : ascii) : Byte.to_N (byte_of_ascii c) = N_of_ascii c.
Proof. apply Byte.to_of_N. symmetry. apply byte_of_ascii_via_N. Qed.

Lemma utf8_lead_spec (b : byte) : utf8_lead_ok b = true.
Proof. revert b. apply byte_forall. vm_compute. reflexivity. Qed.

Lemma escape_char_spec (c : ascii) : escape_char_ok c = true.
Proof. revert c. apply ascii_forall. vm_compute. reflexivity. Qed.

Lemma list_byte_of_string_app (a b : string) :
  list_byte_of_string (a ++ b) = list_byte_of_string a ++ list_byte_of_string b.
Proof.
  induction a as [|c a IH]; [reflexivity|].
  change (list_byte_of_string (String c a ++ b))
    with (byte_of_ascii c :: list_byte_of_string (a ++ b)).
  rewrite IH. reflexivity.
Qed.

Lemma well_formed_app (a b : string) :
  well_formed a = true -> well_formed b = true -> well_formed (a ++ b) = true.
Proof.
  unfold well_formed, utf8_encode. intros Ha Hb.
  rewrite list_byte_of_string_app. apply utf8_valid_app; assumption.
Qed.

Lemma ascii_only_well_formed (s : string) :
  ascii_only s = true -> well_formed s = true.
Proof.
  unfold ascii_only, well_formed, utf8_encode, chars.
  induction s as [|c s IH]; [reflexivity|].
  cbn [list_ascii_of_string forallb]. intros H.
  apply andb_true_iff in H as (Hc & Hs).
  change (list_byte_of_string (String c s))
    with (byte_of_ascii c :: list_byte_of_string s).
  cbn [utf8_valid]. unfold utf8_lead. rewrite to_N_byte_of_ascii, Hc.
  apply IH. exact Hs.
Qed.

Lemma ascii_only_app (a b : string) :
  ascii_only a = true -> ascii_only b = true -> ascii_only (a ++ b) = true.
Proof.
  unfold ascii_only, chars. intros Ha Hb.
  induction a as [|c a IH]; [exact Hb|].
  cbn [append list_ascii_of_string forallb] in *.
  apply andb_true_iff in Ha as (Hc & Ha). rewrite Hc. exact (IH Ha).
Qed.

(** Escaping keeps a text well-formed: only ASCII characters are escaped, and
    their escapes are ASCII. *)
Lemma quote_body_bytes_valid (l : Buffer) :
  utf8_valid l = true ->
  utf8_valid (list_byte_of_string (quote_body (string_of_list_byte l))) = true.
Proof.
  assert (Hhigh : forall b, (128 <= Byte.to_N b)%N ->
            escape_char (ascii_of_byte b) = String (ascii_of_byte b) "").
  { intros b Hb. pose proof (escape_char_spec (ascii_of_byte b)) as H.
    unfold escape_char_ok in H.
    rewrite <- (byte_of_ascii_of_byte b), to_N_byte_of_ascii in Hb.
    replace (N_of_ascii (ascii_of_byte b) <? 128)%N with false in H
      by (symmetry; apply N.ltb_ge; exact Hb).
    apply String.eqb_eq in H. exact H. }
  assert (Hcont : forall lo hi c, (128 <= lo)%N -> in_range lo hi c = true ->
            (128 <= Byte.to_N c)%N).
  { intros lo hi c Hlo H. unfold in_range in H.
    apply andb_true_iff in H as (H & _). apply N.leb_le in H. lia. }
  assert (Hlead : forall b n lo hi, utf8_lead b = Some (S n, lo, hi) ->
            (128 <= Byte.to_N b)%N /\ (128 <= lo)%N).
  { intros b n lo hi El. pose proof (utf8_lead_spec b) as H.
    unfold utf8_lead_ok in H. rewrite El in H.
    apply andb_true_iff in H as (H1 & H2). apply N.leb_le in H1, H2. auto. }
  assert (Hstep : forall b rest,
            list_byte_of_string (String (ascii_of_byte b) rest)
            = b :: list_byte_of_string rest).
  { intros b rest.
    change (list_byte_of_string (String (ascii_of_byte b) rest))
      with (byte_of_ascii (ascii_of_byte b) :: list_byte_of_string rest).
    rewrite byte_of_ascii_of_byte. reflexivity. }
  revert l. apply utf8_valid_ind.
  - reflexivity.
  - intros b lo hi rest El Hv IH.
    change (string_of_list_byte (b :: rest))
      with (String (ascii_of_byte b) (string_of_list_byte rest)).
    cbn [quote_body]. rewrite list_byte_of_string_app.
    apply utf8_valid_app; [|exact IH].
    apply ascii_only_well_formed.
    pose proof (escape_char_spec (ascii_of_byte b)) as H.
    unfold escape_char_ok in H.
    pose proof (utf8_lead_spec b) as Hl. unfold utf8_lead_ok in Hl. rewrite El in Hl.
    rewrite <- (byte_of_ascii_of_byte b), to_N_byte_of_ascii in Hl.
    rewrite Hl in H. exact H.
  - intros b lo hi c1 rest El H1 Hv IH.
    destruct (Hlead _ _ _ _ El) as (Hb & Hlo).
    change (string_of_list_byte (b :: c1 :: rest))
      with (String (ascii_of_byte b) (String (ascii_of_byte c1) (string_of_list_byte rest))).
    cbn [quote_body].
    rewrite (Hhigh b Hb), (Hhigh c1 (Hcont _ _ _ Hlo H1)).
    cbn [append]. rewrite !Hstep. cbn [utf8_valid]. rewrite El, H1. exact IH.
  - intros b lo hi c1 c2 rest El H1 H2 Hv IH.
    destruct (Hlead _ _ _ _ El) as (Hb & Hlo).
    change (string_of_list_byte (b :: c1 :: c2 :: rest))
      with (String (ascii_of_byte b) (String (ascii_of_byte c1)
              (String (ascii_of_byte c2) (string_of_list_byte rest)))).
    cbn [quote_body].
    rewrite (Hhigh b Hb), (Hhigh c1 (Hcont _ _ _ Hlo H1)),
      (Hhigh c2 (Hcont 128%N _ _ ltac:(lia) H2)).
    cbn [append]. rewrite !Hstep. cbn [utf8_valid]. rewrite El, H1, H2. exact IH.
  - intros b lo hi c1 c2 c3 rest El H1 H2 H3 Hv IH.
    destruct (Hlead _ _ _ _ El) as (Hb & Hlo).
    change (string_of_list_byte (b :: c1 :: c2 :: c3 :: rest))
      with (String (ascii_of_byte b) (String (ascii_of_byte c1)
              (String (ascii_of_byte c2) (String (ascii_of_byte c3)
                 (string_of_list_byte rest))))).
    cbn [quote_body].
    rewrite (Hhigh b Hb), (Hhigh c1 (Hcont _ _ _ Hlo H1)),
      (Hhigh c2 (Hcont 128%N _ _ ltac:(lia) H2)),
      (Hhigh c3 (Hcont 128%N _ _ ltac:(lia) H3)).
    cbn [append]. rewrite !Hstep. cbn [utf8_valid]. rewrite El, H1, H2, H3. exact IH.
Qed.

Lemma quote_well_formed (s : string) :
  well_formed s = true -> well_formed (quote s) = true.
Proof.
  intros H. unfold quote.
  change (String dquote (quote_body s ++ String dquote ""))
    with (String dquote "" ++ (quote_body s ++ String dquote ""))%string.
  apply well_formed_app; [reflexivity|].
  apply well_formed_app; [|reflexivity].
  unfold well_formed, utf8_encode in *.
  rewrite <- (string_of_list_byte_of_string s) at 1.
  apply quote_body_bytes_valid. exact H.
Qed.

(** ** JSON: reading back what was written *)

Lemma JSValue_ind' (P : JSValue -> Prop) :
  P JUndefined -> P JNull -> (forall b, P (JBool b)) -> (forall n, P (JNum n)) ->
  (forall s, P (JStr s)) ->
  (forall l, Forall P l -> P (JArr l)) ->
  (forall o, Forall (fun p => P (snd p)) o -> P (JObj o)) ->
  forall v, P v.
Proof.
  intros Hu Hn Hb Hnum Hs Ha Ho. fix IH 1. intros [| |b|n|s|l|o].
  - exact Hu.
  - exact Hn.
  - apply Hb.
  - apply Hnum.
  - apply Hs.
  - apply Ha. induction l as [|x l IHl]; constructor; [apply IH|exact IHl].
  - apply Ho. induction o as [|[k x] o IHo]; constructor; [apply IH|exact IHo].
Qed.

Lemma stringify_JArr (l : list JSValue) :
  stringify (JArr l) = ("[" ++ stringify_elems true l ++ "]")%string.
Proof.
  cbn [stringify]. f_equal.
Qed.

Lemma stringify_JObj (o : Props) :
  stringify (JObj o) = ("{" ++ stringify_members true o ++ "}")%string.
Proof.
  cbn [stringify]. f_equal.
Qed.

Lemma char_class_spec (c : ascii) : char_class_ok c = true.
Proof. revert c. apply ascii_forall. vm_compute. reflexivity. Qed.

Lemma skip_ws_char (c : ascii) (rest : string) :
  is_json_space c = false -> skip_ws (String c rest) = String c rest.
Proof. intros H. cbn [skip_ws]. rewrite H. reflexivity. Qed.

Lemma delimited_skip_ws (rest : string) : delimited rest -> skip_ws rest = rest.
Proof.
  destruct rest as [|c rest]; [reflexivity|]. cbn [delimited]. intros H.
  apply skip_ws_char.
  pose proof (char_class_spec c) as Hc. unfold char_class_ok in Hc.
  apply andb_true_iff in Hc as (_ & Hc). rewrite H in Hc. cbn [implb] in Hc.
  repeat rewrite andb_true_iff in Hc. destruct Hc as ((((Hc & _) & _) & _) & _).
  apply negb_true_iff in Hc. exact Hc.
Qed.

(** *** Strings *)

Lemma parse_string_body_escape (c : ascii) (rest : string) :
  parse_string_body (escape_char c ++ rest) =
  match parse_string_body rest with
  | Ok (body, r) => Ok (String c body, r)
  | other => other
  end.
Proof.
  destruct c as [[] [] [] [] [] [] [] []]; reflexivity.
Qed.

Lemma append_assoc (a b c : string) : ((a ++ b) ++ c = a ++ (b ++ c))%string.
Proof. induction a as [|x a IH]; [reflexivity|]. cbn [append]. rewrite IH. reflexivity. Qed.

Lemma parse_string_body_quote (s rest : string) :
  parse_string_body (quote_body s ++ String dquote rest) = Ok (s, rest).
Proof.
  induction s as [|c s IH]; [reflexivity|].
  cbn [quote_body]. rewrite append_assoc, parse_string_body_escape, IH.
  reflexivity.
Qed.

(** *** Numbers *)

Lemma to_digits_app (fuel : nat) (radix n : N) (acc : string) :
  to_digits fuel radix n acc = (to_digits fuel radix n "" ++ acc)%string.
Proof.
  revert n acc. induction fuel as [|fuel IH]; intros n acc; [reflexivity|].
  rewrite !to_digits_S. destruct (n / radix =? 0)%N; [reflexivity|].
  rewrite (IH _ (String _ acc)), (IH _ (String _ "")), append_assoc. reflexivity.
Qed.

Lemma to_digits_all_digits (fuel : nat) (n : N) (acc : string) :
  forallb is_digit (chars acc) = true ->
  forallb is_digit (chars (to_digits fuel 10 n acc)) = true.
Proof.
  revert n acc. induction fuel as [|fuel IH]; intros n acc Hacc; [exact Hacc|].
  rewrite to_digits_S.
  assert (Hd : is_digit (digit_char (n mod 10)) = true).
  { pose proof (digit_char_spec 10 (n mod 10) (or_introl eq_refl)
                  ltac:(apply N.mod_lt; lia)) as H.
    unfold digit_char_ok in H. repeat rewrite andb_true_iff in H.
    destruct H as (_ & H). apply orb_true_iff in H as [H|H].
    - exact H.
    - apply N.leb_le in H. pose proof (N.mod_lt n 10 ltac:(lia)). lia. }
  assert (Hacc' : forallb is_digit (chars (String (digit_char (n mod 10)) acc)) = true).
  { cbn [chars list_ascii_of_string forallb]. rewrite Hd. exact Hacc. }
  destruct (n / 10 =? 0)%N; [exact Hacc'|]. apply IH. exact Hacc'.
Qed.

Lemma span_digits_app (ds rest : string) :
  forallb is_digit (chars ds) = true ->
  match rest with String c _ => is_digit c = false | EmptyString => True end ->
  span_digits (ds ++ rest) = (ds, rest).
Proof.
  intros Hds Hrest. induction ds as [|c ds IH].
  - cbn [append]. destruct rest as [|c rest]; [reflexivity|].
    cbn [span_digits]. rewrite Hrest. reflexivity.
  - cbn [chars list_ascii_of_string forallb] in Hds.
    apply andb_true_iff in Hds as (Hc & Hds).
    cbn [append span_digits]. rewrite Hc, (IH Hds). reflexivity.
Qed.

(** The text of a number has no leading zero. *)
Lemma to_digits_lead (fuel : nat) (n : N) (acc : string) :
  (n < 2 ^ N.of_nat (S fuel))%N -> (n = 0%N -> acc = "") ->
  exists d more,
    to_digits (S fuel) 10 n acc = String (digit_char d) more
    /\ (d < 10)%N /\ (d = 0%N -> more = "").
Proof.
  revert n acc. induction fuel as [|fuel IH]; intros n acc Hn Hacc.
  - change (2 ^ N.of_nat 1)%N with 2%N in Hn. rewrite to_digits_S.
    replace (n / 10)%N with 0%N by (symmetry; apply N.div_small; lia).
    cbn [N.eqb]. exists (n mod 10)%N, acc. split; [reflexivity|].
    rewrite N.mod_small by lia. split; [lia|exact Hacc].
  - rewrite to_digits_S. destruct (n / 10 =? 0)%N eqn:Eq.
    + apply N.eqb_eq in Eq. exists (n mod 10)%N, acc. split; [reflexivity|].
      split; [apply N.mod_lt; lia|].
      intros Hd. apply Hacc. rewrite (N.div_mod n 10) by lia. lia.
    + apply N.eqb_neq in Eq. apply IH; [|intros H; contradiction].
      replace (N.of_nat (S (S fuel))) with (N.succ (N.of_nat (S fuel))) in Hn by lia.
      rewrite N.pow_succ_r' in Hn.
      apply (N.le_lt_trans _ (n / 2)).
      * apply N.div_le_compat_l. lia.
      * apply N.Div0.div_lt_upper_bound; lia.
Qed.

Lemma digit_char_zero (d : N) : (d < 10)%N -> digit_char d = "0"%char -> d = 0%N.
Proof.
  intros Hd H. pose proof (digit_value_char 10 d (or_introl eq_refl) Hd) as Hv.
  rewrite H in Hv. vm_compute in Hv. inversion Hv. reflexivity.
Qed.

Lemma parse_number_N (negative : bool) (n : N) (rest : string) :
  delimited rest -> safe_integer (Z.of_N n) = true ->
  let text := (N_to_string 10 n ++ rest)%string in
  parse_number (if negative then String "-" text else text)
  = Ok (JNum (Fin (if negative then - Z.of_N n else Z.of_N n)), rest).
Proof.
  intros Hrest Hsafe text.
  assert (Hclass : match rest with
                   | String c _ => is_digit c = false
                   | EmptyString => True
                   end /\ starts_fraction rest = false).
  { destruct rest as [|c rest]; [split; reflexivity|]. cbn [delimited] in Hrest.
    pose proof (char_class_spec c) as Hc. unfold char_class_ok in Hc.
    apply andb_true_iff in Hc as (_ & Hc). rewrite Hrest in Hc. cbn [implb] in Hc.
    repeat rewrite andb_true_iff in Hc.
    destruct Hc as ((((_ & Hd) & H1) & H2) & H3).
    apply negb_true_iff in Hd, H1, H2, H3.
    split; [exact Hd|]. cbn [starts_fraction]. rewrite H1, H2, H3. reflexivity. }
  destruct Hclass as (Hnd & Hnf).
  assert (Hspan : span_digits text = (N_to_string 10 n, rest)).
  { apply span_digits_app; [|exact Hnd]. apply to_digits_all_digits. reflexivity. }
  destruct (to_digits_lead (N.to_nat (N.log2 n)) n "" (N_lt_pow2_log2 n) (fun _ => eq_refl))
    as (d & more & Hs & Hd & Hzero).
  fold (N_to_string 10 n) in Hs.
  assert (Hdigit : is_digit (digit_char d) = true /\ (digit_char d =? "-")%char = false).
  { pose proof (digit_char_spec 10 d (or_introl eq_refl) Hd) as H.
    unfold digit_char_ok in H. repeat rewrite andb_true_iff in H.
    destruct H as (((((_ & _) & _) & Hm) & _) & H). apply negb_true_iff in Hm.
    split; [|exact Hm].
    apply orb_true_iff in H as [H|H]; [exact H|apply N.leb_le in H; lia]. }
  destruct Hdigit as (Hisd & Hnm).
  assert (Hmain : (let '(ds, rest') := span_digits text in
                   match ds with
                   | EmptyString => Throw SyntaxError
                   | String d0 more0 =>
                       if ((d0 =? "0")%char && negb (more0 =? "")%string)%bool
                       then Throw SyntaxError
                       else if starts_fraction rest' then Unmodelled
                       else match read_digits 10 ds None with
                            | Some v =>
                                if safe_integer (Z.of_N v)
                                then Ok (JNum (Fin (if negative then - Z.of_N v
                                                    else Z.of_N v)), rest')
                                else Unmodelled
                            | None => Throw SyntaxError
                            end
                   end)
                  = Ok (JNum (Fin (if negative then - Z.of_N n else Z.of_N n)), rest)).
  { rewrite Hspan.
    pose proof (read_N_to_string 10 n (or_introl eq_refl)) as Hread.
    rewrite Hs in *.
    destruct (digit_char d =? "0")%char eqn:E0.
    - apply Ascii.eqb_eq in E0.
      pose proof (Hzero (digit_char_zero d Hd E0)) as Hm. subst more.
      cbn [String.eqb negb andb].
      rewrite Hnf, Hread, Hsafe. reflexivity.
    - cbn [andb]. rewrite Hnf, Hread, Hsafe. reflexivity. }
  unfold parse_number. destruct negative.
  - cbn [Ascii.eqb Bool.eqb]. exact Hmain.
  - subst text. rewrite Hs in *. cbn [append]. rewrite Hnm. exact Hmain.
Qed.

Lemma parse_number_Z (z : Z) (rest : string) :
  delimited rest -> safe_integer z = true ->
  parse_number (Z_to_string 10 z ++ rest) = Ok (JNum (Fin z), rest).
Proof.
  intros Hrest Hsafe. unfold Z_to_string.
  assert (Hs : safe_integer (Z.of_N (Z.abs_N z)) = true).
  { unfold safe_integer in *. rewrite N2Z.inj_abs_N, Z.abs_idemp. exact Hsafe. }
  destruct (z <? 0) eqn:Ez.
  - apply Z.ltb_lt in Ez.
    pose proof (parse_number_N true (Z.abs_N z) rest Hrest Hs) as H.
    cbn [append]. cbv zeta in H. rewrite H.
    rewrite N2Z.inj_abs_N, Z.abs_neq, Z.opp_involutive by lia. reflexivity.
  - apply Z.ltb_ge in Ez.
    pose proof (parse_number_N false (Z.abs_N z) rest Hrest Hs) as H.
    cbv zeta in H. rewrite H.
    rewrite N2Z.inj_abs_N, Z.abs_eq by lia. reflexivity.
Qed.

(** The first character of the text of a number. *)
Lemma Z_to_string_head (z : Z) :
  exists c more, Z_to_string 10 z = String c more
                 /\ (is_digit c || (c =? "-")%char)%bool = true.
Proof.
  unfold Z_to_string. destruct (z <? 0).
  - exists "-"%char. eexists. split; reflexivity.
  - destruct (to_digits_head 10 (N.to_nat (N.log2 (Z.abs_N z))) (Z.abs_N z) ""
                (or_introl eq_refl)) as (d & more & Hd & Hs).
    exists (digit_char d), more. split; [exact Hs|].
    pose proof (digit_char_spec 10 d (or_introl eq_refl) Hd) as H.
    unfold digit_char_ok in H. repeat rewrite andb_true_iff in H.
    destruct H as (_ & H). apply orb_true_iff in H as [H|H].
    + unfold is_digit. rewrite H. reflexivity.
    + apply N.leb_le in H. lia.
Qed.

(** *** Values *)

Lemma serializable_JArr (l : list JSValue) :
  serializable (JArr l) <-> Forall serializable l.
Proof.
  cbn [serializable]. induction l as [|x l IH].
  - split; [constructor|trivial].
  - split.
    + intros (Hx & Hl). constructor; [exact Hx|apply IH; exact Hl].
    + intros H. inversion H; subst. split; [assumption|apply IH; assumption].
Qed.

Lemma serializable_JObj (o : Props) :
  serializable (JObj o) <->
  enumeration_order o
  /\ Forall (fun p => well_formed (fst p) = true /\ serializable (snd p)) o.
Proof.
  cbn [serializable].
  apply and_iff_compat_l.
  induction o as [|[k x] o IH].
  - split; [constructor|trivial].
  - split.
    + intros (Hx & Ho). constructor; [exact Hx|apply IH; exact Ho].
    + intros H. inversion H; subst. split; [assumption|apply IH; assumption].
Qed.

(** The text of a value starts with a character that is neither white space
    nor a delimiter. *)
Lemma stringify_head (v : JSValue) :
  exists c more, stringify v = String c more
                 /\ is_json_space c = false /\ delimiter c = false.
Proof.
  destruct v as [| |[]|[| | |z]|s|l|o];
    try (eexists; eexists; split; [reflexivity|split; reflexivity]).
  cbn [stringify].
  destruct (Z_to_string_head z) as (c & more & Hs & Hc).
  exists c, more. split; [exact Hs|].
  pose proof (char_class_spec c) as H. unfold char_class_ok in H.
  apply andb_true_iff in H as (H & _). rewrite Hc in H. cbn [implb] in H.
  repeat rewrite andb_true_iff in H.
  destruct H as (((((((H1 & _) & _) & _) & _) & _) & _) & H2).
  apply negb_true_iff in H1, H2. split; assumption.
Qed.

Lemma delimiter_tests (c : ascii) :
  delimiter c = false ->
  (c =? ",")%char = false /\ (c =? "]")%char = false /\ (c =? "}")%char = false.
Proof.
  unfold delimiter. intros H.
  apply orb_false_iff in H as (H & H3). apply orb_false_iff in H as (H1 & H2). auto.
Qed.

Lemma size_elems_cons (x : JSValue) (l : list JSValue) :
  size_elems (x :: l) = S (size x + size_elems l).
Proof. reflexivity. Qed.

Lemma size_members_cons (p : string * JSValue) (o : Props) :
  size_members (p :: o) = S (size (snd p) + size_members o).
Proof. reflexivity. Qed.

Lemma elems_delimited (l : list JSValue) (rest : string) :
  delimited (stringify_elems false l ++ String "]" rest).
Proof. destruct l; reflexivity. Qed.

Lemma parse_elements_stringify (x : JSValue) (l : list JSValue) :
  Forall reads_back (x :: l) -> Forall serializable (x :: l) ->
  forall acc fuel rest,
    (size_elems (x :: l) <= fuel)%nat ->
    parse_elements fuel acc
      (stringify x ++ stringify_elems false l ++ String "]" rest)
    = Some (Ok (JArr (rev acc ++ x :: l), rest)).
Proof.
  revert x. induction l as [|y l IH]; intros x Hrb Hser acc fuel rest Hfuel;
    inversion Hrb as [|? ? Hx Hrb']; subst;
    inversion Hser as [|? ? Sx Hser']; subst;
    rewrite size_elems_cons in Hfuel;
    (destruct fuel as [|f]; [lia|]); cbn [parse_elements].
  - assert (H1 : (size x <= f)%nat) by lia.
    rewrite (Hx Sx f _ H1 (elems_delimited [] rest)).
    cbn [stringify_elems append].
    rewrite skip_ws_char by reflexivity.
    change ("]" =? ",")%char with false. change ("]" =? "]")%char with true.
    cbv iota. reflexivity.
  - assert (H1 : (size x <= f)%nat) by lia.
    rewrite (Hx Sx f _ H1 (elems_delimited (y :: l) rest)).
    cbn [stringify_elems separator append].
    rewrite skip_ws_char by reflexivity.
    change ("," =? ",")%char with true. cbv iota.
    rewrite append_assoc.
    assert (H2 : (size_elems (y :: l) <= f)%nat) by lia.
    rewrite (IH y Hrb' Hser' (x :: acc) f rest H2).
    cbn [rev]. rewrite <- app_assoc. reflexivity.
Qed.

Lemma members_delimited (o : Props) (rest : string) :
  Forall (fun p => well_formed (fst p) = true /\ serializable (snd p)) o ->
  delimited (stringify_members false o ++ String "}" rest).
Proof.
  intros H. destruct o as [|[k v] o]; [reflexivity|].
  inversion H as [|? ? (_ & Sv) _]; subst. cbn [snd] in Sv.
  cbn [stringify_members]. destruct v; try reflexivity. destruct Sv.
Qed.

Lemma stringify_members_cons (first : bool) (k : string) (v : JSValue) (o : Props) :
  serializable v ->
  stringify_members first ((k, v) :: o)
  = (separator first ++ quote k ++ ":" ++ stringify v ++ stringify_members false o)%string.
Proof. intros Sv. cbn [stringify_members]. destruct v; try reflexivity. destruct Sv. Qed.

Lemma parse_members_stringify (k : string) (x : JSValue) (o : Props) :
  Forall (fun p => reads_back (snd p)) ((k, x) :: o) ->
  Forall (fun p => well_formed (fst p) = true /\ serializable (snd p)) ((k, x) :: o) ->
  forall acc fuel rest,
    (size_members ((k, x) :: o) <= fuel)%nat ->
    parse_members fuel acc
      (quote k ++ ":" ++ stringify x ++ stringify_members false o ++ String "}" rest)
    = Some (Ok (JObj (fold_left (fun a p => obj_set (fst p) (snd p) a)
                                ((k, x) :: o) acc), rest)).
Proof.
  revert k x. induction o as [|[k' y] o IH]; intros k x Hrb Hser acc fuel rest Hfuel;
    inversion Hrb as [|? ? Hx Hrb']; subst;
    inversion Hser as [|? ? (_ & Sx) Hser']; subst;
    cbn [snd] in Hx, Sx;
    rewrite size_members_cons in Hfuel; cbn [snd] in Hfuel;
    (destruct fuel as [|f]; [lia|]); cbn [parse_members];
    unfold quote; cbn [append];
    (rewrite skip_ws_char by reflexivity);
    rewrite Ascii.eqb_refl; rewrite !append_assoc; cbn [append];
    rewrite parse_string_body_quote;
    (rewrite skip_ws_char by reflexivity);
    change (":" =? ":")%char with true; cbv iota.
  - assert (H1 : (size x <= f)%nat) by lia.
    rewrite (Hx Sx f _ H1 (members_delimited [] rest Hser')).
    cbn [stringify_members append].
    rewrite skip_ws_char by reflexivity.
    change ("}" =? ",")%char with false. change ("}" =? "}")%char with true.
    cbv iota. reflexivity.
  - assert (H1 : (size x <= f)%nat) by lia.
    rewrite (Hx Sx f _ H1 (members_delimited _ rest Hser')).
    inversion Hser' as [|? ? (_ & Sy) _]; subst. cbn [snd] in Sy.
    rewrite (stringify_members_cons false k' y o Sy).
    cbn [separator append].
    rewrite skip_ws_char by reflexivity.
    change ("," =? ",")%char with true. cbv iota.
    rewrite !append_assoc. cbn [append]. rewrite !append_assoc.
    assert (H2 : (size_members ((k', y) :: o) <= f)%nat) by lia.
    pose proof (IH k' y Hrb' Hser' (obj_set k x acc) f rest H2) as E.
    cbn [append] in E. rewrite E. reflexivity.
Qed.

(** JSON.parse reads back what JSON.stringify wrote. *)
Lemma parse_value_stringify (v : JSValue) : reads_back v.
Proof.
  induction v as [| |b|n|s|l IHl|o IHo] using JSValue_ind';
    intros Sv fuel rest Hfuel Hrest;
    (destruct fuel as [|f]; [cbn [size] in Hfuel; lia|]).
  - destruct Sv.
  - reflexivity.
  - destruct b; reflexivity.
  - destruct n as [| | |z]; [destruct Sv ..|]. cbn [serializable] in Sv.
    cbn [stringify].
    destruct (Z_to_string_head z) as (c & more & Hs & Hc).
    pose proof (parse_number_Z z rest Hrest Sv) as Hnum.
    rewrite Hs in *. cbn [append] in *.
    pose proof (char_class_spec c) as H. unfold char_class_ok in H.
    apply andb_true_iff in H as (H & _). rewrite Hc in H. cbn [implb] in H.
    repeat rewrite andb_true_iff in H.
    destruct H as (((((((H1 & H2) & H3) & H4) & H5) & H6) & H7) & _).
    apply negb_true_iff in H1, H2, H3, H4, H5, H6, H7.
    cbn [parse_value]. rewrite skip_ws_char by exact H1.
    rewrite H2, H3, H4, H5, H6, H7.
    rewrite orb_comm in Hc. rewrite Hc. rewrite Hnum. reflexivity.
  - cbn [stringify parse_value]. unfold quote. cbn [append].
    rewrite skip_ws_char by reflexivity.
    change (dquote =? "{")%char with false. change (dquote =? "[")%char with false.
    rewrite Ascii.eqb_refl. cbv iota.
    rewrite append_assoc. cbn [append]. rewrite parse_string_body_quote. reflexivity.
  - apply serializable_JArr in Sv.
    rewrite stringify_JArr. cbn [append parse_value].
    rewrite skip_ws_char by reflexivity.
    change ("[" =? "{")%char with false. change ("[" =? "[")%char with true. cbv iota.
    rewrite append_assoc. cbn [append].
    destruct l as [|x l].
    + cbn [stringify_elems append].
      rewrite skip_ws_char by reflexivity.
      change ("]" =? "]")%char with true. reflexivity.
    + cbn [stringify_elems separator append].
      destruct (stringify_head x) as (c & more & Hs & Hsp & Hd).
      destruct (delimiter_tests c Hd) as (_ & Hb & _).
      pose proof (parse_elements_stringify x l IHl Sv [] f rest) as Hpe.
      rewrite append_assoc. rewrite Hs in *. cbn [append] in *.
      rewrite skip_ws_char by exact Hsp. rewrite Hb.
      apply Hpe. cbn [size] in Hfuel. unfold size_elems. lia.
  - apply serializable_JObj in Sv. destruct Sv as (Horder & Sv).
    rewrite stringify_JObj. cbn [append parse_value].
    rewrite skip_ws_char by reflexivity.
    change ("{" =? "{")%char with true. cbv iota.
    rewrite append_assoc. cbn [append].
    destruct o as [|[k x] o].
    + cbn [stringify_members append].
      rewrite skip_ws_char by reflexivity.
      change ("}" =? "}")%char with true. reflexivity.
    + inversion Sv as [|? ? (_ & Sx) _]; subst. cbn [snd] in Sx.
      rewrite (stringify_members_cons true k x o Sx).
      cbn [separator append].
      pose proof (parse_members_stringify k x o IHo Sv [] f rest) as Hpm.
      rewrite !append_assoc.
      unfold quote in *. cbn [append] in *.
      rewrite skip_ws_char by reflexivity.
      change (dquote =? "}")%char with false. cbv iota.
      rewrite (append_assoc (stringify x)).
      rewrite Hpm by (cbn [size] in Hfuel; unfold size_members; lia).
      unfold enumeration_order, build_props in Horder. rewrite Horder. reflexivity.
Qed.

Lemma append_empty (a : string) : (a ++ "")%string = a.
Proof. induction a as [|c a IH]; cbn [append]; [reflexivity|now rewrite IH]. Qed.

Lemma length_append (a b : string) :
  String.length (a ++ b) = (String.length a + String.length b)%nat.
Proof. induction a as [|c a IH]; cbn [append String.length]; [reflexivity|now rewrite IH]. Qed.

(** The text of a value has at least one character for each of its nodes. *)
Lemma size_le_length (v : JSValue) :
  serializable v -> (size v <= String.length (stringify v))%nat.
Proof.
  induction v as [| |b|n|s|l IHl|o IHo] using JSValue_ind'; intros Sv.
  - destruct Sv.
  - cbn. lia.
  - destruct b; cbn; lia.
  - destruct (stringify_head (JNum n)) as (c & more & Hs & _).
    rewrite Hs. cbn. lia.
  - cbn [stringify size]. unfold quote. cbn. lia.
  - apply serializable_JArr in Sv. rewrite stringify_JArr.
    cbn [size]. fold (size_elems l).
    cbn [append String.length]. rewrite length_append. cbn [String.length].
    enough (forall first, (size_elems l <= String.length (stringify_elems first l)
                                           + if first then 1 else 0)%nat)
      as H by (specialize (H true); cbv iota in H; lia).
    induction l as [|x l IH]; intros first; [cbn; lia|].
    inversion IHl as [|? ? Hx IHl']; subst. inversion Sv as [|? ? Sx Sv']; subst.
    rewrite size_elems_cons. cbn [stringify_elems].
    rewrite !length_append.
    specialize (IH IHl' Sv' false). specialize (Hx Sx). cbv iota in IH.
    destruct first; cbn [separator String.length]; lia.
  - apply serializable_JObj in Sv. destruct Sv as (_ & Sv). rewrite stringify_JObj.
    cbn [size]. fold (size_members o).
    cbn [append String.length]. rewrite length_append. cbn [String.length].
    enough (forall first, (size_members o <= String.length (stringify_members first o))%nat)
      as H by (specialize (H true); lia).
    induction o as [|[k x] o IH]; intros first; [cbn; lia|].
    inversion IHo as [|? ? Hx IHo']; subst. inversion Sv as [|? ? (_ & Sx) Sv']; subst.
    cbn [snd] in Hx, Sx.
    rewrite size_members_cons. cbn [snd].
    rewrite (stringify_members_cons first k x o Sx).
    rewrite !length_append.
    specialize (IH IHo' Sv' false). specialize (Hx Sx).
    unfold quote. cbn [String.length append]. lia.
Qed.

(** [JSON.parse(JSON.stringify(v))] is [v] again. *)
Lemma JSON_parse_stringify (v : JSValue) :
  serializable v -> JSON_parse (stringify v) = Ok v.
Proof.
  intros Sv. unfold JSON_parse.
  pose proof (size_le_length v Sv) as Hsize.
  assert (Hfuel : (size v <= 2 * String.length (stringify v) + 2)%nat) by lia.
  pose proof (parse_value_stringify v Sv _ "" Hfuel I) as H.
  rewrite append_empty in H. rewrite H. reflexivity.
Qed.

Lemma serializable_numbers_safe (v : JSValue) :
  serializable v -> numbers_safe v = true.
Proof.
  induction v as [| |b|n|s|l IHl|o IHo] using JSValue_ind'; intros Sv;
    try reflexivity.
  - destruct n as [| | |z]; [destruct Sv ..|exact Sv].
  - apply serializable_JArr in Sv. cbn [numbers_safe].
    apply forallb_forall. intros x Hin.
    rewrite Forall_forall in IHl, Sv. auto.
  - apply serializable_JObj in Sv. destruct Sv as (_ & Sv). cbn [numbers_safe].
    apply forallb_forall. intros p Hin.
    rewrite Forall_forall in IHo, Sv. apply IHo; [exact Hin|apply Sv; exact Hin].
Qed.

Lemma JSON_stringify_serializable (v : JSValue) :
  serializable v -> JSON_stringify v = Ok (stringify v).
Proof.
  intros Sv. unfold JSON_stringify. now rewrite serializable_numbers_safe.
Qed.

Lemma Z_to_string_ascii (z : Z) : ascii_only (Z_to_string 10 z) = true.
Proof.
  assert (forall n, ascii_only (N_to_string 10 n) = true) as HN.
  { intros n. unfold ascii_only, N_to_string.
    pose proof (to_digits_all_digits (S (N.to_nat (N.log2 n))) n "" eq_refl) as H.
    rewrite forallb_forall in H. apply forallb_forall. intros c Hin.
    specialize (H c Hin). unfold is_digit in H.
    apply andb_true_iff in H as (_ & H). apply N.leb_le in H. apply N.ltb_lt. lia. }
  unfold Z_to_string. destruct (z <? 0); [|apply HN].
  change (ascii_only ("-" ++ N_to_string 10 (Z.abs_N z)) = true).
  apply ascii_only_app; [reflexivity|apply HN].
Qed.

(** The text of a value is a JavaScript string without lone surrogates: its
    UTF-8 encoding decodes to it. *)
Lemma stringify_well_formed (v : JSValue) :
  serializable v -> well_formed (stringify v) = true.
Proof.
  induction v as [| |b|n|s|l IHl|o IHo] using JSValue_ind'; intros Sv.
  - destruct Sv.
  - reflexivity.
  - destruct b; reflexivity.
  - destruct n as [| | |z]; [destruct Sv ..|].
    apply ascii_only_well_formed, Z_to_string_ascii.
  - apply quote_well_formed. exact Sv.
  - apply serializable_JArr in Sv. rewrite stringify_JArr.
    apply (well_formed_app "["); [reflexivity|].
    apply well_formed_app; [|reflexivity].
    enough (forall first, well_formed (stringify_elems first l) = true) as H
      by apply H.
    induction l as [|x l IH]; intros first; [reflexivity|].
    inversion IHl as [|? ? Hx IHl']; subst. inversion Sv as [|? ? Sx Sv']; subst.
    cbn [stringify_elems].
    apply well_formed_app; [destruct first; reflexivity|].
    apply well_formed_app; [apply Hx; exact Sx|apply IH; assumption].
  - apply serializable_JObj in Sv. destruct Sv as (_ & Sv). rewrite stringify_JObj.
    apply (well_formed_app "{"); [reflexivity|].
    apply well_formed_app; [|reflexivity].
    enough (forall first, well_formed (stringify_members first o) = true) as H
      by apply H.
    induction o as [|[k x] o IH]; intros first; [reflexivity|].
    inversion IHo as [|? ? Hx IHo']; subst. inversion Sv as [|? ? (Hk & Sx) Sv']; subst.
    cbn [fst snd] in Hx, Hk, Sx.
    rewrite (stringify_members_cons first k x o Sx).
    apply well_formed_app; [destruct first; reflexivity|].
    apply well_formed_app; [apply quote_well_formed; exact Hk|].
    apply (well_formed_app ":"); [reflexivity|].
    apply well_formed_app; [apply Hx; exact Sx|apply IH; assumption].
Qed.

(** ** JSON.parse: the fuel is enough *)

Lemma skip_ws_length (s : string) :
  (String.length (skip_ws s) <= String.length s)%nat.
Proof.
  induction s as [|c s IH]; cbn [skip_ws String.length]; [lia|].
  destruct (is_json_space c); cbn [String.length]; lia.
Qed.

Lemma skip_ws_cons (s : string) (c : ascii) (r : string) :
  skip_ws s = String c r -> (String.length r < String.length s)%nat.
Proof.
  intros H. pose proof (skip_ws_length s) as L. rewrite H in L.
  cbn [String.length] in L. lia.
Qed.

Lemma parse_string_body_length (s body r : string) :
  parse_string_body s = Ok (body, r) -> (String.length r < String.length s)%nat.
Proof.
  remember (String.length s) as n eqn:Hn.
  revert s body r Hn. induction n as [n IH] using lt_wf_ind.
  intros s body r Hn H. destruct s as [|c rest]; [discriminate|].
  cbn [parse_string_body] in H. cbn [String.length] in Hn.
  destruct (N_of_ascii c =? 34)%N.
  { inversion H; subst. lia. }
  destruct (N_of_ascii c =? 92)%N.
  - destruct rest as [|e rest']; [discriminate|]. cbn [String.length] in Hn.
    destruct (N_of_ascii e =? 117)%N.
    + destruct rest' as [|h1 [|h2 [|h3 [|h4 rest'']]]]; try discriminate.
      cbn [String.length] in Hn.
      destruct (hex4 h1 h2 h3 h4) as [v|]; [|discriminate].
      destruct (v <? 128)%N; [|discriminate].
      destruct (parse_string_body rest'') as [[b r0]|e0|] eqn:E; try discriminate.
      inversion H; subst.
      pose proof (IH (String.length rest'') ltac:(lia) rest'' b r eq_refl E). lia.
    + destruct (unescape e); [|discriminate].
      destruct (parse_string_body rest') as [[b r0]|e0|] eqn:E; try discriminate.
      inversion H; subst.
      pose proof (IH (String.length rest') ltac:(lia) rest' b r eq_refl E). lia.
  - destruct (N_of_ascii c <? 32)%N; [discriminate|].
    destruct (parse_string_body rest) as [[b r0]|e0|] eqn:E; try discriminate.
    inversion H; subst.
    pose proof (IH (String.length rest) ltac:(lia) rest b r eq_refl E). lia.
Qed.

Lemma span_digits_length (s ds rest : string) :
  span_digits s = (ds, rest) ->
  String.length s = (String.length ds + String.length rest)%nat.
Proof.
  revert ds rest. induction s as [|c s IH]; intros ds rest H; cbn [span_digits] in H.
  - inversion H. reflexivity.
  - destruct (is_digit c).
    + destruct (span_digits s) as [d r] eqn:E. inversion H; subst.
      cbn [String.length]. rewrite (IH d rest eq_refl). reflexivity.
    + inversion H; subst. reflexivity.
Qed.

Lemma parse_number_length (s : string) (v : JSValue) (r : string) :
  parse_number s = Ok (v, r) -> (String.length r < String.length s)%nat.
Proof.
  unfold parse_number.
  set (s1 := match s with
             | EmptyString => s
             | String c r0 => if (c =? "-")%char then r0 else s
             end).
  assert (L : (String.length s1 <= String.length s)%nat).
  { unfold s1. destruct s as [|c r0]; [lia|].
    destruct (c =? "-")%char; cbn [String.length]; lia. }
  destruct (span_digits s1) as [ds rest] eqn:E.
  apply span_digits_length in E.
  destruct ds as [|d0 more]; [discriminate|].
  cbn [String.length] in E.
  destruct ((d0 =? "0")%char && negb (more =? "")%string)%bool; [discriminate|].
  destruct (starts_fraction rest); [discriminate|].
  destruct (read_digits 10 (String d0 more) None) as [n|]; [|discriminate].
  destruct (safe_integer (Z.of_N n)); [|discriminate].
  intros H. inversion H; subst. lia.
Qed.

Lemma strip_prefix_length (p s rest : string) :
  strip_prefix p s = Some rest ->
  String.length s = (String.length p + String.length rest)%nat.
Proof.
  revert s. induction p as [|a p IH]; intros s H; cbn [strip_prefix] in H.
  - inversion H. reflexivity.
  - destruct s as [|b s]; [discriminate|].
    destruct (a =? b)%char; [|discriminate].
    cbn [String.length]. rewrite (IH s H). reflexivity.
Qed.

Lemma parse_literal_length (word : string) (w v : JSValue) (s r : string) :
  word <> "" -> parse_literal word w s = Ok (v, r) ->
  (String.length r < String.length s)%nat.
Proof.
  intros Hw. unfold parse_literal.
  destruct (strip_prefix word s) as [rest|] eqn:E; [|discriminate].
  intros H. inversion H; subst. apply strip_prefix_length in E.
  destruct word; [congruence|]. cbn [String.length] in E. lia.
Qed.

Lemma parse_consumes (fuel : nat) :
  (forall s, consumes s (parse_value fuel s))
  /\ (forall acc s, consumes s (parse_elements fuel acc s))
  /\ (forall acc s, consumes s (parse_members fuel acc s)).
Proof.
  induction fuel as [|f (IHv & IHe & IHm)];
    [repeat split; intros; intros v r H; discriminate|].
  repeat split.
  - intros s v r H. cbn [parse_value] in H.
    destruct (skip_ws s) as [|c r0] eqn:E; [discriminate|].
    apply skip_ws_cons in E.
    destruct (c =? "{")%char.
    { destruct (skip_ws r0) as [|c' r'] eqn:E'.
      - apply IHm in H. lia.
      - destruct (c' =? "}")%char.
        + inversion H; subst. apply skip_ws_cons in E'. lia.
        + apply IHm in H. lia. }
    destruct (c =? "[")%char.
    { destruct (skip_ws r0) as [|c' r'] eqn:E'.
      - apply IHe in H. lia.
      - destruct (c' =? "]")%char.
        + inversion H; subst. apply skip_ws_cons in E'. lia.
        + apply IHe in H. lia. }
    destruct (c =? dquote)%char.
    { destruct (parse_string_body r0) as [[str r']|e|] eqn:Eb; try discriminate.
      inversion H; subst. apply parse_string_body_length in Eb. lia. }
    assert (Hlit : forall word w, word <> "" ->
              Some (parse_literal word w (String c r0)) = Some (Ok (v, r)) ->
              (String.length r < String.length s)%nat).
    { intros word w Hw Hl. inversion Hl as [Hl'].
      apply parse_literal_length in Hl'; [|exact Hw]. cbn [String.length] in Hl'. lia. }
    destruct (c =? "t")%char; [apply (Hlit "true"%string _ ltac:(discriminate) H)|].
    destruct (c =? "f")%char; [apply (Hlit "false"%string _ ltac:(discriminate) H)|].
    destruct (c =? "n")%char; [apply (Hlit "null"%string _ ltac:(discriminate) H)|].
    destruct ((c =? "-")%char || is_digit c)%bool; [|discriminate].
    inversion H as [Hn]. apply parse_number_length in Hn.
    cbn [String.length] in Hn. lia.
  - intros acc s v r H. cbn [parse_elements] in H.
    destruct (parse_value f s) as [[[v0 r0]|e|]|] eqn:Ev; try discriminate.
    apply IHv in Ev.
    destruct (skip_ws r0) as [|c r'] eqn:E; [discriminate|].
    apply skip_ws_cons in E.
    destruct (c =? ",")%char; [apply IHe in H; lia|].
    destruct (c =? "]")%char; [|discriminate].
    inversion H; subst. lia.
  - intros acc s v r H. cbn [parse_members] in H.
    destruct (skip_ws s) as [|c r0] eqn:E; [discriminate|].
    apply skip_ws_cons in E.
    destruct (c =? dquote)%char; [|discriminate].
    destruct (parse_string_body r0) as [[k r1]|e|] eqn:Eb; try discriminate.
    apply parse_string_body_length in Eb.
    destruct (skip_ws r1) as [|c1 r2] eqn:E1; [discriminate|].
    apply skip_ws_cons in E1.
    destruct (c1 =? ":")%char; [|discriminate].
    destruct (parse_value f r2) as [[[v0 r3]|e|]|] eqn:Ev; try discriminate.
    apply IHv in Ev.
    destruct (skip_ws r3) as [|c3 r4] eqn:E3; [discriminate|].
    apply skip_ws_cons in E3.
    destruct (c3 =? ",")%char; [apply IHm in H; lia|].
    destruct (c3 =? "}")%char; [|discriminate].
    inversion H; subst. lia.
Qed.

Lemma parse_fuel (fuel : nat) :
  (forall s, (2 * String.length s + 1 <= fuel)%nat -> parse_value fuel s <> None)
  /\ (forall acc s, (2 * String.length s + 2 <= fuel)%nat ->
                    parse_elements fuel acc s <> None)
  /\ (forall acc s, (2 * String.length s + 2 <= fuel)%nat ->
                    parse_members fuel acc s <> None).
Proof.
  induction fuel as [|f (IHv & IHe & IHm)]; [repeat split; intros; lia|].
  repeat split.
  - intros s Hf. cbn [parse_value].
    destruct (skip_ws s) as [|c r0] eqn:E; [discriminate|].
    apply skip_ws_cons in E.
    destruct (c =? "{")%char.
    { destruct (skip_ws r0) as [|c' r'] eqn:E'.
      - apply IHm. lia.
      - destruct (c' =? "}")%char; [discriminate|apply IHm; lia]. }
    destruct (c =? "[")%char.
    { destruct (skip_ws r0) as [|c' r'] eqn:E'.
      - apply IHe. lia.
      - destruct (c' =? "]")%char; [discriminate|apply IHe; lia]. }
    destruct (c =? dquote)%char; [discriminate|].
    destruct (c =? "t")%char; [discriminate|].
    destruct (c =? "f")%char; [discriminate|].
    destruct (c =? "n")%char; [discriminate|].
    destruct ((c =? "-")%char || is_digit c)%bool; discriminate.
  - intros acc s Hf. cbn [parse_elements].
    destruct (parse_value f s) as [[[v0 r0]|e|]|] eqn:Ev; try discriminate.
    + pose proof (proj1 (parse_consumes f) s v0 r0 Ev) as L.
      destruct (skip_ws r0) as [|c r'] eqn:E; [discriminate|].
      apply skip_ws_cons in E.
      destruct (c =? ",")%char; [apply IHe; lia|].
      destruct (c =? "]")%char; discriminate.
    + exfalso. revert Ev. apply IHv. lia.
  - intros acc s Hf. cbn [parse_members].
    destruct (skip_ws s) as [|c r0] eqn:E; [discriminate|].
    apply skip_ws_cons in E.
    destruct (c =? dquote)%char; [|discriminate].
    destruct (parse_string_body r0) as [[k r1]|e|] eqn:Eb; try discriminate.
    apply parse_string_body_length in Eb.
    destruct (skip_ws r1) as [|c1 r2] eqn:E1; [discriminate|].
    apply skip_ws_cons in E1.
    destruct (c1 =? ":")%char; [|discriminate].
    destruct (parse_value f r2) as [[[v0 r3]|e|]|] eqn:Ev; try discriminate.
    + pose proof (proj1 (parse_consumes f) r2 v0 r3 Ev) as L.
      destruct (skip_ws r3) as [|c3 r4] eqn:E3; [discriminate|].
      apply skip_ws_cons in E3.
      destruct (c3 =? ",")%char; [apply IHm; lia|].
      destruct (c3 =? "}")%char; discriminate.
    + exfalso. revert Ev. apply IHv. lia.
Qed.

(** [JSON_parse] never runs out of fuel: it is outside the model only where a
    literal is. *)
Lemma JSON_parse_fuel (text : string) :
  parse_value (2 * String.length text + 2) text <> None.
Proof. apply (proj1 (parse_fuel _)). lia. Qed.

(* ================================================================== *)
(** * The round trip *)
(* ================================================================== *)

(** ** Objects copied by Object.assign *)

Lemma obj_has_set (k k' : string) (v : JSValue) (o : Props) :
  obj_has k (obj_set k' v o) = ((k' =? k)%string || obj_has k o)%bool.
Proof.
  unfold obj_has. rewrite obj_find_set. destruct (k' =? k)%string; reflexivity.
Qed.

Lemma obj_has_false_In (k : string) (o : Props) :
  obj_has k o = false -> forall p, In p o -> fst p <> k.
Proof.
  unfold obj_has. induction o as [|[k' v'] o IH]; intros H p Hin; [destruct Hin|].
  cbn [obj_find] in H. destruct (k' =? k)%string eqn:E; [discriminate|].
  destruct Hin as [<-|Hin]; [apply String.eqb_neq; exact E|apply IH; assumption].
Qed.

Lemma obj_has_app (k : string) (o1 o2 : Props) :
  obj_has k (o1 ++ o2) = (obj_has k o1 || obj_has k o2)%bool.
Proof.
  unfold obj_has. rewrite obj_find_app. destruct (obj_find k o1); reflexivity.
Qed.

Lemma obj_get_app_fresh (k : string) (o1 o2 : Props) :
  obj_has k o1 = false -> obj_get k (o1 ++ o2) = obj_get k o2.
Proof.
  unfold obj_has, obj_get. rewrite obj_find_app.
  destruct (obj_find k o1); [discriminate|reflexivity].
Qed.

Lemma obj_set_fresh (k : string) (v : JSValue) (o : Props) :
  obj_has k o = false -> array_index k = None -> obj_set k v o = o ++ [(k, v)].
Proof. intros H1 H2. unfold obj_set. rewrite H1, H2. reflexivity. Qed.

Lemma obj_replace_length (k : string) (v : JSValue) (o : Props) :
  List.length (obj_replace k v o) = List.length o.
Proof.
  induction o as [|[k' v'] o IH]; [reflexivity|].
  cbn [obj_replace]. destruct (k' =? k)%string; cbn [List.length]; [reflexivity|now rewrite IH].
Qed.

Lemma obj_insert_index_length (i : N) (k : string) (v : JSValue) (o : Props) :
  List.length (obj_insert_index i k v o) = S (List.length o).
Proof.
  induction o as [|[k' v'] o IH]; [reflexivity|].
  cbn [obj_insert_index]. destruct (array_index k') as [j|]; [|reflexivity].
  destruct (j <? i)%N; cbn [List.length]; [now rewrite IH|reflexivity].
Qed.

Lemma obj_set_length (k : string) (v : JSValue) (o : Props) :
  List.length (obj_set k v o)
  = if obj_has k o then List.length o else S (List.length o).
Proof.
  unfold obj_set. destruct (obj_has k o); [apply obj_replace_length|].
  destruct (array_index k); [apply obj_insert_index_length|].
  rewrite length_app. cbn. lia.
Qed.

Lemma set_pair_length (acc : Props) (k : string) (v : JSValue) :
  List.length (set_pair acc (k, v))
  = if obj_has k acc then List.length acc else S (List.length acc).
Proof. apply obj_set_length. Qed.

Lemma obj_has_set_pair (k' : string) (acc : Props) (k : string) (v : JSValue) :
  obj_has k' (set_pair acc (k, v)) = ((k =? k')%string || obj_has k' acc)%bool.
Proof. apply obj_has_set. Qed.

Lemma fold_set_length (l acc : Props) :
  (List.length (fold_left set_pair l acc) <= List.length acc + List.length l)%nat.
Proof.
  revert acc. induction l as [|[k v] l IH]; intros acc; cbn [fold_left List.length]; [lia|].
  specialize (IH (set_pair acc (k, v))).
  rewrite set_pair_length in IH. destruct (obj_has k acc); lia.
Qed.

(** Writing properties one by one yields as many properties as were written
    only if the keys are new and pairwise different. *)
Lemma fold_set_full (l acc : Props) :
  List.length (fold_left set_pair l acc) = (List.length acc + List.length l)%nat ->
  NoDup (map fst l) /\ forall k, In k (map fst l) -> obj_has k acc = false.
Proof.
  revert acc. induction l as [|[k v] l IH]; intros acc H.
  - split; [constructor|intros k []].
  - cbn [fold_left List.length map fst] in *.
    pose proof (fold_set_length l (set_pair acc (k, v))) as Hle.
    pose proof (set_pair_length acc k v) as Hlen.
    assert (Hk : obj_has k acc = false) by (destruct (obj_has k acc); [lia|reflexivity]).
    rewrite Hk in Hlen.
    destruct (IH (set_pair acc (k, v))) as (Hnd & Hfresh); [lia|].
    split.
    + constructor; [|exact Hnd]. intros Hin. specialize (Hfresh k Hin).
      rewrite obj_has_set_pair, String.eqb_refl in Hfresh. discriminate.
    + intros k' [<-|Hin]; [exact Hk|].
      specialize (Hfresh k' Hin).
      rewrite obj_has_set_pair in Hfresh. apply orb_false_iff in Hfresh. apply Hfresh.
Qed.

Lemma enumeration_order_NoDup (o : Props) :
  enumeration_order o -> NoDup (map fst o).
Proof.
  intros H. apply (fold_set_full o []). unfold enumeration_order, build_props in H.
  change (fold_left set_pair o [] = o) in H. rewrite H. reflexivity.
Qed.

Lemma obj_find_NoDup (o : Props) (k : string) (v : JSValue) :
  NoDup (map fst o) -> In (k, v) o -> obj_find k o = Some v.
Proof.
  induction o as [|[k' v'] o IH]; intros Hnd Hin; [destruct Hin|].
  cbn [map fst] in Hnd. inversion Hnd as [|? ? Hnotin Hnd']; subst.
  cbn [obj_find]. destruct Hin as [E|Hin].
  - inversion E; subst. now rewrite String.eqb_refl.
  - destruct (k' =? k)%string eqn:E.
    + apply String.eqb_eq in E. subst k'. exfalso. apply Hnotin.
      apply (in_map fst) in Hin. exact Hin.
    + apply IH; assumption.
Qed.

Lemma assign_props_fold (target source : Props) :
  obj_has "__proto__" source = false ->
  assign_props target source = Ok (fold_left set_pair source target).
Proof.
  revert target. induction source as [|[k v] source IH]; intros target H; [reflexivity|].
  cbn [assign_props fold_left]. unfold obj_assign_key.
  unfold obj_has in H. cbn [obj_find] in H.
  destruct (k =? "__proto__")%string eqn:E; [discriminate|].
  cbn [bind]. apply IH. exact H.
Qed.

(** [Object.assign({}, o)] is a copy of [o]. *)
Lemma Object_assign_copy (o : Props) :
  enumeration_order o -> obj_has "__proto__" o = false ->
  Object_assign [] (JObj o) = Ok o.
Proof.
  intros Horder Hproto. unfold Object_assign. cbn [own_props bind].
  rewrite assign_props_fold by exact Hproto. f_equal. exact Horder.
Qed.

Lemma enumeration_order_snoc (o : Props) (k : string) (v : JSValue) :
  enumeration_order o -> obj_has k o = false -> array_index k = None ->
  enumeration_order (o ++ [(k, v)]).
Proof.
  intros Horder Hk Hi. unfold enumeration_order, build_props in *.
  rewrite fold_left_app. rewrite Horder. cbn [fold_left fst snd].
  apply obj_set_fresh; assumption.
Qed.

(** ** The two defaults of the options *)

Lemma defaultOptions_object (now : Z) (o : Props) :
  enumeration_order o -> obj_has "__proto__" o = false ->
  defaultOptions now (JObj o) =
  (let options :=
     if negb (truthy (obj_get "validAt" o))
     then obj_set "validAt" (JNum (Fin now)) o else o in
   if negb (truthy (obj_get "expiresAt" options))
   then
     expiresAt <- js_add (obj_get "validAt" options) DEFAULT_EXPIRATION_SECONDS ;;
     Ok (obj_set "expiresAt" expiresAt options)
   else Ok options).
Proof.
  intros Horder Hproto. unfold defaultOptions.
  change (or_empty (JObj o)) with (JObj o).
  rewrite Object_assign_copy by assumption. reflexivity.
Qed.

Lemma defaultOptions_other (now : Z) (o options : Props) (k : string) :
  enumeration_order o -> obj_has "__proto__" o = false ->
  defaultOptions now (JObj o) = Ok options ->
  k <> "validAt" -> k <> "expiresAt" ->
  obj_get k options = obj_get k o.
Proof.
  intros Horder Hproto H Hv He. rewrite defaultOptions_object in H by assumption.
  cbv zeta in H.
  assert (E1 : obj_get k (if negb (truthy (obj_get "validAt" o))
                          then obj_set "validAt" (JNum (Fin now)) o else o)
               = obj_get k o).
  { destruct (negb (truthy (obj_get "validAt" o))); [|reflexivity].
    apply obj_get_set_other. congruence. }
  destruct (negb (truthy (obj_get "expiresAt" _))).
  - apply bind_Ok in H as (x & _ & H). injection H as <-.
    rewrite obj_get_set_other by congruence. exact E1.
  - injection H as <-. exact E1.
Qed.

(** Without an [expiresAt] option the window is the default one. *)
Lemma defaultOptions_window (now : Z) (o options : Props) (va ea : Z) :
  enumeration_order o -> obj_has "__proto__" o = false ->
  defaultOptions now (JObj o) = Ok options ->
  obj_get "validAt" options = JNum (Fin va) ->
  obj_get "expiresAt" options = JNum (Fin ea) ->
  truthy (obj_get "expiresAt" o) = false ->
  ea - va = DEFAULT_EXPIRATION_SECONDS.
Proof.
  intros Horder Hproto H Hva Hea Hfalsy.
  rewrite defaultOptions_object in H by assumption. cbv zeta in H.
  set (o1 := if negb (truthy (obj_get "validAt" o))
             then obj_set "validAt" (JNum (Fin now)) o else o) in *.
  assert (E : obj_get "expiresAt" o1 = obj_get "expiresAt" o).
  { unfold o1. destruct (negb (truthy (obj_get "validAt" o))); [|reflexivity].
    apply obj_get_set_other. discriminate. }
  rewrite E, Hfalsy in H. cbn [negb] in H.
  apply bind_Ok in H as (x & Hadd & H). inversion H; subst. clear H.
  rewrite obj_get_set_same in Hea. subst x.
  rewrite obj_get_set_other in Hva by discriminate.
  rewrite Hva in Hadd. cbn [js_add num_add] in Hadd. inversion Hadd. lia.
Qed.

Lemma validateOptions_Ok (now : Z) (options : Props) (va ea : Z) :
  validateOptions now options = Ok tt ->
  obj_get "validAt" options = JNum (Fin va) ->
  obj_get "expiresAt" options = JNum (Fin ea) ->
  now <= va /\ va <= ea /\ ea - va <= YEAR_IN_SECONDS
  /\ va <= now + YEAR_IN_SECONDS
  /\ validateEncodedSecret (obj_get "encodedSecret" options) = Ok tt.
Proof.
  intros H Hva Hea. unfold validateOptions in H. rewrite Hva, Hea in H.
  unfold num_gt, num_sub in H. cbn [num_lt num_neg num_add] in H.
  destruct (va <? now) eqn:E1; [discriminate|].
  destruct (now + YEAR_IN_SECONDS <? va) eqn:E2; [discriminate|].
  destruct (ea <? now) eqn:E3; [discriminate|].
  destruct (ea <? va) eqn:E4; [discriminate|].
  destruct (YEAR_IN_SECONDS <? ea + - va) eqn:E5; [discriminate|].
  apply Z.ltb_ge in E1, E2, E3, E4, E5. repeat split; try lia. exact H.
Qed.

(** ** The times as text *)

Lemma to_digits_ascii (fuel : nat) (radix n : N) (acc : string) :
  (radix = 10 \/ radix = 36)%N ->
  ascii_only acc = true -> ascii_only (to_digits fuel radix n acc) = true.
Proof.
  intros Hr. revert n acc. induction fuel as [|fuel IH]; intros n acc Hacc; [exact Hacc|].
  rewrite to_digits_S.
  assert (Hd : ascii_only (String (digit_char (n mod radix)) acc) = true).
  { unfold ascii_only, chars in *. cbn [list_ascii_of_string forallb].
    rewrite Hacc, andb_true_r.
    assert (Hlt : (n mod radix < radix)%N) by (apply N.mod_lt; destruct Hr; subst; discriminate).
    pose proof (digit_char_spec radix (n mod radix) Hr Hlt) as H.
    unfold digit_char_ok in H. repeat rewrite andb_true_iff in H.
    destruct H as (((((_ & _) & H) & _) & _) & _). exact H. }
  destruct (n / radix =? 0)%N; [exact Hd|apply IH; exact Hd].
Qed.

Lemma Z_to_string_well_formed (radix : N) (z : Z) :
  (radix = 10 \/ radix = 36)%N -> well_formed (Z_to_string radix z) = true.
Proof.
  intros Hr. apply ascii_only_well_formed. unfold Z_to_string.
  assert (H : ascii_only (N_to_string radix (Z.abs_N z)) = true)
    by (apply to_digits_ascii; [exact Hr|reflexivity]).
  destruct (z <? 0); [|exact H].
  unfold ascii_only, chars in *. cbn [list_ascii_of_string forallb]. rewrite H. reflexivity.
Qed.

(** ** The keys of the result *)

Lemma mappedKey_plain (keyMap : JSValue) (key : string) :
  truthy keyMap = false ->
  mappedKey keyMap key =
  Ok (if (key =? "$")%string then "validAt"
      else if (key =? "$$")%string then "expiresAt" else key).
Proof.
  intros H. unfold mappedKey, mappedValue. rewrite H. cbn [bind].
  destruct (key =? "$")%string; [reflexivity|].
  destruct (key =? "$$")%string; reflexivity.
Qed.

Lemma mapClaims_plain (keyMap : JSValue) (claims : Props) (l m : Props) :
  truthy keyMap = false ->
  (forall k, In k reserved_keys -> obj_has k l = false) ->
  (forall p, In p l -> obj_get (fst p) claims = snd p) ->
  mapClaims keyMap claims (Object_keys l) m = Ok (fold_left set_pair l m).
Proof.
  intros Hmap Hres. revert m. induction l as [|[k v] l IH]; intros m Hget; [reflexivity|].
  cbn [Object_keys map fst mapClaims fold_left].
  rewrite mappedKey_plain by exact Hmap.
  assert (Hk : forall r, In r reserved_keys -> (k =? r)%string = false).
  { intros r Hr. specialize (Hres r Hr). unfold obj_has in Hres. cbn [obj_find] in Hres.
    destruct (k =? r)%string; [discriminate|reflexivity]. }
  rewrite (Hk "$"), (Hk "$$") by (cbn; tauto). cbn [bind].
  unfold obj_assign_key. rewrite (Hk "__proto__") by (cbn; tauto). cbn [bind].
  pose proof (Hget (k, v) (or_introl eq_refl)) as E. cbn [fst snd] in E. rewrite E.
  apply IH.
  - intros r Hr. specialize (Hres r Hr). specialize (Hk r Hr).
    unfold obj_has in *. cbn [obj_find] in Hres. now rewrite Hk in Hres.
  - intros p Hp. apply Hget. right. exact Hp.
Qed.

Lemma obj_replace_app_fresh (k : string) (v : JSValue) (o1 o2 : Props) :
  obj_has k o1 = false -> obj_replace k v (o1 ++ o2) = o1 ++ obj_replace k v o2.
Proof.
  unfold obj_has. induction o1 as [|[k' v'] o1 IH]; intros H; [reflexivity|].
  cbn [obj_find] in H. cbn [app obj_replace].
  destruct (k' =? k)%string; [discriminate|]. f_equal. apply IH. exact H.
Qed.

Lemma obj_set_app_fresh (k : string) (v : JSValue) (o1 o2 : Props) :
  obj_has k o1 = false -> obj_has k o2 = true ->
  obj_set k v (o1 ++ o2) = o1 ++ obj_replace k v o2.
Proof.
  intros H1 H2. unfold obj_set. rewrite obj_has_app, H1, H2. cbn [orb].
  apply obj_replace_app_fresh. exact H1.
Qed.

Lemma obj_get_In (o : Props) (tl : Props) (p : string * JSValue) :
  NoDup (map fst o) -> In p o -> obj_get (fst p) (o ++ tl) = snd p.
Proof.
  intros Hnd Hin. destruct p as [k v]. cbn [fst snd].
  unfold obj_get. rewrite obj_find_app.
  now rewrite (obj_find_NoDup o k v Hnd Hin).
Qed.

(** The claims [generateTWT] serializes. *)
Lemma generateTWT_claims_serializable (C : Props) (va ea : Z) :
  serializable (JObj C) ->
  obj_has "$" C = false -> obj_has "$$" C = false ->
  serializable (JObj (C ++ [("$", JStr (Z_to_string 36 va));
                            ("$$", JStr (Z_to_string 36 ea))])).
Proof.
  intros HC H1 H2. apply serializable_JObj in HC. destruct HC as (Horder & Hall).
  apply serializable_JObj. split.
  - change (C ++ [("$", JStr (Z_to_string 36 va)); ("$$", JStr (Z_to_string 36 ea))])
      with (C ++ [("$", JStr (Z_to_string 36 va))] ++ [("$$", JStr (Z_to_string 36 ea))]).
    rewrite app_assoc.
    apply enumeration_order_snoc; [apply enumeration_order_snoc| |]; try assumption;
      try reflexivity.
    rewrite obj_has_app, H2. reflexivity.
  - apply Forall_app. split; [exact Hall|].
    repeat constructor; cbn [fst snd serializable];
      apply Z_to_string_well_formed; right; reflexivity.
Qed.

(** What [generateTWT] encrypts, for options that pass the validation. *)
Lemma generateTWT_serialized (now : Z) (C : Props) (_options : JSValue)
  (options : Props) (va ea : Z) :
  serializable (JObj C) ->
  (forall k, In k reserved_keys -> obj_has k C = false) ->
  defaultOptions now _options = Ok options ->
  validateOptions now options = Ok tt ->
  obj_get "validAt" options = JNum (Fin va) ->
  obj_get "expiresAt" options = JNum (Fin ea) ->
  safe_integer va = true -> safe_integer ea = true ->
  generateTWT now (JObj C) _options =
  try_catch
    (encrypt (stringify (JObj (C ++ [("$", JStr (Z_to_string 36 va));
                                     ("$$", JStr (Z_to_string 36 ea))])))
             (obj_get "encodedSecret" options))
    (fun _ => throwError MsgEncryption EENCRYPTION).
Proof.
  intros HC Hres Hdef Hval Hva Hea Sva Sea.
  pose proof (generateTWT_claims_serializable C va ea HC
                (Hres "$" ltac:(cbn; tauto)) (Hres "$$" ltac:(cbn; tauto))) as Hser.
  apply serializable_JObj in HC. destruct HC as (Horder & _).
  unfold generateTWT. rewrite Hdef. cbn [bind]. rewrite Hval. cbn [bind].
  rewrite Hva, Hea. cbn [toString36 number_toString]. rewrite Sva, Sea. cbn [bind].
  change (or_empty (JObj C)) with (JObj C).
  rewrite Object_assign_copy by (try assumption; apply Hres; cbn; tauto).
  cbn [bind]. unfold Object_assign. cbn [own_props bind].
  rewrite assign_props_fold by reflexivity. cbn [fold_left bind].
  unfold set_pair. cbn [fst snd].
  rewrite (obj_set_fresh "$") by (try reflexivity; apply Hres; cbn; tauto).
  rewrite (obj_set_fresh "$$")
    by (try reflexivity; rewrite obj_has_app, (Hres "$$") by (cbn; tauto); reflexivity).
  rewrite <- app_assoc. cbn [app].
  rewrite JSON_stringify_serializable by exact Hser. reflexivity.
Qed.

(** What [verifyTWT] makes of the text [generateTWT] encrypted. *)
Lemma verifyTWT_serialized (now : Z) (C : Props) (keyMap : JSValue) (va ea d : Z) :
  serializable (JObj C) ->
  (forall k, In k reserved_keys -> obj_has k C = false) ->
  truthy keyMap = false ->
  0 < va -> va <= ea -> safe_integer va = true -> safe_integer ea = true ->
  (now < va -> va - now <= d) -> (ea < now -> now - ea <= d) ->
  (claims <- try_catch
     (parseClaims (stringify (JObj (C ++ [("$", JStr (Z_to_string 36 va));
                                          ("$$", JStr (Z_to_string 36 ea))]))))
     (fun _ => throwError MsgParsing EPARSE) ;;
   claims <- checkTimes now (Fin d) claims ;;
   m <- mapClaims keyMap claims (Object_keys claims) [] ;;
   Ok (JObj m))
  = Ok (JObj (C ++ [("validAt", JNum (Fin va)); ("expiresAt", JNum (Fin ea));
                    ("expiresIn", JNum (Fin (ea - va)))])).
Proof.
  intros HC Hres Hmap Hpos Hle Sva Sea Hnot_early Hnot_late.
  assert (R : forall k, In k reserved_keys -> obj_has k C = false) by exact Hres.
  pose proof (generateTWT_claims_serializable C va ea HC
                (Hres "$" ltac:(cbn; tauto)) (Hres "$$" ltac:(cbn; tauto))) as Hser.
  apply serializable_JObj in HC. destruct HC as (Horder & _).
  pose proof (enumeration_order_NoDup C Horder) as Hnd.
  rewrite (parseClaims_object _ _ (JSON_parse_stringify _ Hser)).
  rewrite !obj_get_app_fresh by (apply Hres; cbn; tauto).
  change (obj_get "$" [("$", JStr (Z_to_string 36 va)); ("$$", JStr (Z_to_string 36 ea))])
    with (JStr (Z_to_string 36 va)).
  change (obj_get "$$" [("$", JStr (Z_to_string 36 va)); ("$$", JStr (Z_to_string 36 ea))])
    with (JStr (Z_to_string 36 ea)).
  unfold parseInt. cbn [js_toString bind].
  rewrite !parseInt_toString36 by (assumption || lia). cbn [bind try_catch].
  rewrite (obj_set_app_fresh "$") by (try reflexivity; apply Hres; cbn; tauto).
  rewrite (obj_set_app_fresh "$$") by (try reflexivity; apply Hres; cbn; tauto).
  change (obj_replace "$$" (JNum (Fin ea))
            (obj_replace "$" (JNum (Fin va))
               [("$", JStr (Z_to_string 36 va)); ("$$", JStr (Z_to_string 36 ea))]))
    with [("$", JNum (Fin va)); ("$$", JNum (Fin ea))].
  unfold checkTimes.
  rewrite !obj_get_app_fresh by (apply Hres; cbn; tauto).
  change (obj_get "$" [("$", JNum (Fin va)); ("$$", JNum (Fin ea))]) with (JNum (Fin va)).
  change (obj_get "$$" [("$", JNum (Fin va)); ("$$", JNum (Fin ea))]) with (JNum (Fin ea)).
  unfold num_gt, num_sub.
  cbn [isFinite negb orb num_le num_lt num_neg num_add num_abs].
  replace (0 <? va) with true by (symmetry; apply Z.ltb_lt; lia).
  replace (0 <? ea) with true by (symmetry; apply Z.ltb_lt; lia).
  replace (ea <? va) with false by (symmetry; apply Z.ltb_ge; lia).
  cbn [negb].
  replace ((now + - va <? 0) && (d <? Z.abs (now + - va)))%bool with false
    by (symmetry; apply andb_false_iff;
        destruct (Z.ltb_spec (now + - va) 0); [right; apply Z.ltb_ge; lia|left; reflexivity]).
  replace ((ea + - now <? 0) && (d <? Z.abs (ea + - now)))%bool with false
    by (symmetry; apply andb_false_iff;
        destruct (Z.ltb_spec (ea + - now) 0); [right; apply Z.ltb_ge; lia|left; reflexivity]).
  cbn [bind].
  rewrite (obj_set_fresh "expiresIn")
    by (try reflexivity; rewrite obj_has_app, (Hres "expiresIn") by (cbn; tauto); reflexivity).
  rewrite <- app_assoc. cbn [app].
  unfold Object_keys at 1. rewrite map_app. fold (Object_keys C).
  rewrite mapClaims_app.
  rewrite (mapClaims_plain keyMap _ C [] Hmap Hres)
    by (intros p Hp; apply obj_get_In; assumption).
  change (fold_left set_pair C []) with (build_props C). rewrite Horder. cbn [bind].
  cbn [map fst mapClaims].
  rewrite !mappedKey_plain by exact Hmap.
  change ("$" =? "$")%string with true. change ("$$" =? "$")%string with false.
  change ("$$" =? "$$")%string with true.
  change ("expiresIn" =? "$")%string with false.
  change ("expiresIn" =? "$$")%string with false.
  cbv iota. cbn [bind]. unfold obj_assign_key.
  change ("validAt" =? "__proto__")%string with false.
  change ("expiresAt" =? "__proto__")%string with false.
  change ("expiresIn" =? "__proto__")%string with false.
  cbv iota. cbn [bind].
  rewrite !obj_get_app_fresh by (apply Hres; cbn; tauto).
  rewrite (obj_set_fresh "validAt") by (try reflexivity; apply Hres; cbn; tauto).
  rewrite (obj_set_fresh "expiresAt")
    by (try reflexivity; rewrite obj_has_app, (Hres "expiresAt") by (cbn; tauto); reflexivity).
  rewrite (obj_set_fresh "expiresIn")
    by (try reflexivity; rewrite !obj_has_app, (Hres "expiresIn") by (cbn; tauto); reflexivity).
  rewrite <- !app_assoc. cbn [app]. reflexivity.
Qed.

(** C1, as amended. A claims object that JSON carries unchanged and
    that uses none of the reserved names, options without a key map that pass
    the validation of generateTWT at a clock reading [nowG] after the epoch:
    generateTWT returns a token, and verifyTWT with the same options, at a
    clock reading [nowV] that is inside the window of the token or outside it
    by no more than the allowed drift, returns the claims followed by
    validAt, expiresAt and expiresIn = expiresAt - validAt; the window is
    2592000 seconds when the options give no expiresAt. *)
Theorem generateTWT_verifyTWT_round_trip
  (nowG nowV : Z) (C o options : Props) (va ea d : Z) :
  serializable (JObj C) ->
  (forall k, In k reserved_keys -> obj_has k C = false) ->
  enumeration_order o -> obj_has "__proto__" o = false ->
  truthy (obj_get "keyMap" o) = false ->
  clockDrift (JObj o) = Ok (Fin d) ->
  defaultOptions nowG (JObj o) = Ok options ->
  validateOptions nowG options = Ok tt ->
  obj_get "validAt" options = JNum (Fin va) ->
  obj_get "expiresAt" options = JNum (Fin ea) ->
  0 < nowG -> nowG + 2 * YEAR_IN_SECONDS <= 9007199254740991 ->
  (nowV < va -> va - nowV <= d) -> (ea < nowV -> nowV - ea <= d) ->
  exists token,
    generateTWT nowG (JObj C) (JObj o) = Ok token
    /\ verifyTWT nowV (JStr token) (JObj o)
       = Ok (JObj (C ++ [("validAt", JNum (Fin va)); ("expiresAt", JNum (Fin ea));
                         ("expiresIn", JNum (Fin (ea - va)))]))
    /\ (truthy (obj_get "expiresAt" o) = false -> ea - va = DEFAULT_EXPIRATION_SECONDS).
Proof.
  intros HC Hres Horder Hproto Hmap Hdrift Hdef Hval Hva Hea Hpos Hbound Hearly Hlate.
  destruct (validateOptions_Ok nowG options va ea Hval Hva Hea)
    as (H1 & H2 & H3 & H4 & Hsecret).
  rewrite (defaultOptions_other nowG o options "encodedSecret" Horder Hproto Hdef)
    in Hsecret by discriminate.
  assert (Sva : safe_integer va = true)
    by (unfold safe_integer, YEAR_IN_SECONDS in *; apply Z.leb_le; lia).
  assert (Sea : safe_integer ea = true)
    by (unfold safe_integer, YEAR_IN_SECONDS in *; apply Z.leb_le; lia).
  pose proof (generateTWT_claims_serializable C va ea HC
                (Hres "$" ltac:(cbn; tauto)) (Hres "$$" ltac:(cbn; tauto))) as Hser.
  set (claims := C ++ [("$", JStr (Z_to_string 36 va)); ("$$", JStr (Z_to_string 36 ea))]) in *.
  destruct (decrypt_encrypt (obj_get "encodedSecret" o) (stringify (JObj claims)) Hsecret)
    as (token & Henc & Hdec).
  rewrite utf8_decode_encode in Hdec by (apply stringify_well_formed; exact Hser).
  exists token. split; [|split].
  - rewrite (generateTWT_serialized nowG C (JObj o) options va ea) by assumption.
    rewrite (defaultOptions_other nowG o options "encodedSecret" Horder Hproto Hdef)
      by discriminate.
    fold claims. rewrite Henc. reflexivity.
  - rewrite (verifyTWT_valid_secret nowV (JStr token) (JObj o)
               (obj_get "encodedSecret" o) (obj_get "keyMap" o) (Fin d))
      by (reflexivity || assumption).
    rewrite Hdec. cbn [try_catch bind].
    apply verifyTWT_serialized; try assumption; lia.
  - intros Hfalsy. apply (defaultOptions_window nowG o options); assumption.
Qed.

(** C1, counterexample. Two options objects that pass the validation of
    generateTWT, with the claims u = test.  With validAt 1000 seconds after
    the clock, verifyTWT with the same options and the same clock rejects the
    token as not yet valid.  With a key map that renames u, verifyTWT returns
    the claim under userID, so the field u of the claims is not in the
    result. *)
Lemma verifyTWT_rejects_future_validAt :
  serializable test_claims
  /\ bind (defaultOptions 1700000000 future_options) (validateOptions 1700000000) = Ok tt
  /\ generateTWT 1700000000 test_claims future_options
     = Ok "6tRP5tBoKNUYSRU6qlAyfqjiE50UTMrcyR6xOx7reUj_iEv6_rW_"
  /\ verifyTWT 1700000000 (JStr "6tRP5tBoKNUYSRU6qlAyfqjiE50UTMrcyR6xOx7reUj_iEv6_rW_")
       future_options
     = Throw (TWTError ETIME MsgNotYetValid)
  /\ bind (defaultOptions 1700000000 renaming_options) (validateOptions 1700000000) = Ok tt
  /\ generateTWT 1700000000 test_claims renaming_options = Ok test_token
  /\ verifyTWT 1700000000 (JStr test_token) renaming_options
     = Ok (JObj [("userID", JStr "test"); ("validAt", JNum (Fin 1700000000));
                 ("expiresAt", JNum (Fin 1702592000));
                 ("expiresIn", JNum (Fin 2592000))]).
Proof.
  split; [vm_compute; auto|].
  split; [vm_compute; reflexivity|].
  split; [vm_compute; reflexivity|].
  split; [vm_compute; reflexivity|].
  split; [vm_compute; reflexivity|].
  split; vm_compute; reflexivity.
Qed.

(** The round trip at the claims and the options of the tests, read one minute
    after the token was made. *)
Lemma generateTWT_verifyTWT_round_trip_witness :
  exists token,
    generateTWT 1700000000 test_claims test_options = Ok token
    /\ verifyTWT 1700000060 (JStr token) test_options
       = Ok (JObj ([("u", JStr "test")]
                   ++ [("validAt", JNum (Fin 1700000000));
                       ("expiresAt", JNum (Fin 1702592000));
                       ("expiresIn", JNum (Fin (1702592000 - 1700000000)))]))
    /\ (truthy (obj_get "expiresAt" [("encodedSecret", JStr test_encodedSecret)]) = false ->
        1702592000 - 1700000000 = DEFAULT_EXPIRATION_SECONDS).
Proof.
  apply (generateTWT_verifyTWT_round_trip 1700000000 1700000060
           [("u", JStr "test")] [("encodedSecret", JStr test_encodedSecret)]
           [("encodedSecret", JStr test_encodedSecret);
            ("validAt", JNum (Fin 1700000000));
            ("expiresAt", JNum (Fin 1702592000))]
           1700000000 1702592000 120).
  - vm_compute. auto.
  - intros k Hk. cbn in Hk.
    repeat (destruct Hk as [<-|Hk]; [reflexivity|]). destruct Hk.
  - reflexivity.
  - reflexivity.
  - reflexivity.
  - reflexivity.
  - vm_compute. reflexivity.
  - vm_compute. reflexivity.
  - reflexivity.
  - reflexivity.
  - lia.
  - vm_compute. discriminate.
  - lia.
  - lia.
Defined.

(* ================================================================== *)
(** * Further properties of the library *)
(* ================================================================== *)

(** ** The cipher behind encrypt and decrypt *)

Lemma createCipheriv_Ok (key iv : Buffer) (cipher : Buffer -> Buffer) :
  createCipheriv key iv = Ok cipher ->
  List.length key = 32%nat /\ List.length iv = 16%nat
  /\ cipher = fun data => xor_bytes data (AES.keystream key iv (List.length data)).
Proof.
  unfold createCipheriv. intros H.
  destruct (List.length iv =? 16)%nat eqn:Ei; [|discriminate H].
  destruct (List.length key =? 32)%nat eqn:Ek; [|discriminate H].
  apply Nat.eqb_eq in Ek, Ei. cbn [negb] in H. inversion H. auto.
Qed.

Lemma createCipheriv_lengths (key iv : Buffer) :
  List.length key = 32%nat -> List.length iv = 16%nat ->
  createCipheriv key iv
  = Ok (fun data => xor_bytes data (AES.keystream key iv (List.length data))).
Proof.
  intros Hk Hi. unfold createCipheriv. rewrite Hk, Hi. reflexivity.
Qed.

Lemma encrypt_salt_key (text token : string) (salt : JSValue) :
  encrypt text salt = Ok token -> exists key iv, salt_key salt key iv.
Proof.
  unfold encrypt. intros H.
  apply bind_Ok in H as (props & Hp & H).
  apply bind_Ok in H as (secretKey & Hs & H).
  apply bind_Ok in H as (ivText & Hi & H).
  apply bind_Ok in H as (key & Hk & H).
  apply bind_Ok in H as (iv & Hv & H).
  apply bind_Ok in H as (cipher & Hc & _).
  destruct (createCipheriv_Ok key iv cipher Hc) as (L1 & L2 & _).
  exists key, iv, props, secretKey, ivText. repeat split; assumption.
Qed.

Lemma validateEncodedSecret_salt_key (salt : JSValue) :
  validateEncodedSecret salt = Ok tt -> exists key iv, salt_key salt key iv.
Proof.
  intros H.
  destruct (validateEncodedSecret_Ok salt H)
    as (props & secretKey & ivText & key & iv & cipher & Hp & Hs & Hi & Hk & Hv & Hc).
  destruct (createCipheriv_Ok key iv cipher Hc) as (L1 & L2 & _).
  exists key, iv, props, secretKey, ivText. repeat split; assumption.
Qed.

Lemma salt_key_encrypt (salt : JSValue) (key iv : Buffer) (text : string) :
  salt_key salt key iv ->
  encrypt text salt
  = Ok (toURLSafeBase64
          (DBuffer (xor_bytes (utf8_encode text)
                      (AES.keystream key iv (List.length (utf8_encode text)))))).
Proof.
  intros (props & secretKey & ivText & Hp & Hs & Hi & Hk & Hv & L1 & L2).
  unfold encrypt.
  rewrite Hp; cbn [bind]. rewrite Hs; cbn [bind]. rewrite Hi; cbn [bind].
  rewrite Hk; cbn [bind]. rewrite Hv; cbn [bind].
  rewrite (createCipheriv_lengths key iv L1 L2). reflexivity.
Qed.

Lemma salt_key_decrypt (salt : JSValue) (key iv : Buffer) (token : string) :
  salt_key salt key iv ->
  decrypt (JStr token) salt
  = Ok (utf8_decode (xor_bytes (token_bytes token)
                       (AES.keystream key iv (List.length (token_bytes token))))).
Proof.
  intros (props & secretKey & ivText & Hp & Hs & Hi & Hk & Hv & L1 & L2).
  unfold decrypt.
  rewrite Hp; cbn [bind]. rewrite Hs; cbn [bind]. rewrite Hi; cbn [bind].
  rewrite Hk; cbn [bind]. rewrite Hv; cbn [bind].
  rewrite (createCipheriv_lengths key iv L1 L2). reflexivity.
Qed.

Lemma token_bytes_toURLSafeBase64 (b : Buffer) :
  token_bytes (toURLSafeBase64 (DBuffer b)) = b.
Proof.
  pose proof (fromURLSafeBase64_buffer_roundtrip b) as H.
  unfold fromURLSafeBase64_buffer, fromURLSafeBase64 in H. cbn [bind] in H.
  inversion H as [E]. unfold token_bytes. rewrite E. exact E.
Qed.

Lemma byte_xor_comm (a b : byte) : byte_xor a b = byte_xor b a.
Proof. unfold byte_xor. now rewrite N.lxor_comm. Qed.

Lemma byte_xor_assoc (a b c : byte) :
  byte_xor (byte_xor a b) c = byte_xor a (byte_xor b c).
Proof.
  unfold byte_xor.
  pose proof (Byte.to_N_bounded a). pose proof (Byte.to_N_bounded b).
  pose proof (Byte.to_N_bounded c).
  rewrite !to_N_byte_of_N by (apply lxor_byte_bound; lia).
  now rewrite N.lxor_assoc.
Qed.

(** Combining with the key stream and with a mask commute. *)
Lemma xor_bytes_swap (data stream mask : Buffer) :
  xor_bytes (xor_bytes data stream) mask = xor_bytes (xor_bytes data mask) stream.
Proof.
  revert stream mask. induction data as [|d data IH]; intros [|s stream] [|m mask];
    cbn [xor_bytes]; try reflexivity.
  rewrite IH. f_equal.
  rewrite !byte_xor_assoc. f_equal. apply byte_xor_comm.
Qed.

Lemma xor_bytes_min_length (data stream : Buffer) :
  List.length (xor_bytes data stream) = Nat.min (List.length data) (List.length stream).
Proof.
  revert stream. induction data as [|d data IH]; intros [|s stream]; cbn; auto.
Qed.

(** ** The key stream does not depend on the length asked for *)

Lemma counters_prefix (n m : nat) (v : N) :
  (n <= m)%nat -> AES.counters n v = firstn n (AES.counters m v).
Proof.
  revert m v. induction n as [|n IH]; intros m v H; [reflexivity|].
  destruct m as [|m]; [lia|].
  cbn [AES.counters firstn]. f_equal. apply IH. lia.
Qed.

Lemma firstn_concat_prefix {A : Type} (blocks : list (list A)) (n len size : nat) :
  Forall (fun b => List.length b = size) blocks ->
  (n <= List.length blocks)%nat -> (len <= size * n)%nat ->
  firstn len (List.concat (firstn n blocks)) = firstn len (List.concat blocks).
Proof.
  intros Hall Hn Hlen.
  rewrite <- (firstn_skipn n blocks) at 2.
  rewrite concat_app, firstn_app.
  assert (L : List.length (List.concat (firstn n blocks)) = (size * n)%nat).
  { rewrite (concat_length_const _ size).
    - rewrite length_firstn. f_equal. lia.
    - apply Forall_forall. intros b Hb. rewrite Forall_forall in Hall.
      apply Hall. rewrite <- (firstn_skipn n blocks). apply in_or_app. left. exact Hb. }
  rewrite L. replace (len - size * n)%nat with 0%nat by lia.
  cbn [firstn]. now rewrite app_nil_r.
Qed.

Lemma keystream_blocks (key iv : Buffer) (len m : nat) :
  List.length key = 32%nat -> (S (len / 16) <= m)%nat ->
  AES.keystream key iv len
  = map byte_of_N
      (firstn len
         (List.concat
            (map (AES.encrypt_block (AES.key_schedule (map Byte.to_N key)))
                 (AES.counters m (AES.block_value (map Byte.to_N iv)))))).
Proof.
  intros Hkey Hm. unfold AES.keystream. cbv zeta. f_equal.
  rewrite (counters_prefix _ m _ Hm). rewrite <- firstn_map.
  apply (firstn_concat_prefix _ _ _ 16).
  - apply Forall_forall. intros b Hb. apply in_map_iff in Hb as (c & <- & _).
    apply encrypt_block_length. now rewrite length_map.
  - rewrite length_map, counters_length. exact Hm.
  - pose proof (Nat.div_mod_eq len 16) as E.
    pose proof (Nat.mod_upper_bound len 16 ltac:(discriminate)). lia.
Qed.

(** A shorter key stream is the beginning of a longer one. *)
Lemma keystream_prefix (key iv : Buffer) (n m : nat) :
  List.length key = 32%nat -> (n <= m)%nat ->
  AES.keystream key iv n = firstn n (AES.keystream key iv m).
Proof.
  intros Hkey Hnm.
  assert (Hd : (S (n / 16) <= S (m / 16))%nat)
    by (apply le_n_S, Nat.Div0.div_le_mono; exact Hnm).
  rewrite (keystream_blocks key iv n (S (m / 16)) Hkey Hd).
  rewrite (keystream_blocks key iv m (S (m / 16)) Hkey (le_n _)).
  rewrite <- firstn_map, <- firstn_map. rewrite firstn_firstn.
  now rewrite Nat.min_l by exact Hnm.
Qed.

Lemma byte_xor_cancel (x y k : byte) :
  byte_xor (byte_xor x k) (byte_xor y k) = byte_xor x y.
Proof.
  rewrite (byte_xor_comm y k), <- byte_xor_assoc.
  now rewrite byte_xor_involutive.
Qed.

(** Two texts under the same key stream: the stream cancels. *)
Lemma xor_bytes_cancel (stream a b : Buffer) :
  (List.length a <= List.length stream)%nat ->
  (List.length b <= List.length stream)%nat ->
  xor_bytes (xor_bytes a (firstn (List.length a) stream))
            (xor_bytes b (firstn (List.length b) stream))
  = xor_bytes a b.
Proof.
  revert a b. induction stream as [|k stream IH]; intros [|x a] [|y b] Ha Hb;
    cbn [List.length] in *; try lia; cbn [firstn xor_bytes]; try reflexivity.
  rewrite byte_xor_cancel. f_equal. apply IH; lia.
Qed.

(** ** encrypt and decrypt *)

(** X1. Whatever text encrypt turns into a token under a secret, decrypt
    reads back from that token under the same secret. *)
Theorem decrypt_encrypt_text (text token : string) (salt : JSValue) :
  encrypt text salt = Ok token -> well_formed text = true ->
  decrypt (JStr token) salt = Ok text.
Proof.
  intros Henc Hwf.
  destruct (encrypt_salt_key text token salt Henc) as (key & iv & Hsalt).
  pose proof Hsalt as (_ & _ & _ & _ & _ & _ & _ & _ & Hkey & _).
  rewrite (salt_key_encrypt salt key iv text Hsalt) in Henc. inversion Henc as [E].
  rewrite (salt_key_decrypt salt key iv _ Hsalt).
  rewrite token_bytes_toURLSafeBase64.
  rewrite xor_bytes_length by (rewrite keystream_length by exact Hkey; lia).
  rewrite xor_bytes_involutive by (rewrite keystream_length by exact Hkey; lia).
  now rewrite utf8_decode_encode.
Qed.

(** The test token read back under the test secret. *)
Lemma decrypt_encrypt_text_witness :
  decrypt (JStr test_token) (JStr test_encodedSecret)
  = Ok (stringify (JObj [("u", JStr "test"); ("$", JStr "s44we8"); ("$$", JStr "s5oge8")])).
Proof.
  apply (decrypt_encrypt_text
           (stringify (JObj [("u", JStr "test"); ("$", JStr "s44we8"); ("$$", JStr "s5oge8")]))
           test_token (JStr test_encodedSecret));
    vm_compute; reflexivity.
Defined.

(** X2. The token is not authenticated.  With the bytes of a token combined
    with any mask of their length, decrypt returns the text of the original
    combined with the same mask: who knows the text of a token can make a
    token for any other text of that length without the secret. *)
Theorem decrypt_masked_token (text token : string) (salt : JSValue) :
  encrypt text salt = Ok token ->
  List.length (token_bytes token) = List.length (utf8_encode text)
  /\ forall mask,
       List.length mask = List.length (utf8_encode text) ->
       decrypt (JStr (toURLSafeBase64 (DBuffer (xor_bytes (token_bytes token) mask)))) salt
       = Ok (utf8_decode (xor_bytes (utf8_encode text) mask)).
Proof.
  intros Henc.
  destruct (encrypt_salt_key text token salt Henc) as (key & iv & Hsalt).
  pose proof Hsalt as (_ & _ & _ & _ & _ & _ & _ & _ & Hkey & _).
  rewrite (salt_key_encrypt salt key iv text Hsalt) in Henc. inversion Henc as [E].
  rewrite token_bytes_toURLSafeBase64.
  assert (L : List.length
                (xor_bytes (utf8_encode text)
                   (AES.keystream key iv (List.length (utf8_encode text))))
              = List.length (utf8_encode text))
    by (apply xor_bytes_length; rewrite keystream_length by exact Hkey; lia).
  split; [exact L|]. intros mask Hmask.
  rewrite (salt_key_decrypt salt key iv _ Hsalt).
  rewrite token_bytes_toURLSafeBase64.
  set (p := utf8_encode text) in *.
  set (ks := AES.keystream key iv (List.length p)) in *.
  assert (Lks : List.length ks = List.length p)
    by (unfold ks; apply keystream_length; exact Hkey).
  assert (Lm : List.length (xor_bytes p mask) = List.length p)
    by (apply xor_bytes_length; lia).
  assert (D : xor_bytes (xor_bytes p ks) mask = xor_bytes (xor_bytes p mask) ks)
    by apply xor_bytes_swap.
  rewrite D.
  assert (LD : List.length (xor_bytes (xor_bytes p mask) ks) = List.length p)
    by (rewrite xor_bytes_length; lia).
  rewrite LD. fold ks.
  rewrite xor_bytes_involutive by lia.
  reflexivity.
Qed.

(** The token of the empty object under the test secret, with any mask. *)
Lemma decrypt_masked_token_witness :
  List.length (token_bytes "6os=") = List.length (utf8_encode (stringify (JObj [])))
  /\ forall mask,
       List.length mask = List.length (utf8_encode (stringify (JObj []))) ->
       decrypt (JStr (toURLSafeBase64 (DBuffer (xor_bytes (token_bytes "6os=") mask))))
         (JStr test_encodedSecret)
       = Ok (utf8_decode (xor_bytes (utf8_encode (stringify (JObj []))) mask)).
Proof.
  apply (decrypt_masked_token (stringify (JObj [])) "6os=" (JStr test_encodedSecret)).
  vm_compute. reflexivity.
Defined.

(** X3. Every token of a secret is made with the same key stream.  The bytes
    of two tokens of one secret, combined, are the bytes of their two texts,
    combined, over the length of the shorter: the key stream cancels. *)
Theorem encrypt_key_stream_reuse (text1 text2 token1 token2 : string) (salt : JSValue) :
  encrypt text1 salt = Ok token1 -> encrypt text2 salt = Ok token2 ->
  xor_bytes (token_bytes token1) (token_bytes token2)
  = xor_bytes (utf8_encode text1) (utf8_encode text2).
Proof.
  intros H1 H2.
  destruct (encrypt_salt_key text1 token1 salt H1) as (key & iv & Hsalt).
  pose proof Hsalt as (_ & _ & _ & _ & _ & _ & _ & _ & Hkey & _).
  rewrite (salt_key_encrypt salt key iv text1 Hsalt) in H1. inversion H1 as [E1].
  rewrite (salt_key_encrypt salt key iv text2 Hsalt) in H2. inversion H2 as [E2].
  rewrite !token_bytes_toURLSafeBase64.
  set (a := utf8_encode text1). set (b := utf8_encode text2).
  set (m := Nat.max (List.length a) (List.length b)).
  rewrite (keystream_prefix key iv (List.length a) m Hkey) by (unfold m; lia).
  rewrite (keystream_prefix key iv (List.length b) m Hkey) by (unfold m; lia).
  apply xor_bytes_cancel; rewrite keystream_length by exact Hkey; unfold m; lia.
Qed.

(** Two tokens of the test secret. *)
Lemma encrypt_key_stream_reuse_witness :
  xor_bytes (token_bytes test_token) (token_bytes "6os=")
  = xor_bytes
      (utf8_encode (stringify (JObj [("u", JStr "test"); ("$", JStr "s44we8");
                                     ("$$", JStr "s5oge8")])))
      (utf8_encode (stringify (JObj []))).
Proof.
  apply (encrypt_key_stream_reuse _ _ _ _ (JStr test_encodedSecret));
    vm_compute; reflexivity.
Defined.

(** ** The shape of a token *)

Lemma base64_encode_length (l : Buffer) :
  String.length (base64_encode l) = (4 * ((List.length l + 2) / 3))%nat.
Proof.
  induction l as [|a|a b|a b c rest IH] using list_ind3; try reflexivity.
  cbn [base64_encode String.length List.length]. rewrite IH.
  replace (S (S (S (List.length rest))) + 2)%nat
    with ((List.length rest + 2) + 1 * 3)%nat by lia.
  rewrite Nat.div_add by discriminate. lia.
Qed.

Lemma replace_class_length (class : ascii -> bool) (text : string) :
  String.length (replace_class class text) = String.length text.
Proof.
  induction text as [|c text IH]; cbn [replace_class String.length]; [reflexivity|].
  now rewrite IH.
Qed.

Lemma replace_class_chars (class : ascii -> bool) (text : string) (c : ascii) :
  In c (chars (replace_class class text)) ->
  exists c0, In c0 (chars text) /\ c = (if class c0 then url_safe_key c0 else c0).
Proof.
  unfold chars. induction text as [|c0 text IH];
    cbn [replace_class list_ascii_of_string In]; [tauto|].
  intros [H|H].
  - exists c0. split; [left; reflexivity|now symmetry].
  - destruct (IH H) as (c1 & Hin & E). exists c1. split; [right; exact Hin|exact E].
Qed.

(** The characters of a base64 text are those of the alphabet and the = sign. *)
Lemma base64_encode_alphabet (l : Buffer) (c : ascii) :
  In c (chars (base64_encode l)) ->
  c = "="%char \/ exists i, (i < 64)%N /\ c = base64_char i.
Proof.
  induction l as [|a|a b|a b x rest IH] using list_ind3;
    cbn [base64_encode chars list_ascii_of_string In].
  - tauto.
  - pose proof (Byte.to_N_bounded a) as Ha.
    destruct (sextets_of_single (Byte.to_N a)) as (_ & L1 & L2); [lia|].
    intros [H|[H|[H|[H|[]]]]]; subst c; eauto.
  - pose proof (Byte.to_N_bounded a) as Ha. pose proof (Byte.to_N_bounded b) as Hb.
    destruct (sextets_of_pair (Byte.to_N a) (Byte.to_N b))
      as (_ & _ & L1 & L2 & L3); [lia|lia|].
    intros [H|[H|[H|[H|[]]]]]; subst c; eauto.
  - pose proof (Byte.to_N_bounded a) as Ha. pose proof (Byte.to_N_bounded b) as Hb.
    pose proof (Byte.to_N_bounded x) as Hx.
    destruct (sextets_of_triple (Byte.to_N a) (Byte.to_N b) (Byte.to_N x))
      as (_ & _ & _ & L1 & L2 & L3 & L4); [lia|lia|lia|].
    intros [H|[H|[H|[H|H]]]]; try (subst c; eauto). apply IH. exact H.
Qed.

Lemma toURLSafeBase64_chars (data : Data) (c : ascii) :
  In c (chars (toURLSafeBase64 data)) -> url_safe_char c = true.
Proof.
  unfold toURLSafeBase64, convertBase64ToURLSafe, toBase64. intros H.
  apply replace_class_chars in H as (c0 & Hin & ->).
  apply base64_encode_alphabet in Hin as [->|(i & Hi & ->)]; [reflexivity|].
  assert (Hall : forallb (fun i => let c0 := base64_char i in
                            url_safe_char (if ((c0 =? "+") || (c0 =? "/"))%char
                                           then url_safe_key c0 else c0))
                         (map N.of_nat (seq 0 64)) = true)
    by (vm_compute; reflexivity).
  rewrite forallb_forall in Hall. apply (Hall i).
  apply in_map_iff. exists (N.to_nat i). split; [apply N2Nat.id|].
  apply in_seq. lia.
Qed.

(** X4. A token has four characters for every three bytes of the UTF-8 text,
    the last group filled up, and holds only letters, digits, -, _ and the =
    signs of the padding: it can be put into a URL as it is. *)
Theorem encrypt_token_shape (text token : string) (salt : JSValue) :
  encrypt text salt = Ok token ->
  String.length token = (4 * ((List.length (utf8_encode text) + 2) / 3))%nat
  /\ forall c, In c (chars token) -> url_safe_char c = true.
Proof.
  intros Henc.
  destruct (encrypt_salt_key text token salt Henc) as (key & iv & Hsalt).
  pose proof Hsalt as (_ & _ & _ & _ & _ & _ & _ & _ & Hkey & _).
  rewrite (salt_key_encrypt salt key iv text Hsalt) in Henc. inversion Henc as [E].
  split.
  - unfold toURLSafeBase64, convertBase64ToURLSafe, toBase64.
    rewrite replace_class_length, base64_encode_length.
    rewrite xor_bytes_length by (rewrite keystream_length by exact Hkey; lia).
    reflexivity.
  - intros c. apply toURLSafeBase64_chars.
Qed.

(** The 52 characters of the test token. *)
Lemma encrypt_token_shape_witness :
  String.length test_token
  = (4 * ((List.length
             (utf8_encode (stringify (JObj [("u", JStr "test"); ("$", JStr "s44we8");
                                            ("$$", JStr "s5oge8")]))) + 2) / 3))%nat
  /\ forall c, In c (chars test_token) -> url_safe_char c = true.
Proof.
  apply (encrypt_token_shape _ _ (JStr test_encodedSecret)).
  vm_compute. reflexivity.
Defined.

(** ** verifyTWT and the token it is given *)

Lemma decrypt_not_a_string (token salt : JSValue) (key iv : Buffer) :
  salt_key salt key iv -> is_string token = false ->
  decrypt token salt = Throw TypeError.
Proof.
  intros (props & secretKey & ivText & Hp & Hs & Hi & Hk & Hv & L1 & L2) Htoken.
  unfold decrypt.
  rewrite Hp; cbn [bind]. rewrite Hs; cbn [bind]. rewrite Hi; cbn [bind].
  rewrite Hk; cbn [bind]. rewrite Hv; cbn [bind].
  rewrite (createCipheriv_lengths key iv L1 L2). cbn [bind].
  destruct token; try discriminate Htoken; reflexivity.
Qed.

(** X5. With a secret that passes validateEncodedSecret, decrypt reads every
    string, whatever its characters and its length, and throws only for a token
    that is no string; so verifyTWT raises the encryption-failure error
    exactly for tokens that are not strings. *)
Theorem verifyTWT_EENCRYPTION_iff (now : Z) (token _options secret : JSValue) :
  get_field (verifyOptions _options) "encodedSecret" = Ok secret ->
  validateEncodedSecret secret = Ok tt ->
  (is_string token = true -> exists text, decrypt token secret = Ok text)
  /\ (is_string token = false ->
      verifyTWT now token _options = Throw (TWTError EENCRYPTION MsgDecryption))
  /\ (error_code (verifyTWT now token _options) = Some EENCRYPTION
      <-> is_string token = false).
Proof.
  intros Hs Hv.
  destruct (validateEncodedSecret_salt_key secret Hv) as (key & iv & Hsalt).
  destruct (verifyOptions_fields _options "keyMap") as (keyMap & Hk).
  destruct (clockDrift_finite _options) as (d & Hd).
  rewrite (verifyTWT_valid_secret now token _options secret keyMap (Fin d) Hk Hd Hs Hv).
  assert (Hstr : is_string token = true -> exists text, decrypt token secret = Ok text).
  { destruct token; try discriminate. intros _.
    rewrite (salt_key_decrypt secret key iv _ Hsalt). eauto. }
  assert (Hnot : is_string token = false ->
                 (decrypted <- try_catch (decrypt token secret)
                                 (fun _ => throwError MsgDecryption EENCRYPTION) ;;
                  claims <- try_catch (parseClaims decrypted)
                              (fun _ => throwError MsgParsing EPARSE) ;;
                  claims <- checkTimes now (Fin d) claims ;;
                  m <- mapClaims keyMap claims (Object_keys claims) [] ;;
                  Ok (JObj m))
                 = Throw (TWTError EENCRYPTION MsgDecryption)).
  { intros H. rewrite (decrypt_not_a_string token secret key iv Hsalt H). reflexivity. }
  split; [exact Hstr|]. split; [exact Hnot|].
  split.
  - destruct (is_string token) eqn:E; [|reflexivity].
    destruct (Hstr eq_refl) as (text & Hdec). rewrite Hdec. cbn [try_catch bind].
    destruct (parseClaims text) as [claims|e1|]; cbn [try_catch bind];
      try discriminate.
    intros H. apply after_parse_code in H. discriminate H.
  - intros H. rewrite (Hnot H). reflexivity.
Qed.

(** A number given as token, with the test secret. *)
Lemma verifyTWT_EENCRYPTION_iff_witness :
  (is_string (JNum (Fin 5)) = true ->
   exists text, decrypt (JNum (Fin 5)) (JStr test_encodedSecret) = Ok text)
  /\ (is_string (JNum (Fin 5)) = false ->
      verifyTWT 1700000000 (JNum (Fin 5)) test_options
      = Throw (TWTError EENCRYPTION MsgDecryption))
  /\ (error_code (verifyTWT 1700000000 (JNum (Fin 5)) test_options) = Some EENCRYPTION
      <-> is_string (JNum (Fin 5)) = false).
Proof.
  apply (verifyTWT_EENCRYPTION_iff 1700000000 (JNum (Fin 5)) test_options
           (JStr test_encodedSecret)).
  - reflexivity.
  - vm_compute. reflexivity.
Defined.

(** ** validateEncodedSecret *)

Lemma getSaltProperties_string (salt props : JSValue) :
  getSaltProperties salt = Ok props -> truthy salt = true.
Proof.
  unfold getSaltProperties, fromURLSafeBase64_text, fromURLSafeBase64.
  destruct salt as [| |b|n|s|l|o]; cbn [bind]; try discriminate.
  destruct s as [|c s]; [|reflexivity].
  vm_compute. discriminate.
Qed.

Lemma fromURLSafeBase64_buffer_truthy (v : JSValue) (b : Buffer) (n : nat) :
  fromURLSafeBase64_buffer v = Ok b -> List.length b = S n -> truthy v = true.
Proof.
  unfold fromURLSafeBase64_buffer, fromURLSafeBase64.
  destruct v as [| |x|x|s|l|o]; cbn [bind]; try discriminate.
  destruct s as [|c s]; [|reflexivity].
  intros H. inversion H; subst b. discriminate.
Qed.

Lemma salt_key_validateEncodedSecret (salt : JSValue) (key iv : Buffer) :
  salt_key salt key iv -> validateEncodedSecret salt = Ok tt.
Proof.
  intros (props & secretKey & ivText & Hp & Hs & Hi & Hk & Hv & L1 & L2).
  unfold validateEncodedSecret.
  rewrite (getSaltProperties_string salt props Hp). cbn [negb].
  rewrite Hp. cbn [try_catch bind]. rewrite Hs; cbn [bind]. rewrite Hi; cbn [bind].
  rewrite (fromURLSafeBase64_buffer_truthy secretKey key 31 Hk L1).
  rewrite (fromURLSafeBase64_buffer_truthy ivText iv 15 Hv L2).
  cbn [negb orb]. rewrite Hk; cbn [bind]. rewrite L1. cbn [Nat.eqb negb].
  rewrite Hv; cbn [bind]. rewrite L2. reflexivity.
Qed.

(** X6. validateEncodedSecret accepts exactly the secrets encrypt can work
    with: a secret passes if and only if encrypt returns a token under it, for
    any text. *)
Theorem validateEncodedSecret_iff_encrypt (secret : JSValue) (text : string) :
  validateEncodedSecret secret = Ok tt <-> exists token, encrypt text secret = Ok token.
Proof.
  split.
  - intros H. destruct (validateEncodedSecret_salt_key secret H) as (key & iv & Hsalt).
    rewrite (salt_key_encrypt secret key iv text Hsalt). eauto.
  - intros (token & H). destruct (encrypt_salt_key text token secret H) as (key & iv & Hsalt).
    exact (salt_key_validateEncodedSecret secret key iv Hsalt).
Qed.

(** JSON.parse never returns undefined. *)
Lemma parse_defined (fuel : nat) :
  (forall s v r, parse_value fuel s = Some (Ok (v, r)) -> v <> JUndefined)
  /\ (forall acc s v r, parse_elements fuel acc s = Some (Ok (v, r)) -> v <> JUndefined)
  /\ (forall acc s v r, parse_members fuel acc s = Some (Ok (v, r)) -> v <> JUndefined).
Proof.
  induction fuel as [|f (IHv & IHe & IHm)]; [repeat split; intros; discriminate|].
  repeat split.
  - intros s v r H. cbn [parse_value] in H.
    destruct (skip_ws s) as [|c r0]; [discriminate H|].
    destruct (c =? "{")%char.
    { destruct (skip_ws r0) as [|c' r']; [exact (IHm _ _ _ _ H)|].
      destruct (c' =? "}")%char; [inversion H; discriminate|exact (IHm _ _ _ _ H)]. }
    destruct (c =? "[")%char.
    { destruct (skip_ws r0) as [|c' r']; [exact (IHe _ _ _ _ H)|].
      destruct (c' =? "]")%char; [inversion H; discriminate|exact (IHe _ _ _ _ H)]. }
    destruct (c =? dquote)%char.
    { destruct (parse_string_body r0) as [[str r']|e|]; inversion H; discriminate. }
    unfold parse_literal in H.
    destruct (c =? "t")%char;
      [destruct (strip_prefix "true" (String c r0)); inversion H; discriminate|].
    destruct (c =? "f")%char;
      [destruct (strip_prefix "false" (String c r0)); inversion H; discriminate|].
    destruct (c =? "n")%char;
      [destruct (strip_prefix "null" (String c r0)); inversion H; discriminate|].
    destruct ((c =? "-")%char || is_digit c)%bool; [|discriminate H].
    inversion H as [Hn]. unfold parse_number in Hn.
    destruct (span_digits _) as [ds rest]. destruct ds as [|d0 more]; [discriminate Hn|].
    destruct ((d0 =? "0")%char && negb (more =? "")%string)%bool; [discriminate Hn|].
    destruct (starts_fraction rest); [discriminate Hn|].
    destruct (read_digits 10 (String d0 more) None) as [n|]; [|discriminate Hn].
    destruct (safe_integer (Z.of_N n)); inversion Hn; discriminate.
  - intros acc s v r H. cbn [parse_elements] in H.
    destruct (parse_value f s) as [[[v0 r0]|e|]|]; try discriminate H.
    destruct (skip_ws r0) as [|c r']; [discriminate H|].
    destruct (c =? ",")%char; [exact (IHe _ _ _ _ H)|].
    destruct (c =? "]")%char; inversion H; discriminate.
  - intros acc s v r H. cbn [parse_members] in H.
    destruct (skip_ws s) as [|c r0]; [discriminate H|].
    destruct (c =? dquote)%char; [|discriminate H].
    destruct (parse_string_body r0) as [[k r1]|e|]; try discriminate H.
    destruct (skip_ws r1) as [|c1 r2]; [discriminate H|].
    destruct (c1 =? ":")%char; [|discriminate H].
    destruct (parse_value f r2) as [[[v0 r3]|e|]|]; try discriminate H.
    destruct (skip_ws r3) as [|c3 r4]; [discriminate H|].
    destruct (c3 =? ",")%char; [exact (IHm _ _ _ _ H)|].
    destruct (c3 =? "}")%char; inversion H; discriminate.
Qed.

Lemma JSON_parse_defined (text : string) : JSON_parse text <> Ok JUndefined.
Proof.
  unfold JSON_parse.
  destruct (parse_value _ text) as [[[v r]|e|]|] eqn:E; try discriminate.
  destruct (skip_ws r); [|discriminate].
  intros H. inversion H; subst v.
  exact (proj1 (parse_defined _) _ _ _ E eq_refl).
Qed.

Lemma getSaltProperties_defined (salt : JSValue) :
  getSaltProperties salt <> Ok JUndefined.
Proof.
  unfold getSaltProperties. intros H.
  apply bind_Ok in H as (raw & _ & H).
  apply bind_Ok in H as (props & Hp & H). inversion H; subst props.
  exact (JSON_parse_defined raw Hp).
Qed.

Lemma fromURLSafeBase64_buffer_throws (v : JSValue) (e : Exn) :
  fromURLSafeBase64_buffer v = Throw e -> e = TypeError /\ is_string v = false.
Proof.
  unfold fromURLSafeBase64_buffer, fromURLSafeBase64.
  destruct v; cbn [bind]; intros H; inversion H; auto.
Qed.

Lemma get_field_throws (v : JSValue) (name : string) (e : Exn) :
  get_field v name = Throw e -> e = TypeError /\ (v = JUndefined \/ v = JNull).
Proof. destruct v; cbn; intros H; inversion H; auto. Qed.

Lemma get_field_Ok (v : JSValue) (name : string) (x : JSValue) :
  get_field v name = Ok x ->
  (exists o, v = JObj o /\ x = obj_get name o) \/ x = JUndefined.
Proof.
  destruct v; cbn; intros H; inversion H; auto. left. eauto.
Qed.

(** X7. Every error validateEncodedSecret throws is a TWTError with code
    ESECRET or a TypeError of the run time.  The TypeError arises only after
    the bundle was decoded: the decoded value is null, or it is an object whose
    secretKey or iv is not a string. *)
Theorem validateEncodedSecret_errors (secret : JSValue) (e : Exn) :
  validateEncodedSecret secret = Throw e ->
  (exists msg, e = TWTError ESECRET msg)
  \/ (e = TypeError
      /\ exists props,
           getSaltProperties secret = Ok props
           /\ (props = JNull
               \/ exists o, props = JObj o
                            /\ (is_string (obj_get "secretKey" o) = false
                                \/ is_string (obj_get "iv" o) = false))).
Proof.
  unfold validateEncodedSecret. intros H.
  destruct (negb (truthy secret)); [esecret H|].
  destruct (getSaltProperties secret) as [props|e0|] eqn:Hp; cbn [try_catch bind] in H;
    [|esecret H|discriminate H].
  destruct (get_field props "secretKey") as [secretKey|e1|] eqn:Hs; cbn [bind] in H;
    [|inversion H; subst e1;
      destruct (get_field_throws _ _ _ Hs) as (-> & [->| ->]);
      [destruct (getSaltProperties_defined secret Hp)|];
      right; split; [reflexivity|exists JNull; split; [reflexivity|tauto]]
     |discriminate H].
  destruct (get_field props "iv") as [ivText|e1|] eqn:Hi; cbn [bind] in H;
    [|inversion H; subst e1;
      destruct (get_field_throws _ _ _ Hi) as (-> & [->| ->]);
      [destruct (getSaltProperties_defined secret Hp)|];
      right; split; [reflexivity|exists JNull; split; [reflexivity|tauto]]
     |discriminate H].
  destruct (negb (truthy secretKey) || negb (truthy ivText))%bool eqn:Ht;
    [esecret H|].
  apply orb_false_iff in Ht as (T1 & T2). apply negb_false_iff in T1, T2.
  assert (Hobj : exists o, props = JObj o /\ secretKey = obj_get "secretKey" o
                           /\ ivText = obj_get "iv" o).
  { destruct (get_field_Ok _ _ _ Hs) as [(o & -> & E1)|E1];
      [|subst secretKey; cbn in T1; discriminate T1].
    destruct (get_field_Ok _ _ _ Hi) as [(o' & Eo & E2)|E2];
      [|subst ivText; cbn in T2; discriminate T2].
    inversion Eo; subst o'. eauto. }
  destruct Hobj as (o & -> & -> & ->).
  destruct (fromURLSafeBase64_buffer (obj_get "secretKey" o)) as [key|e1|] eqn:Hk;
    cbn [bind] in H; [| |discriminate H].
  - destruct (negb (List.length key =? 32)%nat); [esecret H|].
    destruct (fromURLSafeBase64_buffer (obj_get "iv" o)) as [iv|e1|] eqn:Hv;
      cbn [bind] in H; [| |discriminate H].
    + destruct (negb (List.length iv =? 16)%nat); [esecret H|discriminate H].
    + inversion H; subst e1.
      destruct (fromURLSafeBase64_buffer_throws _ _ Hv) as (-> & Hn).
      right. split; [reflexivity|]. exists (JObj o). split; [reflexivity|].
      right. exists o. split; [reflexivity|]. right. exact Hn.
  - inversion H; subst e1.
    destruct (fromURLSafeBase64_buffer_throws _ _ Hk) as (-> & Hn).
    right. split; [reflexivity|]. exists (JObj o). split; [reflexivity|].
    right. exists o. split; [reflexivity|]. left. exact Hn.
Qed.

(** A bundle whose secretKey decodes to two bytes. *)
Lemma validateEncodedSecret_errors_witness :
  (exists msg, TWTError ESECRET MsgSecretKeyLength = TWTError ESECRET msg)
  \/ (TWTError ESECRET MsgSecretKeyLength = TypeError
      /\ exists props,
           getSaltProperties (JStr "eyJzZWNyZXRLZXkiOiJhYmMiLCJpdiI6ImFiYyJ9") = Ok props
           /\ (props = JNull
               \/ exists o, props = JObj o
                            /\ (is_string (obj_get "secretKey" o) = false
                                \/ is_string (obj_get "iv" o) = false))).
Proof.
  apply (validateEncodedSecret_errors (JStr "eyJzZWNyZXRLZXkiOiJhYmMiLCJpdiI6ImFiYyJ9")).
  vm_compute. reflexivity.
Defined.

(** ** The errors of generateTWT and verifyTWT *)

Lemma validateEncodedSecret_throws (secret : JSValue) (e : Exn) :
  validateEncodedSecret secret = Throw e ->
  e = TypeError \/ exists msg, e = TWTError ESECRET msg.
Proof.
  unfold validateEncodedSecret, throwError, createError. intros H.
  destruct (negb (truthy secret)); [inversion H; eauto|].
  destruct (getSaltProperties secret) as [props|e0|]; cbn [try_catch bind] in H;
    [|inversion H; eauto|discriminate H].
  destruct (get_field props "secretKey") as [secretKey|e1|] eqn:Hs; cbn [bind] in H;
    [|inversion H; subst e1; left; exact (proj1 (get_field_throws _ _ _ Hs))
     |discriminate H].
  destruct (get_field props "iv") as [ivText|e1|] eqn:Hi; cbn [bind] in H;
    [|inversion H; subst e1; left; exact (proj1 (get_field_throws _ _ _ Hi))
     |discriminate H].
  destruct (negb (truthy secretKey) || negb (truthy ivText))%bool;
    [inversion H; eauto|].
  destruct (fromURLSafeBase64_buffer secretKey) as [key|e1|] eqn:Hk;
    cbn [bind] in H;
    [|inversion H; subst e1; left; exact (proj1 (fromURLSafeBase64_buffer_throws _ _ Hk))
     |discriminate H].
  destruct (negb (List.length key =? 32)%nat); [inversion H; eauto|].
  destruct (fromURLSafeBase64_buffer ivText) as [iv|e1|] eqn:Hv;
    cbn [bind] in H;
    [|inversion H; subst e1; left; exact (proj1 (fromURLSafeBase64_buffer_throws _ _ Hv))
     |discriminate H].
  destruct (negb (List.length iv =? 16)%nat); [inversion H; eauto|discriminate H].
Qed.

Lemma assign_props_no_throw (target source : Props) (e : Exn) :
  assign_props target source <> Throw e.
Proof.
  revert target. induction source as [|[k v] source IH]; intros target;
    cbn [assign_props]; [discriminate|].
  unfold obj_assign_key. destruct (k =? "__proto__")%string; cbn [bind];
    [discriminate|apply IH].
Qed.

Lemma Object_assign_no_throw (target : Props) (source : JSValue) (e : Exn) :
  Object_assign target source <> Throw e.
Proof.
  unfold Object_assign.
  destruct source as [| |b|n|s|l|o]; cbn [own_props bind];
    try apply assign_props_no_throw.
  destruct (s =? "")%string; cbn [bind]; [apply assign_props_no_throw|discriminate].
Qed.

Lemma own_toString_textless (v : JSValue) :
  own_toString v = true -> has_text v = false.
Proof.
  destruct v as [| |b|n|s|l|o]; cbn [own_toString has_text]; try discriminate.
  intros ->. reflexivity.
Qed.

(** Adding a number throws on an object that has no text, and only then. *)
Lemma js_add_throws (v : JSValue) (n : Z) (e : Exn) :
  js_add v n = Throw e -> e = TypeError /\ own_toString v = true.
Proof.
  destruct v as [| |b|a|s|l|o]; cbn [js_add number_toString]; try discriminate.
  - destruct (safe_integer n); cbn [bind]; discriminate.
  - intros H. apply bind_Throw in H as [H|(prim & _ & H)];
      [exact (js_toString_throws _ _ H)|].
    destruct (safe_integer n); cbn [bind] in H; discriminate H.
Qed.

(** The defaults throw only where they add to a validAt that has no text. *)
Lemma defaultOptions_throws (now : Z) (_options : JSValue) (e : Exn) :
  defaultOptions now _options = Throw e ->
  e = TypeError
  /\ exists options,
       Object_assign [] (or_empty _options) = Ok options
       /\ has_text (obj_get "validAt" options) = false
       /\ truthy (obj_get "expiresAt" options) = false.
Proof.
  unfold defaultOptions. intros H.
  apply bind_Throw in H as [H|(options & Ho & H)];
    [destruct (Object_assign_no_throw _ _ _ H)|].
  cbv zeta in H.
  destruct (truthy (obj_get "validAt" options)) eqn:Tv; cbn [negb] in H.
  - destruct (truthy (obj_get "expiresAt" options)) eqn:Te; cbn [negb] in H;
      [discriminate H|].
    apply bind_Throw in H as [H|(x & _ & H)]; [|discriminate H].
    destruct (js_add_throws _ _ _ H) as (-> & Hown).
    split; [reflexivity|]. exists options.
    split; [exact Ho|]. split; [exact (own_toString_textless _ Hown)|exact Te].
  - rewrite obj_get_set_other in H by discriminate.
    destruct (truthy (obj_get "expiresAt" options)); cbn [negb] in H;
      [discriminate H|].
    rewrite obj_get_set_same in H.
    apply bind_Throw in H as [H|(x & _ & H)]; [|discriminate H].
    destruct (js_add_throws _ _ _ H) as (_ & Hown). discriminate Hown.
Qed.

Lemma validateOptions_throws (now : Z) (options : Props) (e : Exn) :
  validateOptions now options = Throw e ->
  e = TypeError
  \/ exists code msg, e = TWTError code msg
                      /\ (code = EVALIDAT \/ code = EEXPIRESAT \/ code = ESECRET).
Proof.
  unfold validateOptions, throwError, createError. intros H.
  destruct (obj_get "validAt" options) as [| |b|validAt|s|l|o];
    try solve [twt_error H].
  destruct (num_lt validAt (Fin now)); [twt_error H|].
  destruct (num_gt validAt _); [twt_error H|].
  destruct (obj_get "expiresAt" options) as [| |b|expiresAt|s|l|o];
    try solve [twt_error H].
  destruct (num_lt expiresAt (Fin now)); [twt_error H|].
  destruct (num_lt expiresAt validAt); [twt_error H|].
  destruct (num_gt _ _); [twt_error H|].
  destruct (validateEncodedSecret_throws _ _ H) as [->|(msg & ->)];
    [left; reflexivity|right; do 2 eexists; split; [reflexivity|tauto]].
Qed.

Lemma validateOptions_numbers (now : Z) (options : Props) :
  validateOptions now options = Ok tt ->
  exists validAt expiresAt,
    obj_get "validAt" options = JNum validAt
    /\ obj_get "expiresAt" options = JNum expiresAt
    /\ num_lt validAt (Fin now) = false
    /\ num_gt validAt (Fin (now + YEAR_IN_SECONDS)) = false
    /\ num_lt expiresAt (Fin now) = false
    /\ num_lt expiresAt validAt = false
    /\ num_gt (num_sub expiresAt validAt) (Fin YEAR_IN_SECONDS) = false
    /\ validateEncodedSecret (obj_get "encodedSecret" options) = Ok tt.
Proof.
  unfold validateOptions, throwError. intros H.
  destruct (obj_get "validAt" options) as [| |b|validAt|s|l|o]; try discriminate H.
  destruct (num_lt validAt (Fin now)) eqn:E1; [discriminate H|].
  destruct (num_gt validAt (Fin (now + YEAR_IN_SECONDS))) eqn:E2; [discriminate H|].
  destruct (obj_get "expiresAt" options) as [| |b|expiresAt|s|l|o]; try discriminate H.
  destruct (num_lt expiresAt (Fin now)) eqn:E3; [discriminate H|].
  destruct (num_lt expiresAt validAt) eqn:E4; [discriminate H|].
  destruct (num_gt (num_sub expiresAt validAt) (Fin YEAR_IN_SECONDS)) eqn:E5;
    [discriminate H|].
  exists validAt, expiresAt. repeat split; auto.
Qed.

(** X8. generateTWT throws a TWTError only with one of the codes EVALIDAT,
    EEXPIRESAT, ESECRET and ESERIALIZE.  The encryption error is never raised:
    a secret that passed the validation is one encrypt works with.  Any other
    error is a TypeError: the one validateEncodedSecret lets through, or the
    one of the default of expiresAt, validAt + 2592000, which throws before
    any validation, as it does for a validAt that is an object with an own
    toString property when no expiresAt is given. *)
Theorem generateTWT_errors (now : Z) (props _options : JSValue) (e : Exn) :
  generateTWT now props _options = Throw e ->
  (exists code msg,
     e = TWTError code msg
     /\ (code = EVALIDAT \/ code = EEXPIRESAT \/ code = ESECRET \/ code = ESERIALIZE))
  \/ (e = TypeError
      /\ exists options,
           defaultOptions now _options = Ok options
           /\ validateEncodedSecret (obj_get "encodedSecret" options) = Throw TypeError)
  \/ (e = TypeError
      /\ defaultOptions now _options = Throw TypeError
      /\ exists options,
           Object_assign [] (or_empty _options) = Ok options
           /\ has_text (obj_get "validAt" options) = false
           /\ truthy (obj_get "expiresAt" options) = false).
Proof.
  unfold generateTWT. intros H.
  apply bind_Throw in H as [H|(options & Hdef & H)].
  { right. right. destruct (defaultOptions_throws _ _ _ H) as (-> & Hwhy).
    split; [reflexivity|]. split; [exact H|exact Hwhy]. }
  apply bind_Throw in H as [H|([] & Hval & H)].
  - destruct (validateOptions_throws _ _ _ H) as [->|(code & msg & -> & Hc)].
    + right. left. split; [reflexivity|]. exists options. split; [exact Hdef|].
      unfold validateOptions, throwError in H.
      destruct (obj_get "validAt" options) as [| |b|validAt|s|l|o]; try discriminate H.
      destruct (num_lt validAt (Fin now)); [discriminate H|].
      destruct (num_gt validAt _); [discriminate H|].
      destruct (obj_get "expiresAt" options) as [| |b|expiresAt|s|l|o];
        try discriminate H.
      destruct (num_lt expiresAt (Fin now)); [discriminate H|].
      destruct (num_lt expiresAt validAt); [discriminate H|].
      destruct (num_gt _ _); [discriminate H|]. exact H.
    + left. exists code, msg. split; [reflexivity|tauto].
  - destruct (validateOptions_numbers now options Hval)
      as (validAt & expiresAt & Hva & Hea & _ & _ & _ & _ & _ & Hsecret).
    rewrite Hva, Hea in H. cbn [toString36] in H.
    apply bind_Throw in H as [H|(va36 & _ & H)].
    { destruct validAt as [| | |z]; cbn [number_toString bind] in H; try discriminate H.
      destruct (safe_integer z); discriminate H. }
    apply bind_Throw in H as [H|(ea36 & _ & H)].
    { destruct expiresAt as [| | |z]; cbn [number_toString bind] in H; try discriminate H.
      destruct (safe_integer z); discriminate H. }
    apply bind_Throw in H as [H|(c0 & _ & H)];
      [destruct (Object_assign_no_throw _ _ _ H)|].
    apply bind_Throw in H as [H|(c1 & _ & H)];
      [destruct (Object_assign_no_throw _ _ _ H)|].
    apply bind_Throw in H as [H|(text & _ & H)].
    { unfold JSON_stringify in H. destruct (numbers_safe (JObj c1)); discriminate H. }
    destruct (validateEncodedSecret_salt_key _ Hsecret) as (key & iv & Hsalt).
    rewrite (salt_key_encrypt _ key iv text Hsalt) in H. discriminate H.
Qed.

(** Options with the test secret and a validAt that has no text. *)
Lemma generateTWT_errors_witness :
  generateTWT 1700000000 test_claims textless_validAt = Throw TypeError
  /\ ((exists code msg,
         TypeError = TWTError code msg
         /\ (code = EVALIDAT \/ code = EEXPIRESAT \/ code = ESECRET
             \/ code = ESERIALIZE))
      \/ (TypeError = TypeError
          /\ exists options,
               defaultOptions 1700000000 textless_validAt = Ok options
               /\ validateEncodedSecret (obj_get "encodedSecret" options)
                  = Throw TypeError)
      \/ (TypeError = TypeError
          /\ defaultOptions 1700000000 textless_validAt = Throw TypeError
          /\ exists options,
               Object_assign [] (or_empty textless_validAt) = Ok options
               /\ has_text (obj_get "validAt" options) = false
               /\ truthy (obj_get "expiresAt" options) = false)).
Proof.
  assert (H : generateTWT 1700000000 test_claims textless_validAt = Throw TypeError)
    by (vm_compute; reflexivity).
  split; [exact H|].
  exact (generateTWT_errors 1700000000 test_claims textless_validAt TypeError H).
Defined.

(** X9. verifyTWT throws a TWTError only with one of the codes ESECRET,
    EENCRYPTION, EPARSE and ETIME, in the order of its steps.  Any other error
    is a TypeError: the one validateEncodedSecret lets through, or, after a
    secret that passed, the one of the key mapping, which throws when it makes
    a property name of a key map entry that has no text (an object with an own
    toString property).  Reading the options, the key map and the clock drift
    throws nothing. *)
Theorem verifyTWT_errors (now : Z) (token _options : JSValue) (e : Exn) :
  verifyTWT now token _options = Throw e ->
  (exists code msg,
     e = TWTError code msg
     /\ (code = ESECRET \/ code = EENCRYPTION \/ code = EPARSE \/ code = ETIME))
  \/ (e = TypeError
      /\ exists secret,
           get_field (verifyOptions _options) "encodedSecret" = Ok secret
           /\ validateEncodedSecret secret = Throw TypeError)
  \/ (e = TypeError
      /\ exists secret keyMap,
           get_field (verifyOptions _options) "encodedSecret" = Ok secret
           /\ validateEncodedSecret secret = Ok tt
           /\ get_field (verifyOptions _options) "keyMap" = Ok keyMap
           /\ plain_entries keyMap = false).
Proof.
  intros H.
  destruct (verifyOptions_fields _options "keyMap") as (keyMap & Hk).
  destruct (clockDrift_finite _options) as (d & Hd).
  destruct (verifyOptions_fields _options "encodedSecret") as (secret & Hs).
  destruct (validateEncodedSecret secret) as [[]|e0|] eqn:Hv.
  - rewrite (verifyTWT_valid_secret now token _options secret keyMap (Fin d) Hk Hd Hs Hv)
      in H.
    destruct (decrypt token secret) as [text|e1|]; cbn [try_catch bind] in H;
      [|inversion H; left; exists EENCRYPTION, MsgDecryption; split; [reflexivity|tauto]
       |discriminate H].
    destruct (parseClaims text) as [claims|e1|]; cbn [try_catch bind] in H;
      [|inversion H; left; exists EPARSE, MsgParsing; split; [reflexivity|tauto]
       |discriminate H].
    destruct (after_parse_throws _ _ _ _ _ H) as [(msg & ->)|(-> & Hplain)].
    + left. exists ETIME, msg. split; [reflexivity|tauto].
    + right. right. split; [reflexivity|]. exists secret, keyMap. auto.
  - rewrite (verifyTWT_secret_first now token _options secret e0 Hs Hv) in H.
    inversion H; subst e0.
    destruct (validateEncodedSecret_throws secret e Hv) as [->|(msg & ->)].
    + right. left. split; [reflexivity|]. exists secret. split; [exact Hs|exact Hv].
    + left. exists ESECRET, msg. split; [reflexivity|tauto].
  - unfold verifyTWT in H. rewrite Hk in H; cbn [bind] in H.
    rewrite Hd in H; cbn [bind] in H. rewrite Hs in H; cbn [bind] in H.
    rewrite Hv in H. discriminate H.
Qed.

(** The test token, with a key map whose entry for u has no text. *)
Lemma verifyTWT_errors_witness :
  verifyTWT 1700000000 (JStr test_token) textless_options = Throw TypeError
  /\ ((exists code msg,
         TypeError = TWTError code msg
         /\ (code = ESECRET \/ code = EENCRYPTION \/ code = EPARSE \/ code = ETIME))
      \/ (TypeError = TypeError
          /\ exists secret,
               get_field (verifyOptions textless_options) "encodedSecret" = Ok secret
               /\ validateEncodedSecret secret = Throw TypeError)
      \/ (TypeError = TypeError
          /\ exists secret keyMap,
               get_field (verifyOptions textless_options) "encodedSecret" = Ok secret
               /\ validateEncodedSecret secret = Ok tt
               /\ get_field (verifyOptions textless_options) "keyMap" = Ok keyMap
               /\ plain_entries keyMap = false)).
Proof.
  assert (H : verifyTWT 1700000000 (JStr test_token) textless_options = Throw TypeError)
    by (vm_compute; reflexivity).
  split; [exact H|].
  exact (verifyTWT_errors 1700000000 (JStr test_token) textless_options TypeError H).
Defined.

(** ** What a returned result guarantees *)

Lemma checkTimes_Ok (now : Z) (drift : Z) (claims out : Props) :
  checkTimes now (Fin drift) claims = Ok out ->
  exists a b,
    obj_get "$" claims = JNum (Fin a) /\ obj_get "$$" claims = JNum (Fin b)
    /\ 0 < a /\ a <= b
    /\ (now < a -> a - now <= drift) /\ (b < now -> now - b <= drift)
    /\ out = obj_set "expiresIn" (JNum (Fin (b - a))) claims.
Proof.
  unfold checkTimes, throwError. intros H.
  destruct (obj_get "$" claims) as [| |x|validAt|s|l|o]; try discriminate H.
  destruct (obj_get "$$" claims) as [| |x|expiresAt|s|l|o]; try discriminate H.
  destruct validAt as [| | |a]; cbn [isFinite negb orb] in H; try discriminate H.
  destruct expiresAt as [| | |b];
    try (destruct (num_le (Fin a) (Fin 0)); discriminate H).
  unfold num_gt, num_sub in H.
  cbn [isFinite negb orb num_le num_lt num_neg num_add num_abs] in H.
  destruct (0 <? a) eqn:E1; cbn [negb] in H; [|discriminate H].
  destruct (0 <? b) eqn:E2; cbn [negb] in H; [|discriminate H].
  destruct (b <? a) eqn:E3; [discriminate H|].
  destruct ((now + - a <? 0) && (drift <? Z.abs (now + - a)))%bool eqn:E4;
    [discriminate H|].
  destruct ((b + - now <? 0) && (drift <? Z.abs (b + - now)))%bool eqn:E5;
    [discriminate H|].
  apply Z.ltb_lt in E1. apply Z.ltb_ge in E3.
  assert (Hearly : now < a -> a - now <= drift).
  { intros Hlt. apply andb_false_iff in E4 as [E|E]; apply Z.ltb_ge in E; lia. }
  assert (Hlate : b < now -> now - b <= drift).
  { intros Hlt. apply andb_false_iff in E5 as [E|E]; apply Z.ltb_ge in E; lia. }
  assert (Hout : out = obj_set "expiresIn" (JNum (Fin (b - a))) claims).
  { inversion H. f_equal. }
  exists a, b. tauto.
Qed.

(** X10. verifyTWT returns claims only for a token inside its window.  When it
    returns, the token decrypts under the secret of the options to a text whose
    times $ and $$, read in base 36, are positive numbers validAt <= expiresAt,
    and the clock is neither before validAt nor after expiresAt by more than
    the clock drift. *)
Theorem verifyTWT_returns_inside_window (now : Z) (token _options result : JSValue) :
  verifyTWT now token _options = Ok result ->
  exists secret text parsed validAt expiresAt drift,
    get_field (verifyOptions _options) "encodedSecret" = Ok secret
    /\ validateEncodedSecret secret = Ok tt
    /\ decrypt token secret = Ok text
    /\ parseClaims text = Ok parsed
    /\ clockDrift (verifyOptions _options) = Ok (Fin drift)
    /\ obj_get "$" parsed = JNum (Fin validAt)
    /\ obj_get "$$" parsed = JNum (Fin expiresAt)
    /\ 0 < validAt /\ validAt <= expiresAt
    /\ (now < validAt -> validAt - now <= drift)
    /\ (expiresAt < now -> now - expiresAt <= drift).
Proof.
  intros H.
  destruct (verifyTWT_Ok now token _options result H)
    as (keyMap & d & secret & text & parsed & claims & out
        & Hk & Hd & Hs & Hv & Ht & Hp & Hc & Hm & ->).
  destruct (clockDrift_finite _options) as (drift & Hd').
  rewrite Hd' in Hd. inversion Hd; subst d.
  destruct (checkTimes_Ok now drift parsed claims Hc)
    as (a & b & Ha & Hb & Hpos & Hle & Hearly & Hlate & _).
  exists secret, text, parsed, a, b, drift.
  repeat split; assumption.
Qed.

(** The test token, read at the clock of its generation. *)
Lemma verifyTWT_returns_inside_window_witness :
  exists secret text parsed validAt expiresAt drift,
    get_field (verifyOptions test_options) "encodedSecret" = Ok secret
    /\ validateEncodedSecret secret = Ok tt
    /\ decrypt (JStr test_token) secret = Ok text
    /\ parseClaims text = Ok parsed
    /\ clockDrift (verifyOptions test_options) = Ok (Fin drift)
    /\ obj_get "$" parsed = JNum (Fin validAt)
    /\ obj_get "$$" parsed = JNum (Fin expiresAt)
    /\ 0 < validAt /\ validAt <= expiresAt
    /\ (1700000000 < validAt -> validAt - 1700000000 <= drift)
    /\ (expiresAt < 1700000000 -> 1700000000 - expiresAt <= drift).
Proof.
  apply (verifyTWT_returns_inside_window 1700000000 (JStr test_token) test_options
           (JObj [("u", JStr "test"); ("validAt", JNum (Fin 1700000000));
                  ("expiresAt", JNum (Fin 1702592000));
                  ("expiresIn", JNum (Fin 2592000))])).
  vm_compute. reflexivity.
Defined.

(** X11. generateTWT returns a token only for a window that starts between
    the clock and a year after it and lasts at most a year, under a secret that
    passes validateEncodedSecret.  The token is the encryption of the JSON text
    of claims whose $ and $$ are the two times in base 36, whatever the props of
    the caller held under these two names. *)
Theorem generateTWT_returns_valid_window
  (now : Z) (props _options : JSValue) (token : string) :
  generateTWT now props _options = Ok token ->
  exists options validAt expiresAt claims,
    defaultOptions now _options = Ok options
    /\ obj_get "validAt" options = JNum (Fin validAt)
    /\ obj_get "expiresAt" options = JNum (Fin expiresAt)
    /\ now <= validAt <= now + YEAR_IN_SECONDS
    /\ now <= expiresAt
    /\ validAt <= expiresAt <= validAt + YEAR_IN_SECONDS
    /\ validateEncodedSecret (obj_get "encodedSecret" options) = Ok tt
    /\ obj_get "$" claims = JStr (Z_to_string 36 validAt)
    /\ obj_get "$$" claims = JStr (Z_to_string 36 expiresAt)
    /\ encrypt (stringify (JObj claims)) (obj_get "encodedSecret" options) = Ok token.
Proof.
  unfold generateTWT. intros H.
  apply bind_Ok in H as (options & Hdef & H).
  apply bind_Ok in H as ([] & Hval & H).
  destruct (validateOptions_numbers now options Hval)
    as (va & ea & Hva & Hea & E1 & E2 & E3 & E4 & E5 & Hsecret).
  assert (Fva : exists z, va = Fin z).
  { destruct va as [| | |z]; [|discriminate E2|discriminate E1|eauto].
    destruct (defaultOptions_validAt now _options options Hdef) as [D|D];
      rewrite Hva in D; discriminate D. }
  destruct Fva as (a & ->).
  assert (Fea : exists z, ea = Fin z).
  { destruct ea as [| | |z]; [|discriminate E5|discriminate E3|eauto].
    destruct (defaultOptions_expiresAt now _options options a Hdef Hva) as [D|D];
      rewrite Hea in D; discriminate D. }
  destruct Fea as (b & ->).
  unfold num_gt, num_sub in E2, E5. cbn [num_lt num_neg num_add] in E1, E2, E3, E4, E5.
  apply Z.ltb_ge in E1, E2, E3, E4, E5.
  rewrite Hva, Hea in H. cbn [toString36 number_toString] in H.
  destruct (safe_integer a); [|discriminate H].
  destruct (safe_integer b); [|discriminate H].
  cbn [bind] in H.
  apply bind_Ok in H as (c0 & _ & H).
  apply bind_Ok in H as (c1 & Hc1 & H).
  apply bind_Ok in H as (text & Htext & H). apply try_catch_Ok in Htext.
  apply try_catch_Ok in H.
  unfold Object_assign in Hc1. cbn [own_props bind assign_props] in Hc1.
  unfold obj_assign_key in Hc1.
  change ("$" =? "__proto__")%string with false in Hc1.
  change ("$$" =? "__proto__")%string with false in Hc1.
  cbn [bind] in Hc1. inversion Hc1; subst c1. clear Hc1.
  unfold JSON_stringify in Htext.
  destruct (numbers_safe _); [|discriminate Htext].
  inversion Htext; subst text.
  exists options, a, b,
    (obj_set "$$" (JStr (Z_to_string 36 b)) (obj_set "$" (JStr (Z_to_string 36 a)) c0)).
  repeat split; try assumption; try lia.
  - rewrite obj_get_set_other by discriminate. apply obj_get_set_same.
  - apply obj_get_set_same.
Qed.

(** The call that made the test token. *)
Lemma generateTWT_returns_valid_window_witness :
  exists options validAt expiresAt claims,
    defaultOptions 1700000000 test_options = Ok options
    /\ obj_get "validAt" options = JNum (Fin validAt)
    /\ obj_get "expiresAt" options = JNum (Fin expiresAt)
    /\ 1700000000 <= validAt <= 1700000000 + YEAR_IN_SECONDS
    /\ 1700000000 <= expiresAt
    /\ validAt <= expiresAt <= validAt + YEAR_IN_SECONDS
    /\ validateEncodedSecret (obj_get "encodedSecret" options) = Ok tt
    /\ obj_get "$" claims = JStr (Z_to_string 36 validAt)
    /\ obj_get "$$" claims = JStr (Z_to_string 36 expiresAt)
    /\ encrypt (stringify (JObj claims)) (obj_get "encodedSecret" options) = Ok test_token.
Proof.
  apply (generateTWT_returns_valid_window 1700000000 test_claims test_options test_token).
  vm_compute. reflexivity.
Defined.

(** ** Text through base64, and the secrets generateSalt makes *)

Lemma replace_class_id (class : ascii -> bool) (text : string) :
  (forall c, In c (chars text) -> class c = false) ->
  replace_class class text = text.
Proof.
  unfold chars. induction text as [|c text IH]; intros H; [reflexivity|].
  cbn [replace_class]. rewrite (H c (or_introl eq_refl)).
  rewrite IH by (intros x Hx; apply H; right; exact Hx). reflexivity.
Qed.

Lemma convertBase64FromURLSafe_standard (l : Buffer) :
  convertBase64FromURLSafe (base64_encode l) = base64_encode l.
Proof.
  apply replace_class_id. intros c Hc.
  destruct (base64_encode_chars l c Hc) as (H1 & H2).
  apply Ascii.eqb_neq in H1, H2. rewrite H1, H2. reflexivity.
Qed.

Lemma token_bytes_toBase64 (data : Data) :
  token_bytes (toURLSafeBase64 data)
  = match data with DBuffer b => b | DText s => utf8_encode s end.
Proof.
  unfold token_bytes, toURLSafeBase64, toBase64.
  rewrite convertBase64_roundtrip by apply base64_encode_chars.
  apply base64_decode_encode.
Qed.

(** X12. A text written by toURLSafeBase64 is read back by fromURLSafeBase64
    with the utf8 encoding; the reader takes the standard alphabet as well, so
    it also reads back what toBase64 wrote. *)
Theorem fromURLSafeBase64_reads_text (s : string) :
  well_formed s = true ->
  fromURLSafeBase64 (JStr (toURLSafeBase64 (DText s))) (Some Utf8) = Ok (DText s)
  /\ fromURLSafeBase64 (JStr (toBase64 (DText s))) (Some Utf8) = Ok (DText s)
  /\ fromURLSafeBase64 (JStr (toBase64 (DText s))) None = Ok (DBuffer (utf8_encode s)).
Proof.
  intros Hwf. unfold fromURLSafeBase64.
  pose proof (token_bytes_toBase64 (DText s)) as E1. unfold token_bytes in E1.
  rewrite E1. unfold toBase64.
  rewrite convertBase64FromURLSafe_standard, base64_decode_encode.
  rewrite (utf8_decode_encode s Hwf). repeat split; reflexivity.
Qed.

(** A text of six characters. *)
Lemma fromURLSafeBase64_reads_text_witness :
  fromURLSafeBase64 (JStr (toURLSafeBase64 (DText "token?"))) (Some Utf8)
  = Ok (DText "token?")
  /\ fromURLSafeBase64 (JStr (toBase64 (DText "token?"))) (Some Utf8) = Ok (DText "token?")
  /\ fromURLSafeBase64 (JStr (toBase64 (DText "token?"))) None
     = Ok (DBuffer (utf8_encode "token?")).
Proof. apply (fromURLSafeBase64_reads_text "token?"). reflexivity. Defined.

Lemma url_safe_char_ascii (c : ascii) : url_safe_char c = true -> (N_of_ascii c <? 128)%N = true.
Proof.
  unfold url_safe_char. intros H. apply N.ltb_lt.
  repeat (apply orb_true_iff in H as [H|H]);
    try (apply andb_true_iff in H as (H1 & H2); apply N.leb_le in H1, H2; lia);
    apply N.eqb_eq in H; lia.
Qed.

Lemma toURLSafeBase64_ascii (data : Data) : ascii_only (toURLSafeBase64 data) = true.
Proof.
  unfold ascii_only. apply forallb_forall. intros c Hc.
  apply url_safe_char_ascii. exact (toURLSafeBase64_chars data c Hc).
Qed.

Lemma fromURLSafeBase64_text_roundtrip (s : string) :
  well_formed s = true ->
  fromURLSafeBase64_text (JStr (toURLSafeBase64 (DText s))) = Ok s.
Proof.
  intros Hwf. unfold fromURLSafeBase64_text, fromURLSafeBase64. cbn [bind].
  pose proof (token_bytes_toBase64 (DText s)) as E. unfold token_bytes in E.
  rewrite E. now rewrite utf8_decode_encode.
Qed.

(** X13. Every secret generateSalt makes passes validateEncodedSecret: it
    decodes to a JSON object whose secretKey and iv are the 32 and the 16 bytes
    drawn from the random source, in this order, and it is URL-safe text. *)
Theorem generateSalt_valid (source : nat -> byte) (pos : nat) :
  exists salt,
    generateSalt source pos = (Ok salt, (pos + 48)%nat)
    /\ validateEncodedSecret (JStr salt) = Ok tt
    /\ salt_key (JStr salt) (map source (seq pos 32)) (map source (seq (pos + 32) 16))
    /\ forall c, In c (chars salt) -> url_safe_char c = true.
Proof.
  set (key := map source (seq pos 32)).
  set (iv := map source (seq (pos + 32) 16)).
  set (props := JObj [("secretKey", JStr (toURLSafeBase64 (DBuffer key)));
                      ("iv", JStr (toURLSafeBase64 (DBuffer iv)))]).
  assert (Hser : serializable props).
  { apply serializable_JObj. split; [reflexivity|].
    repeat constructor; cbn [fst snd serializable];
      apply ascii_only_well_formed, toURLSafeBase64_ascii. }
  assert (Hsalt : salt_key (JStr (toURLSafeBase64 (DText (stringify props)))) key iv).
  { exists props, (JStr (toURLSafeBase64 (DBuffer key))),
      (JStr (toURLSafeBase64 (DBuffer iv))).
    split; [|split; [reflexivity|split; [reflexivity|split; [|split; [|split]]]]].
    - unfold getSaltProperties.
      rewrite fromURLSafeBase64_text_roundtrip by (apply stringify_well_formed; exact Hser).
      cbn [bind]. rewrite (JSON_parse_stringify props Hser). reflexivity.
    - apply fromURLSafeBase64_buffer_roundtrip.
    - apply fromURLSafeBase64_buffer_roundtrip.
    - unfold key. now rewrite length_map, length_seq.
    - unfold iv. now rewrite length_map, length_seq. }
  exists (toURLSafeBase64 (DText (stringify props))).
  split; [|split; [|split]].
  - unfold generateSalt, randomBytes. fold key. fold iv. fold props.
    rewrite (JSON_stringify_serializable props Hser). cbn [bind].
    f_equal. lia.
  - exact (salt_key_validateEncodedSecret _ key iv Hsalt).
  - exact Hsalt.
  - intros c. apply toURLSafeBase64_chars.
Qed.

(** ** The options generateTWT reads *)

(** X15. generateTWT takes a falsy validAt or expiresAt (0, NaN, null, the
    empty string, false) for a missing one and reads nothing from the options
    but these two and the secret: with both times missing or falsy, the call
    behaves as with options that hold the secret alone. *)
Theorem generateTWT_falsy_times (now : Z) (props : JSValue) (o : Props) :
  enumeration_order o -> obj_has "__proto__" o = false ->
  truthy (obj_get "validAt" o) = false ->
  truthy (obj_get "expiresAt" o) = false ->
  generateTWT now props (JObj o)
  = generateTWT now props (JObj [("encodedSecret", obj_get "encodedSecret" o)]).
Proof.
  intros Horder Hproto Hva Hea.
  assert (D : forall o', enumeration_order o' -> obj_has "__proto__" o' = false ->
              truthy (obj_get "validAt" o') = false ->
              truthy (obj_get "expiresAt" o') = false ->
              defaultOptions now (JObj o')
              = Ok (obj_set "expiresAt" (JNum (Fin (now + DEFAULT_EXPIRATION_SECONDS)))
                      (obj_set "validAt" (JNum (Fin now)) o'))).
  { intros o' H1 H2 H3 H4. rewrite defaultOptions_object by assumption.
    cbv zeta. rewrite H3. cbn [negb].
    rewrite (obj_get_set_other "expiresAt" "validAt") by discriminate.
    rewrite H4. cbn [negb]. rewrite obj_get_set_same. reflexivity. }
  assert (G : forall o', 
              generateTWT now props (JObj o')
              = (options <- defaultOptions now (JObj o') ;;
                 validateOptions now options ;;;
                 validAt36 <- toString36 (obj_get "validAt" options) ;;
                 expiresAt36 <- toString36 (obj_get "expiresAt" options) ;;
                 claims <- Object_assign [] (or_empty props) ;;
                 claims <- Object_assign claims
                             (JObj [("$", validAt36); ("$$", expiresAt36)]) ;;
                 serialized <-
                   try_catch (JSON_stringify (JObj claims))
                             (fun _ => throwError MsgSerializing ESERIALIZE) ;;
                 try_catch (encrypt serialized (obj_get "encodedSecret" options))
                           (fun _ => throwError MsgEncryption EENCRYPTION)))
    by reflexivity.
  rewrite !G.
  rewrite (D o Horder Hproto Hva Hea).
  rewrite (D [("encodedSecret", obj_get "encodedSecret" o)]) by reflexivity.
  cbn [bind]. unfold validateOptions.
  assert (F : forall o',
              obj_get "validAt"
                (obj_set "expiresAt" (JNum (Fin (now + DEFAULT_EXPIRATION_SECONDS)))
                   (obj_set "validAt" (JNum (Fin now)) o')) = JNum (Fin now)
              /\ obj_get "expiresAt"
                   (obj_set "expiresAt" (JNum (Fin (now + DEFAULT_EXPIRATION_SECONDS)))
                      (obj_set "validAt" (JNum (Fin now)) o'))
                 = JNum (Fin (now + DEFAULT_EXPIRATION_SECONDS))
              /\ obj_get "encodedSecret"
                   (obj_set "expiresAt" (JNum (Fin (now + DEFAULT_EXPIRATION_SECONDS)))
                      (obj_set "validAt" (JNum (Fin now)) o'))
                 = obj_get "encodedSecret" o').
  { intros o'. split; [|split].
    - rewrite obj_get_set_other by discriminate. apply obj_get_set_same.
    - apply obj_get_set_same.
    - rewrite !obj_get_set_other by discriminate. reflexivity. }
  destruct (F o) as (F1 & F2 & F3).
  destruct (F [("encodedSecret", obj_get "encodedSecret" o)]) as (F4 & F5 & F6).
  rewrite F1, F2, F3, F4, F5, F6. reflexivity.
Qed.

(** Options with validAt 0, expiresAt null and a key map. *)
Lemma generateTWT_falsy_times_witness :
  generateTWT 1700000000 test_claims
    (JObj [("encodedSecret", JStr test_encodedSecret); ("validAt", JNum (Fin 0));
           ("expiresAt", JNull); ("keyMap", JObj [("u", JStr "userID")])])
  = generateTWT 1700000000 test_claims
      (JObj [("encodedSecret",
              obj_get "encodedSecret"
                [("encodedSecret", JStr test_encodedSecret); ("validAt", JNum (Fin 0));
                 ("expiresAt", JNull); ("keyMap", JObj [("u", JStr "userID")])])]).
Proof.
  apply (generateTWT_falsy_times 1700000000 test_claims
           [("encodedSecret", JStr test_encodedSecret); ("validAt", JNum (Fin 0));
            ("expiresAt", JNull); ("keyMap", JObj [("u", JStr "userID")])]);
    reflexivity.
Defined.

(** ** Calls without a secret *)

Lemma validateEncodedSecret_falsy (secret : JSValue) :
  truthy secret = false ->
  validateEncodedSecret secret = Throw (TWTError ESECRET MsgBadSecret).
Proof. intros H. unfold validateEncodedSecret. rewrite H. reflexivity. Qed.

(** X16. Without a secret both calls end in the bad-secret error.  verifyTWT
    raises it for every token when the options are missing or hold no truthy
    encodedSecret; generateTWT raises it, once the default times have passed
    their checks, when it is called without options, with null or with an empty
    object. *)
Theorem missing_secret_ESECRET (now : Z) (token props _options secret : JSValue) :
  (get_field (verifyOptions _options) "encodedSecret" = Ok secret ->
   truthy secret = false ->
   verifyTWT now token _options = Throw (TWTError ESECRET MsgBadSecret))
  /\ verifyTWT now token JUndefined = Throw (TWTError ESECRET MsgBadSecret)
  /\ generateTWT now props JUndefined = Throw (TWTError ESECRET MsgBadSecret)
  /\ generateTWT now props JNull = Throw (TWTError ESECRET MsgBadSecret)
  /\ generateTWT now props (JObj []) = Throw (TWTError ESECRET MsgBadSecret).
Proof.
  assert (G : forall o, or_empty o = JObj [] ->
              generateTWT now props o = Throw (TWTError ESECRET MsgBadSecret)).
  { intros o Ho.
    assert (D : defaultOptions now o
                = Ok [("validAt", JNum (Fin now));
                      ("expiresAt", JNum (Fin (now + DEFAULT_EXPIRATION_SECONDS)))])
      by (unfold defaultOptions; rewrite Ho; reflexivity).
    assert (W : validateOptions now
                  [("validAt", JNum (Fin now));
                   ("expiresAt", JNum (Fin (now + DEFAULT_EXPIRATION_SECONDS)))]
                = Throw (TWTError ESECRET MsgBadSecret)).
    { unfold validateOptions.
      change (obj_get "validAt" [("validAt", JNum (Fin now));
                                 ("expiresAt", JNum (Fin (now + DEFAULT_EXPIRATION_SECONDS)))])
        with (JNum (Fin now)).
      change (obj_get "expiresAt" [("validAt", JNum (Fin now));
                                   ("expiresAt", JNum (Fin (now + DEFAULT_EXPIRATION_SECONDS)))])
        with (JNum (Fin (now + DEFAULT_EXPIRATION_SECONDS))).
      change (obj_get "encodedSecret"
                [("validAt", JNum (Fin now));
                 ("expiresAt", JNum (Fin (now + DEFAULT_EXPIRATION_SECONDS)))])
        with JUndefined.
      unfold num_gt, num_sub. cbn [num_lt num_neg num_add].
      unfold DEFAULT_EXPIRATION_SECONDS, YEAR_IN_SECONDS.
      replace (now <? now) with false by (symmetry; apply Z.ltb_ge; lia).
      replace (now + 31557600 <? now) with false by (symmetry; apply Z.ltb_ge; lia).
      replace (now + 2592000 <? now) with false by (symmetry; apply Z.ltb_ge; lia).
      replace (31557600 <? now + 2592000 + - now) with false
        by (symmetry; apply Z.ltb_ge; lia).
      reflexivity. }
    exact (generateTWT_validation_first now props o _ _ D W). }
  assert (V : forall o s, get_field (verifyOptions o) "encodedSecret" = Ok s ->
              truthy s = false ->
              verifyTWT now token o = Throw (TWTError ESECRET MsgBadSecret)).
  { intros o s Hs Hf.
    exact (verifyTWT_secret_first now token o s _ Hs (validateEncodedSecret_falsy s Hf)). }
  split; [apply V|]. split; [apply (V JUndefined JUndefined); reflexivity|].
  repeat split; apply G; reflexivity.
Qed.
